(** * childesplus: the [Corpus] class of [src/corpus.py]

    A shallow embedding of the vocabulary builder, the indexer, the window
    expander, the sequence chunker and the batcher of [Corpus], and the
    properties of them that the specification states.

    Conventions of the embedding:
    - a Python [int] argument is a [Z]; a counter that the code starts at 0
      and only increments ([self.vocab_size], positions of [range]) is a
      [nat];
    - a token is a [string]: the bytes of its UTF-8 encoding, whose
      lexicographic order is the code point order Python compares with;
    - a [dict] is an association list in insertion order with distinct keys,
      as Python iterates over it;
    - a raised exception is the [Raise] case of [Result]. *)

From Stdlib Require Import ZArith String Ascii List Bool Lia Arith.
From Stdlib Require Import Permutation Sorted Orders Mergesort OrderedTypeEx.
Import ListNotations.

Local Open Scope string_scope.
Local Open Scope list_scope.
Local Open Scope Z_scope.

(** A token of the corpus. *)
Abbreviation token := string (only parsing).

(** ** Exceptions *)

Inductive exn : Type :=
| ValueError (msg : string)
| KeyError (key : option token)
| IndexError.

Inductive Result (A : Type) : Type :=
| Ok (a : A)
| Raise (e : exn).

Arguments Ok {A} a.
Arguments Raise {A} e.

Definition bind {A B} (r : Result A) (k : A -> Result B) : Result B :=
  match r with
  | Ok a => k a
  | Raise e => Raise e
  end.

Notation "x <- r ;; k" := (bind r (fun x => k))
  (at level 61, r at next level, right associativity).

(** [for x in xs: body], where the body may raise. *)
Fixpoint for_each {S X} (xs : list X) (body : X -> S -> Result S) (s : S)
  : Result S :=
  match xs with
  | [] => Ok s
  | x :: rest => s' <- body x s ;; for_each rest body s'
  end.

(** ** Python sequences *)

Definition len {A} (l : list A) : Z := Z.of_nat (length l).

(** [range(lo, hi)]. *)
Definition range (lo hi : Z) : list Z :=
  map (fun k => lo + Z.of_nat k) (seq 0 (Z.to_nat (hi - lo))).

(** [[x] * n]: empty when [n] is not positive. *)
Definition py_repeat {A} (x : A) (n : Z) : list A := repeat x (Z.to_nat n).

(** [l[i]]: a negative index counts from the end; out of range raises. *)
Definition py_getitem {A} (l : list A) (i : Z) : Result A :=
  let j := if i <? 0 then i + len l else i in
  if j <? 0 then Raise IndexError
  else match nth_error l (Z.to_nat j) with
       | Some x => Ok x
       | None => Raise IndexError
       end.

(** How a slice bound is clamped into [0 .. len]. *)
Definition slice_bound (n i : Z) : Z :=
  if i <? 0 then Z.max (i + n) 0 else Z.min i n.

(** [l[start:stop]]. *)
Definition py_slice {A} (l : list A) (start stop : Z) : list A :=
  let a := slice_bound (len l) start in
  let b := slice_bound (len l) stop in
  firstn (Z.to_nat (b - a)) (skipn (Z.to_nat a) l).

(** ** Dictionaries in insertion order *)

Definition dict (V : Type) := list (token * V).

Definition dict_keys {V} (d : dict V) : list token := map fst d.

Fixpoint dict_get {V} (k : token) (d : dict V) : option V :=
  match d with
  | [] => None
  | (k', v) :: rest => if String.eqb k k' then Some v else dict_get k rest
  end.

(** [k in d]. *)
Definition dict_mem {V} (k : token) (d : dict V) : bool :=
  match dict_get k d with Some _ => true | None => false end.

(** [d[k] = v]: an existing key keeps its place, a new one goes last. *)
Fixpoint dict_set {V} (k : token) (v : V) (d : dict V) : dict V :=
  match d with
  | [] => [(k, v)]
  | (k', v') :: rest =>
      if String.eqb k k' then (k', v) :: rest else (k', v') :: dict_set k v rest
  end.

(** [d.pop(k, None)]. *)
Definition dict_pop {V} (k : token) (d : dict V) : dict V :=
  filter (fun kv => negb (String.eqb k (fst kv))) d.

(** The keys of a dictionary are distinct. *)
Definition dict_wf {V} (d : dict V) : Prop := NoDup (dict_keys d).

(** ** [create_windowed_index_list] *)

Record Pairs (A : Type) : Type := mkPairs { px : list A; py : list A }.
Arguments mkPairs {A} px py.
Arguments px {A} p.
Arguments py {A} p.

(** [x.append(a); y.append(b)]. *)
Definition emit {A} (a b : A) (p : Pairs A) : Pairs A :=
  mkPairs (px p ++ [a]) (py p ++ [b]).

(** The body of the two nested loops, at position [i] and offset [j]. *)
Definition window_step {A} (padded_index_list : list A) (window_size : Z)
    (direction : string) (i j : Z) (p : Pairs A) : Result (Pairs A) :=
  if String.eqb direction "both" then
    p1 <- (if 0 <=? i - j then
             a <- py_getitem padded_index_list i ;;
             b <- py_getitem padded_index_list (i - j) ;;
             Ok (emit a b p)
           else Ok p) ;;
    if i + j <? len padded_index_list then
      a <- py_getitem padded_index_list i ;;
      b <- py_getitem padded_index_list (i + j) ;;
      Ok (emit a b p1)
    else Ok p1
  else if String.eqb direction "forward" then
    if i + window_size <? len padded_index_list then
      a <- py_getitem padded_index_list i ;;
      b <- py_getitem padded_index_list (i + j) ;;
      Ok (emit a b p)
    else Ok p
  else
    if i <? len padded_index_list - window_size then
      a <- py_getitem padded_index_list (i + j - 1) ;;
      b <- py_getitem padded_index_list (i + window_size) ;;
      Ok (emit a b p)
    else Ok p.

Definition create_windowed_index_list {A} (index_list : list A)
    (window_size : Z) (direction : string) (pad_index : A)
  : Result (list A * list A) :=
  if window_size =? 0 then
    Raise (ValueError "Window size cannot be 0, must be None or positive integer")
  else
    let padded_index_list :=
      if String.eqb direction "backward"
      then py_repeat pad_index window_size ++ index_list
      else index_list ++ py_repeat pad_index window_size in
    p <- for_each (range 0 (len padded_index_list))
           (fun i => for_each (range 1 (window_size + 1))
                       (window_step padded_index_list window_size direction i))
           (mkPairs [] []) ;;
    Ok (px p, py p).

(** ** [Counter] *)

Definition Counter := dict Z.

(** [c[k]]: a missing key counts 0. *)
Definition counter_get (k : token) (c : Counter) : Z :=
  match dict_get k c with Some n => n | None => 0 end.

(** [Counter._keep_positive]: entries whose count is not positive go. *)
Definition keep_positive (c : Counter) : Counter :=
  filter (fun kv => 0 <? snd kv) c.

(** [self += other] of [Counter]: add the counts of [other] in its order,
    then keep the positive ones. *)
Definition Counter_iadd (self other : Counter) : Counter :=
  keep_positive
    (fold_left (fun d kv => dict_set (fst kv) (counter_get (fst kv) d + snd kv) d)
               other self).

(** [Counter(tokens)]. *)
Definition Counter_of (tokens : list token) : Counter :=
  fold_left (fun d t => dict_set t (counter_get t d + 1) d) tokens [].

(** ** [document.Document] *)

Module document.

Record Document : Type := mkDocument {
  sequence_list : list (list token);
  document_name : option string;
  document_info_dict : dict string;
  type_freq_dict : Counter;
  num_types : nat;
  num_tokens : nat;
  num_sequences : nat
}.

(** Modelled from the spec: the class [Document] of the module [document],
    which [corpus.py] imports and which is not among the sources. It wraps
    the token sequences of one document and exposes a frequency table
    (token to count) and the counts of distinct types, of tokens and of
    sequences. *)
Definition new (sequence_list : list (list token))
    (document_name : option string) (document_info_dict : dict string)
  : Document :=
  let tokens := List.concat sequence_list in
  let freq := Counter_of tokens in
  mkDocument sequence_list document_name document_info_dict
             freq (length freq) (length tokens) (length sequence_list).

End document.

(** ** The corpus *)

(** The three vocabulary attributes, which [create_vocab] resets together. *)
Record Vocab : Type := mkVocab {
  vocab_list : list token;
  vocab_index_dict : dict nat;
  vocab_size : nat
}.

(** The attributes of [Corpus] that the aggregator and the vocabulary
    builder read or write. [vocab = None] stands for [vocab_size],
    [vocab_list] and [vocab_index_dict] being [None], as [__init__] leaves
    them. ([vocab_freq_dict] stays [None] throughout and the index lists are
    written by [create_batched_sequence_lists] only.) *)
Record Corpus : Type := mkCorpus {
  num_documents : nat;
  document_list : list document.Document;
  num_sequences : nat;
  num_tokens : nat;
  num_types : nat;
  type_list : list token;
  type_index_dict : dict nat;
  type_freq_dict : Counter;
  vocab : option Vocab;
  unknown_token : option token
}.

(** [Corpus.__init__]. *)
Definition Corpus_init : Corpus :=
  mkCorpus 0 [] 0 0 0 [] [] [] None None.

Definition set_vocab (v : option Vocab) (c : Corpus) : Corpus :=
  mkCorpus (num_documents c) (document_list c) (num_sequences c) (num_tokens c)
           (num_types c) (type_list c) (type_index_dict c) (type_freq_dict c)
           v (unknown_token c).

Definition set_unknown (u : option token) (c : Corpus) : Corpus :=
  mkCorpus (num_documents c) (document_list c) (num_sequences c) (num_tokens c)
           (num_types c) (type_list c) (type_index_dict c) (type_freq_dict c)
           (vocab c) u.

(** [{key: idx for idx, key in enumerate(keys)}]. *)
Definition index_dict_of (keys : list token) : dict nat :=
  fold_left (fun d ik => dict_set (snd ik) (fst ik) d)
            (combine (seq 0 (length keys)) keys) [].

Definition add_document (sequence_list : list (list token))
    (document_name : option string) (document_info_dict : option (dict string))
    (c : Corpus) : Corpus :=
  let document_info_dict :=
    match document_info_dict with Some d => d | None => [] end in
  let new_document :=
    document.new sequence_list document_name document_info_dict in
  let freq := Counter_iadd (type_freq_dict c)
                           (document.type_freq_dict new_document) in
  let types := dict_keys freq in
  mkCorpus (num_documents c + 1)
           (document_list c ++ [new_document])
           (num_sequences c + document.num_sequences new_document)
           (num_tokens c + document.num_tokens new_document)
           (num_types c + document.num_types new_document)
           types
           (index_dict_of types)
           freq
           (vocab c)
           (unknown_token c).

(** *** [set_unknown_token] *)

(** ["<" + unknown_token + ">"]. *)
Definition wrap (t : token) : token := String.append "<" (String.append t ">").

Definition max_key_length {V} (d : dict V) : nat :=
  fold_right (fun kv m => Nat.max (String.length (fst kv)) m) 0%nat d.

(** The [while] loop of [set_unknown_token] once it is entered: wrap the
    candidate while it is a key of the frequency table. Every wrap makes the
    candidate longer, so after more wraps than the longest key is long the
    candidate is free; that is where the fuel ends
    ([resolve_unknown_first_free]). *)
Fixpoint resolve_unknown (fuel : nat) (freq : Counter) (unknown_token : token)
  : token :=
  match fuel with
  | O => unknown_token
  | S fuel' =>
      if dict_mem unknown_token freq
      then resolve_unknown fuel' freq (wrap unknown_token)
      else unknown_token
  end.

(** The value of [self.unknown_token] when [set_unknown_token] returns: a
    token that is already set is kept. *)
Definition unknown_token_after (unknown_token_arg : token) (c : Corpus)
  : token :=
  match unknown_token c with
  | Some u => u
  | None => resolve_unknown (S (max_key_length (type_freq_dict c)))
                            (type_freq_dict c) unknown_token_arg
  end.

Definition set_unknown_token (unknown_token_arg : token) (c : Corpus) : Corpus :=
  set_unknown (Some (unknown_token_after unknown_token_arg c)) c.

(** *** [create_vocab] *)

Definition add_token_to_vocab (tok : token) (v : Vocab) : Vocab :=
  mkVocab (vocab_list v ++ [tok])
          (dict_set tok (vocab_size v) (vocab_index_dict v))
          (S (vocab_size v)).

(** The sort key [(-count, word)] of a frequency table entry, compared as
    Python compares tuples. *)
Module VocabKey <: Orders.TotalLeBool.
Definition t : Type := (token * Z)%type.
Definition leb (a b : t) : bool :=
  (- snd a <? - snd b)
  || ((- snd a =? - snd b) && String.leb (fst a) (fst b)).
Theorem leb_total : forall a b, leb a b = true \/ leb b a = true.
Proof.
  intros [w1 c1] [w2 c2]. unfold leb. simpl.
  destruct (Z.ltb_spec (- c1) (- c2)); [now left|].
  destruct (Z.ltb_spec (- c2) (- c1)); [now right|].
  assert (E : - c1 = - c2) by lia.
  rewrite E, Z.eqb_refl. simpl.
  apply String.leb_total.
Qed.
End VocabKey.

Module VocabSort := Sort VocabKey.

(** [sorted(filtered_freq_dict, key=lambda w: (-filtered_freq_dict[w], w))]. *)
Definition sorted_tokens (filtered_freq_dict : Counter) : list token :=
  map fst (VocabSort.sort filtered_freq_dict).

(** The state of the include-list loop. *)
Record Included : Type := mkIncluded {
  inc_vocab : Vocab;
  inc_filtered : Counter;
  inc_missing : list token
}.

Definition include_step (st : Included) (tok : token) : Included :=
  if dict_mem tok (inc_filtered st)
  then mkIncluded (add_token_to_vocab tok (inc_vocab st))
                  (dict_pop tok (inc_filtered st))
                  (inc_missing st)
  else mkIncluded (inc_vocab st) (inc_filtered st) (inc_missing st ++ [tok]).

(** The fill loop over [sorted_tokens], with its [break]. *)
Fixpoint fill_vocab (target : Z) (sorted : list token) (v : Vocab) : Vocab :=
  match sorted with
  | [] => v
  | tok :: rest =>
      if target <=? Z.of_nat (vocab_size v) then v
      else fill_vocab target rest
             (if dict_mem tok (vocab_index_dict v) then v
              else add_token_to_vocab tok v)
  end.

Definition no_words_error : exn :=
  ValueError
    "ERROR making vocab list: After exclusion list there are no words in the corpus".

(** [create_vocab] returns the corpus as the call leaves it together with
    the list of missing words or the exception raised. *)
Definition create_vocab (vocab_size_arg : option Z)
    (include_list exclude_list : list token) (include_unknown : bool)
    (c : Corpus) : Corpus * Result (list token) :=
  let v0 := mkVocab [] [] 0 in
  let target :=
    match vocab_size_arg with
    | Some n => n
    | None => if include_unknown then len (type_freq_dict c) + 1
              else len (type_freq_dict c)
    end in
  let c1 := if include_unknown then set_unknown_token "<UNK>" c else c in
  let v1 := if include_unknown
            then add_token_to_vocab (unknown_token_after "<UNK>" c) v0
            else v0 in
  let filtered_freq_dict :=
    fold_left (fun d tok => dict_pop tok d) exclude_list (type_freq_dict c) in
  if len filtered_freq_dict =? 0 then
    (set_vocab (Some v1) c1, Raise no_words_error)
  else
    let st := fold_left include_step include_list
                        (mkIncluded v1 filtered_freq_dict []) in
    let v2 := inc_vocab st in
    let v3 := if Z.of_nat (vocab_size v2) <? target
              then fill_vocab target (sorted_tokens (inc_filtered st)) v2
              else v2 in
    (set_vocab (Some v3) c1, Ok (inc_missing st)).

(** ** [create_simple_index_list] *)

(** [d[k]] where [k] may be [None]: a missing key raises [KeyError]. *)
Definition dict_getitem {V} (k : option token) (d : dict V) : Result V :=
  match k with
  | Some k' => match dict_get k' d with
               | Some v => Ok v
               | None => Raise (KeyError k)
               end
  | None => Raise (KeyError None)
  end.

(** The body of the loop over the tokens. *)
Definition index_step {V} (vocab_index_dict : dict V)
    (unknown_token : option token) (tok : token) (index_list : list V)
  : Result (list V) :=
  current_index <-
    (if dict_mem tok vocab_index_dict
     then dict_getitem (Some tok) vocab_index_dict
     else dict_getitem unknown_token vocab_index_dict) ;;
  Ok (index_list ++ [current_index]).

Definition create_simple_index_list {V} (flattened_list : list token)
    (vocab_index_dict : dict V) (unknown_token : option token)
  : Result (list V) :=
  for_each flattened_list (index_step vocab_index_dict unknown_token) [].

(** ** [create_sequence_lists] *)

Definition create_sequence_lists {A} (index_list : list A)
    (sequence_length : Z) (pad_index : A) : list (list A) :=
  if sequence_length =? 2 then map (fun index => [index]) index_list
  else
    let padded_list := py_repeat pad_index (sequence_length - 2) ++ index_list in
    fold_left
      (fun sequence_lists i =>
         if i + sequence_length <=? len padded_list
         then sequence_lists ++ [py_slice padded_list i (i + sequence_length)]
         else sequence_lists)
      (range 0 (len padded_list + 1)) [].

(** ** [create_batches] *)

(** The six accumulators of [create_batches]; [R] is the type of a row. *)
Record Batches (R : Type) : Type := mkBatches {
  x_batches : list (list R);
  y_batches : list (list R);
  y_window_batches : list (list R);
  current_batch_x : list R;
  current_batch_y : list R;
  current_batch_y_window : list R
}.
Arguments mkBatches {R}.
Arguments x_batches {R}.
Arguments y_batches {R}.
Arguments y_window_batches {R}.
Arguments current_batch_x {R}.
Arguments current_batch_y {R}.
Arguments current_batch_y_window {R}.

Definition no_batches {R} : Batches R := mkBatches [] [] [] [] [] [].

(** The three [append]s to the current batch. *)
Definition append_rows {R} (x y y_window : R) (b : Batches R) : Batches R :=
  mkBatches (x_batches b) (y_batches b) (y_window_batches b)
            (current_batch_x b ++ [x]) (current_batch_y b ++ [y])
            (current_batch_y_window b ++ [y_window]).

(** The body of the loop when [sequence_length == 1]; a full batch is
    closed with [current_batch_y] appended to [y_window_batches] too. *)
Definition flat_step {E} (sequence_list : list E) (batch_size : Z) (i : Z)
    (b : Batches E) : Result (Batches E) :=
  x <- py_getitem sequence_list i ;;
  y <- py_getitem sequence_list (i + 1) ;;
  y_window <- py_getitem sequence_list (i + 1) ;;
  let b1 := append_rows x y y_window b in
  if len (current_batch_x b1) =? batch_size then
    Ok (mkBatches (x_batches b1 ++ [current_batch_x b1])
                  (y_batches b1 ++ [current_batch_y b1])
                  (y_window_batches b1 ++ [current_batch_y b1])
                  [] [] [])
  else Ok b1.

(** The branch [sequence_length == 1], which never looks inside an element
    of [sequence_list]. *)
Definition create_batches_flat {E} (sequence_list : list E) (batch_size : Z)
  : Result (list (list E) * list (list E) * list (list E)) :=
  b <- for_each (range 0 (len sequence_list - 1))
         (flat_step sequence_list batch_size) no_batches ;;
  Ok (x_batches b, y_batches b, y_window_batches b).

(** [x_batches.append(current_batch_x)] and its two companions. *)
Definition close_batch {R} (b : Batches R) : Batches R :=
  mkBatches (x_batches b ++ [current_batch_x b])
            (y_batches b ++ [current_batch_y b])
            (y_window_batches b ++ [current_batch_y_window b])
            [] [] [].

(** The body of the loop over the chunks in the other branch. *)
Definition row_step {A} (batch_size : Z) (sequence : list A)
    (b : Batches (list A)) : Result (Batches (list A)) :=
  last_index <- py_getitem sequence (-1) ;;
  let b1 := append_rows (py_slice sequence 0 (-1)) [last_index]
                        (py_slice sequence 1 (len sequence)) b in
  if len (current_batch_x b1) =? batch_size then Ok (close_batch b1)
  else Ok b1.

(** [while len(current_batch_x) < batch_size: ...]; at most [batch_size]
    rows are ever missing. *)
Fixpoint pad_batch {A} (fuel : nat) (batch_size sequence_length : Z)
    (pad_index : A) (b : Batches (list A)) : Batches (list A) :=
  match fuel with
  | O => b
  | S fuel' =>
      if len (current_batch_x b) <? batch_size
      then pad_batch fuel' batch_size sequence_length pad_index
             (append_rows (py_repeat pad_index sequence_length) [pad_index]
                          (py_repeat pad_index sequence_length) b)
      else b
  end.

Definition create_batches {A} (sequence_list : list (list A))
    (batch_size sequence_length : Z) (pad_index : A)
  : Result (list (list (list A)) * list (list (list A)) * list (list (list A))) :=
  if sequence_length =? 1 then create_batches_flat sequence_list batch_size
  else
    b <- for_each sequence_list (row_step batch_size) no_batches ;;
    let b' :=
      match current_batch_x b with
      | [] => b
      | _ :: _ =>
          close_batch (pad_batch (Z.to_nat batch_size) batch_size
                                 sequence_length pad_index b)
      end in
    Ok (x_batches b', y_batches b', y_window_batches b').

(** ** [flatten_corpus_lists] *)

(** An element of a nested list: a token, or a list of elements of any depth
    ([isinstance(element, list)]). *)
#[local] Set Warnings "-register-all".
Inductive nested : Type :=
| Tok (t : token)
| Lst (elements : list nested).

(** What one element contributes to [flat_list]: itself, or the flattening
    of the list it is. *)
Fixpoint flatten_element (element : nested) : list token :=
  match element with
  | Tok t => [t]
  | Lst elements =>
      (fix flatten (l : list nested) : list token :=
         match l with
         | [] => []
         | e :: rest => flatten_element e ++ flatten rest
         end) elements
  end.

(** The loop over [nested_list]; [flatten_corpus_lists_eq] gives the
    equations of the recursive method. *)
Definition flatten_corpus_lists (nested_list : list nested) : list token :=
  flat_map flatten_element nested_list.

(** ** [create_index_list] *)

(** A direction that may be [None]: [None] equals none of ['both'],
    ['forward'] and ['backward'], as the empty string does. *)
Definition py_direction (window_direction : option string) : string :=
  match window_direction with
  | Some d => d
  | None => ""
  end.

(** [create_index_list] returns [(x, y, index_list)]; the windowed lists are
    made with the default [pad_index=0]. *)
Definition create_index_list (flattened_list : list token)
    (vocab_index_dict : dict nat) (unknown_token : option token)
    (window_size : option Z) (window_direction : option string)
  : Result (list nat * list nat * list nat) :=
  index_list <- create_simple_index_list flattened_list vocab_index_dict
                                         unknown_token ;;
  match window_size with
  | Some w =>
      xy <- create_windowed_index_list index_list w
              (py_direction window_direction) 0%nat ;;
      Ok (fst xy, snd xy, index_list)
  | None =>
      Ok (py_slice index_list 0 (-1),
          py_slice index_list 1 (len index_list),
          index_list)
  end.

(** ** [create_batched_sequence_lists] *)

(** [range(start, stop, step)]; a step of 0 raises [ValueError]. *)
Definition range3 (start stop step : Z) : Result (list Z) :=
  if step =? 0 then Raise (ValueError "range() arg 3 must not be zero")
  else
    let n := if 0 <? step then (stop - start + step - 1) / step
             else (start - stop - step - 1) / (- step) in
    Ok (map (fun k => start + Z.of_nat k * step) (seq 0 (Z.to_nat n))).

(** [[f(x) for x in xs]] where [f] may raise. *)
Fixpoint map_result {X Y} (f : X -> Result Y) (xs : list X) : Result (list Y) :=
  match xs with
  | [] => Ok []
  | x :: rest => y <- f x ;; ys <- map_result f rest ;; Ok (y :: ys)
  end.

(** [[[l[i:i + batch_size]] for i in range(0, len(l), batch_size)]]: every
    batch is a list of one row. *)
Definition slice_batches {A} (l : list A) (batch_size : Z)
  : Result (list (list (list A))) :=
  starts <- range3 0 (len l) batch_size ;;
  Ok (map (fun i => [py_slice l i (i + batch_size)]) starts).

(** The three index lists that [create_batched_sequence_lists] stores in the
    corpus. *)
Record IndexLists : Type := mkIndexLists {
  x_list : list nat;
  y_list : list nat;
  index_list : list nat
}.

Section Tensors.

(** [torch.tensor(batch, dtype=torch.long).to(device)] is not code of the
    repository: the tensors are an abstract type and the conversion of a
    batch, a list of rows, an abstract operation that may raise. *)
Variable Tensor : Type.
Variable torch_tensor : list (list nat) -> Result Tensor.

(** [create_batched_sequence_lists] of a corpus whose vocabulary is built:
    [vocab_index_dict] and [unknown_token] are the attributes it reads, the
    [IndexLists] the attributes it writes. *)
Definition create_batched_sequence_lists (document_list : list nested)
    (window_size : option Z) (window_direction : option string)
    (batch_size sequence_length : Z)
    (vocab_index_dict : dict nat) (unknown_token : option token)
  : Result (IndexLists * (list Tensor * list Tensor * list Tensor)) :=
  let corpus_token_list := flatten_corpus_lists document_list in
  let pad_index := 0%nat in
  xyi <- create_index_list corpus_token_list vocab_index_dict unknown_token
                           window_size window_direction ;;
  let lists := mkIndexLists (fst (fst xyi)) (snd (fst xyi)) (snd xyi) in
  batches <-
    (if match window_size with Some w => w =? 1 | None => false end then
       let sequence_list :=
         create_sequence_lists (index_list lists) (sequence_length + 1)
                               pad_index in
       create_batches sequence_list batch_size sequence_length pad_index
     else
       xb <- slice_batches (x_list lists) batch_size ;;
       yb <- slice_batches (y_list lists) batch_size ;;
       Ok (xb, yb, [])) ;;
  x_batches <- map_result torch_tensor (fst (fst batches)) ;;
  y_batches <- map_result torch_tensor (snd (fst batches)) ;;
  y_window_batches <- map_result torch_tensor (snd batches) ;;
  Ok (lists, (x_batches, y_batches, y_window_batches)).

End Tensors.

(** ** Notions used in the statements *)

(** The pairs that the window loops emit at position [i] and offset [j] of
    a padded list of length [m], as a list of (centre, context); [d] stands
    for the elements that the guards keep out of reach. *)
Definition pairs_at {A} (padded : list A) (w : nat) (direction : string)
    (d : A) (i j : nat) : list (A * A) :=
  let m := length padded in
  if String.eqb direction "both" then
    (if (j <=? i)%nat then [(nth i padded d, nth (i - j) padded d)] else [])
    ++ (if (i + j <? m)%nat then [(nth i padded d, nth (i + j) padded d)]
        else [])
  else if String.eqb direction "forward" then
    if (i + w <? m)%nat then [(nth i padded d, nth (i + j) padded d)] else []
  else
    if (i + w <? m)%nat
    then [(nth (i + j - 1) padded d, nth (i + w) padded d)] else [].

Definition window_pairs {A} (padded : list A) (w : nat) (direction : string)
    (d : A) : list (A * A) :=
  flat_map (fun i => flat_map (pairs_at padded w direction d i) (seq 1 w))
           (seq 0 (length padded)).

(** [x.append(a); y.append(b)] for each pair of a list. *)
Definition emit_all {A} (abs : list (A * A)) (p : Pairs A) : Pairs A :=
  mkPairs (px p ++ map fst abs) (py p ++ map snd abs).

(** The sum of the counts that a list of entries gives a token. *)
Definition total_of (t : token) (other : Counter) : Z :=
  fold_right (fun kv s => if String.eqb t (fst kv) then snd kv + s else s)
             0 other.

(** The counts of a table are positive. *)
Definition positive (d : Counter) : Prop :=
  forall k n, In (k, n) d -> 0 < n.

(** The index of the unknown token, when there is one: the token is set and
    is an entry of the vocabulary. *)
Definition unknown_index {V} (d : dict V) (unknown : option token) : option V :=
  match unknown with
  | Some u => dict_get u d
  | None => None
  end.

(** The vocabulary state of a corpus: the three vocabulary attributes and
    the unknown token. *)
Definition vocab_state (c : Corpus) : option Vocab * option token :=
  (vocab c, unknown_token c).

(** The same corpus with no vocabulary built and no unknown token resolved. *)
Definition forget_vocab (c : Corpus) : Corpus :=
  set_unknown None (set_vocab None c).

(** The unknown token that [set_unknown_token] resolves on a corpus where
    none is set: the first of "<UNK>", "<<UNK>>", ... that is no type. *)
Definition first_free_unknown (c : Corpus) : token :=
  resolve_unknown (S (max_key_length (type_freq_dict c))) (type_freq_dict c)
                  "<UNK>".

(** The vocabulary invariant of the data model: the index map and the
    ordered list agree, with the indices [0 .. vocab_size - 1] in order and
    no token twice. *)
Record vocab_wf (v : Vocab) : Prop := {
  wf_size : vocab_size v = length (vocab_list v);
  wf_index : vocab_index_dict v
             = combine (vocab_list v) (seq 0 (length (vocab_list v)));
  wf_nodup : NoDup (vocab_list v)
}.

(** Every token of the list has an index, and the index of a token is a
    position of the token in the list. *)
Record decodable (v : Vocab) : Prop := {
  dec_size : vocab_size v = length (vocab_list v);
  dec_mem : forall t, In t (vocab_list v) ->
                      dict_mem t (vocab_index_dict v) = true;
  dec_get : forall t i, dict_get t (vocab_index_dict v) = Some i ->
                        nth_error (vocab_list v) i = Some t
}.

(** The order of the fill step on the types of a frequency table:
    descending frequency, ties broken by ascending lexicographic order. *)
Definition vocab_order (freq : Counter) (t1 t2 : token) : Prop :=
  counter_get t2 freq < counter_get t1 freq
  \/ (counter_get t1 freq = counter_get t2 freq /\ String.leb t1 t2 = true).

(** The target size that [create_vocab] works with. *)
Definition target_size (vocab_size_arg : option Z) (include_unknown : bool)
    (c : Corpus) : Z :=
  match vocab_size_arg with
  | Some n => n
  | None => if include_unknown then len (type_freq_dict c) + 1
            else len (type_freq_dict c)
  end.

(** The index map and the list of a vocabulary hold the same tokens. *)
Definition same_tokens (v : Vocab) : Prop :=
  forall x, In x (dict_keys (vocab_index_dict v)) <-> In x (vocab_list v).

(** The corpora that the methods build from [Corpus()]. *)
Inductive reachable : Corpus -> Prop :=
| reach_init : reachable Corpus_init
| reach_add_document :
    forall c sequence_list document_name document_info_dict,
      reachable c ->
      reachable (add_document sequence_list document_name document_info_dict c)
| reach_create_vocab :
    forall c vocab_size_arg include_list exclude_list include_unknown,
      reachable c ->
      reachable (fst (create_vocab vocab_size_arg include_list exclude_list
                                   include_unknown c)).

(** What holds of the accumulators of the branch [sequence_length == 1]
    after the positions below [k]. *)
Record FlatInv {E} (l : list E) (bs : Z) (k : nat) (b : Batches E) : Prop := {
  fi_x : List.concat (x_batches b) ++ current_batch_x b = firstn k l;
  fi_y : List.concat (y_batches b) ++ current_batch_y b = firstn k (tl l);
  fi_w : y_window_batches b = y_batches b;
  fi_x_full : Forall (fun r => len r = bs) (x_batches b);
  fi_y_full : Forall (fun r => len r = bs) (y_batches b);
  fi_count : length (x_batches b) = length (y_batches b);
  fi_cur : length (current_batch_x b) = length (current_batch_y b);
  fi_open : 1 <= bs -> len (current_batch_x b) < bs;
  fi_none : bs <= 0 -> x_batches b = []
}.

(** What holds of the accumulators of the other branch after the chunks
    [done]. *)
Record RowInv {A} (bs : Z) (d : A) (done : list (list A))
    (b : Batches (list A)) : Prop := {
  ri_x : List.concat (x_batches b) ++ current_batch_x b
         = map (@removelast A) done;
  ri_y : List.concat (y_batches b) ++ current_batch_y b
         = map (fun c => [last c d]) done;
  ri_w : List.concat (y_window_batches b) ++ current_batch_y_window b
         = map (@tl A) done;
  ri_x_full : Forall (fun r => len r = bs) (x_batches b);
  ri_y_full : Forall (fun r => len r = bs) (y_batches b);
  ri_w_full : Forall (fun r => len r = bs) (y_window_batches b);
  ri_count_y : length (x_batches b) = length (y_batches b);
  ri_count_w : length (y_batches b) = length (y_window_batches b);
  ri_cur_y : length (current_batch_x b) = length (current_batch_y b);
  ri_cur_w : length (current_batch_y b) = length (current_batch_y_window b);
  ri_open : len (current_batch_x b) < bs
}.

(** * Properties *)

(** ** Sequences and dictionaries *)

(** Closes [dict_wf] of a concrete table. *)
Ltac distinct_keys :=
  vm_compute; repeat constructor; simpl; intuition discriminate.

Lemma py_getitem_nth {A} (l : list A) (i : nat) (x : A) :
  nth_error l i = Some x -> py_getitem l (Z.of_nat i) = Ok x.
Proof.
  intros H. unfold py_getitem.
  destruct (Z.ltb_spec (Z.of_nat i) 0); [lia|].
  destruct (Z.ltb_spec (Z.of_nat i) 0); [lia|].
  now rewrite Nat2Z.id, H.
Qed.

Lemma py_getitem_last {A} (l : list A) (x : A) :
  py_getitem (l ++ [x]) (-1) = Ok x.
Proof.
  unfold py_getitem, len. change (-1 <? 0) with true. cbv iota.
  rewrite length_app. simpl length.
  destruct (Z.ltb_spec (-1 + Z.of_nat (length l + 1)) 0); [lia|].
  replace (Z.to_nat (-1 + Z.of_nat (length l + 1))) with (length l) by lia.
  now rewrite nth_error_app2, Nat.sub_diag by lia.
Qed.

Lemma range_0 (n : nat) : range 0 (Z.of_nat n) = map Z.of_nat (seq 0 n).
Proof.
  unfold range. rewrite Z.sub_0_r, Nat2Z.id. apply map_ext. intros; lia.
Qed.

Lemma range_nonpos (lo hi : Z) : hi <= lo -> range lo hi = [].
Proof.
  intros H. unfold range. now replace (Z.to_nat (hi - lo)) with 0%nat by lia.
Qed.

(** [range(len(l) - 1)], which is empty for the empty list too. *)
Lemma range_pairs {A} (l : list A) :
  range 0 (len l - 1) = map Z.of_nat (seq 0 (length l - 1)).
Proof.
  destruct l as [|a l]; [reflexivity|].
  replace (len (a :: l) - 1) with (Z.of_nat (length (a :: l) - 1))
    by (unfold len; simpl length; lia).
  apply range_0.
Qed.

Lemma for_each_app {S X} (xs ys : list X) (body : X -> S -> Result S) (s : S) :
  for_each (xs ++ ys) body s = (s' <- for_each xs body s ;; for_each ys body s').
Proof.
  revert s. induction xs as [|x xs IH]; intros s; simpl; [reflexivity|].
  destruct (body x s); simpl; auto.
Qed.

Lemma dict_get_In {V} (k : token) (d : dict V) (v : V) :
  dict_get k d = Some v -> In (k, v) d.
Proof.
  induction d as [|[k' v'] d IH]; simpl; [discriminate|].
  destruct (String.eqb_spec k k') as [->|]; intros H.
  - injection H as ->. now left.
  - right; auto.
Qed.

Lemma dict_mem_keys {V} (k : token) (d : dict V) :
  dict_mem k d = true <-> In k (dict_keys d).
Proof.
  unfold dict_mem. induction d as [|[k' v'] d IH]; simpl.
  - split; [discriminate | tauto].
  - destruct (String.eqb_spec k k') as [->|N].
    + split; auto.
    + rewrite IH. split; [auto | intros [E|H]; [congruence | exact H]].
Qed.

Lemma dict_mem_false {V} (k : token) (d : dict V) :
  dict_mem k d = false <-> ~ In k (dict_keys d).
Proof.
  rewrite <- dict_mem_keys. destruct (dict_mem k d); split; congruence.
Qed.

Lemma dict_get_wf {V} (k : token) (v : V) (d : dict V) :
  dict_wf d -> In (k, v) d -> dict_get k d = Some v.
Proof.
  unfold dict_wf. induction d as [|[k' v'] d IH]; simpl; [tauto|].
  intros W [E|H].
  - injection E as -> ->. now rewrite String.eqb_refl.
  - inversion W as [|? ? N W']; subst.
    destruct (String.eqb_spec k k') as [->|_]; [|auto].
    exfalso. apply N. change (In (fst (k', v)) (map fst d)). now apply in_map.
Qed.

Lemma dict_set_fresh {V} (k : token) (v : V) (d : dict V) :
  ~ In k (dict_keys d) -> dict_set k v d = d ++ [(k, v)].
Proof.
  induction d as [|[k' v'] d IH]; simpl; [reflexivity|].
  intros N. destruct (String.eqb_spec k k') as [->|_]; [tauto|].
  rewrite IH; tauto.
Qed.

Lemma dict_pop_keys {V} (k k' : token) (d : dict V) :
  In k' (dict_keys (dict_pop k d)) <-> In k' (dict_keys d) /\ k' <> k.
Proof.
  unfold dict_pop, dict_keys. rewrite !in_map_iff. split.
  - intros [[a v] [E H]]. apply filter_In in H as [H1 H2]. simpl in *. subst a.
    split; [now exists (k', v)|].
    destruct (String.eqb_spec k k'); [discriminate | congruence].
  - intros [[[a v] [E H]] N]. simpl in E. subst a. exists (k', v). split; [easy|].
    apply filter_In. split; [easy|]. simpl.
    destruct (String.eqb_spec k k'); [congruence | easy].
Qed.

Lemma dict_pop_wf {V} (k : token) (d : dict V) : dict_wf d -> dict_wf (dict_pop k d).
Proof.
  unfold dict_wf, dict_pop, dict_keys. induction d as [|[k' v'] d IH]; simpl; [auto|].
  intros W. inversion W as [|? ? N W']; subst.
  destruct (negb (String.eqb k k')); simpl; [|auto].
  constructor; [|auto]. intros H. apply N.
  apply in_map_iff in H as [kv [E H]]. apply filter_In in H as [H _].
  rewrite <- E. now apply in_map.
Qed.

Lemma pop_all_keys {V} (ks : list token) (d : dict V) (k : token) :
  In k (dict_keys (fold_left (fun d tok => dict_pop tok d) ks d))
  <-> In k (dict_keys d) /\ ~ In k ks.
Proof.
  revert d. induction ks as [|a ks IH]; intros d; simpl; [tauto|].
  rewrite IH, dict_pop_keys. intuition congruence.
Qed.

Lemma pop_all_wf {V} (ks : list token) (d : dict V) :
  dict_wf d -> dict_wf (fold_left (fun d tok => dict_pop tok d) ks d).
Proof.
  revert d. induction ks as [|a ks IH]; intros d W; simpl; [exact W|].
  apply IH, dict_pop_wf, W.
Qed.

(** ** Window expander *)

(** C2 (as amended): in "both" mode on [[a,b,c]] with [window_size = 1] the
    padded sequence is [[a,b,c,pad]] and every position of it is a centre,
    the pad position too: the pairs are (a,b), (b,a), (b,c), (c,b), (c,pad)
    and then (pad,c), in that order. *)
Theorem windowed_both_abc :
  forall (A : Type) (a b c pad : A),
    create_windowed_index_list [a; b; c] 1 "both" pad
    = Ok ([a; b; b; c; c; pad], [b; a; c; b; pad; c]).
Proof. intros. reflexivity. Qed.

(** C2 (as stated) fails: the result on [[1,2,3]] with pad 0 is not the five
    claimed pairs, the sixth pair (0,3) is returned as well. *)
Lemma windowed_both_abc_five_pairs_cex :
  create_windowed_index_list [1; 2; 3] 1 "both" 0
  <> Ok ([1; 2; 2; 3; 3], [2; 1; 3; 2; 0])
  /\ create_windowed_index_list [1; 2; 3] 1 "both" 0
     = Ok ([1; 2; 2; 3; 3; 0], [2; 1; 3; 2; 0; 3]).
Proof. split; [discriminate | reflexivity]. Qed.

(** ** Indexer *)

Lemma index_step_present {V} (d : dict V) (unknown : option token)
    (t : token) (i : V) (acc : list V) :
  dict_get t d = Some i -> index_step d unknown t acc = Ok (acc ++ [i]).
Proof. intros E. unfold index_step, dict_mem. simpl. now rewrite E. Qed.

Lemma index_step_absent {V} (d : dict V) (unknown : option token)
    (t : token) (acc : list V) :
  dict_get t d = None ->
  index_step d unknown t acc
  = match unknown_index d unknown with
    | Some ui => Ok (acc ++ [ui])
    | None => Raise (KeyError unknown)
    end.
Proof.
  intros E. unfold index_step, dict_mem. rewrite E.
  destruct unknown as [u|]; simpl; [|reflexivity].
  now destruct (dict_get u d).
Qed.

Lemma simple_index_loop_ok {V} (d : dict V) (unknown : option token) (ui : V)
    (fl : list token) (acc : list V) :
  unknown_index d unknown = Some ui ->
  for_each fl (index_step d unknown) acc
  = Ok (acc ++ map (fun t => match dict_get t d with
                             | Some i => i
                             | None => ui
                             end) fl).
Proof.
  intros U. revert acc. induction fl as [|t fl IH]; intros acc.
  - simpl. now rewrite app_nil_r.
  - cbn [for_each map]. destruct (dict_get t d) as [i|] eqn:E.
    + rewrite (index_step_present _ _ _ i) by assumption. cbn [bind].
      rewrite IH, <- app_assoc. reflexivity.
    + rewrite index_step_absent, U by assumption. cbn [bind].
      rewrite IH, <- app_assoc. reflexivity.
Qed.

Lemma simple_index_loop_present {V} (d : dict V) (unknown : option token)
    (fl : list token) (acc : list V) :
  Forall (fun t => dict_mem t d = true) fl ->
  exists idxs,
    for_each fl (index_step d unknown) acc = Ok (acc ++ idxs)
    /\ Forall2 (fun t i => dict_get t d = Some i) fl idxs.
Proof.
  intros H. revert acc. induction H as [|t fl Ht _ IH]; intros acc.
  - exists []. simpl. now rewrite app_nil_r.
  - unfold dict_mem in Ht.
    destruct (dict_get t d) as [i|] eqn:E; [|discriminate].
    destruct (IH (acc ++ [i])) as [idxs [R F]].
    exists (i :: idxs). cbn [for_each].
    rewrite (index_step_present _ _ _ i) by assumption. cbn [bind].
    rewrite R, <- app_assoc. split; [reflexivity|]. now constructor.
Qed.

Lemma simple_index_loop_raise {V} (d : dict V) (unknown : option token)
    (fl : list token) (acc : list V) :
  unknown_index d unknown = None ->
  Exists (fun t => dict_mem t d = false) fl ->
  for_each fl (index_step d unknown) acc = Raise (KeyError unknown).
Proof.
  intros U H. revert acc. induction fl as [|t fl IH]; intros acc.
  - inversion H.
  - cbn [for_each]. destruct (dict_get t d) as [i|] eqn:E.
    + rewrite (index_step_present _ _ _ i) by assumption. cbn [bind].
      apply IH. inversion H as [? ? M|]; subst; [|assumption].
      unfold dict_mem in M. now rewrite E in M.
    + rewrite index_step_absent, U by assumption. reflexivity.
Qed.

(** C5: [create_simple_index_list] maps every token of the vocabulary index
    map to its index; when the unknown token has an index, every other token
    gets that index; and when some token is absent and there is no unknown
    index, the call raises [KeyError] and returns nothing. *)
Theorem create_simple_index_list_lookup :
  forall (V : Type) (flattened_list : list token) (d : dict V)
         (unknown : option token),
    (forall ui, unknown_index d unknown = Some ui ->
       create_simple_index_list flattened_list d unknown
       = Ok (map (fun t => match dict_get t d with
                           | Some i => i
                           | None => ui
                           end) flattened_list))
    /\ (Forall (fun t => dict_mem t d = true) flattened_list ->
        exists idxs,
          create_simple_index_list flattened_list d unknown = Ok idxs
          /\ Forall2 (fun t i => dict_get t d = Some i) flattened_list idxs)
    /\ (unknown_index d unknown = None ->
        Exists (fun t => dict_mem t d = false) flattened_list ->
        create_simple_index_list flattened_list d unknown
        = Raise (KeyError unknown)).
Proof.
  intros V fl d unknown. unfold create_simple_index_list. repeat split.
  - intros ui U. now rewrite (simple_index_loop_ok d unknown ui fl []).
  - intros H. destruct (simple_index_loop_present d unknown fl [] H) as [idxs [R F]].
    exists idxs. now split.
  - intros U H. now apply simple_index_loop_raise.
Qed.

Lemma create_simple_index_list_lookup_witness :
  create_simple_index_list ["a"; "q"] [("<UNK>", 0%nat); ("a", 1%nat)]
                           (Some "<UNK>")
  = Ok [1%nat; 0%nat]
  /\ create_simple_index_list ["a"; "q"] [("a", 0%nat)] None
     = Raise (KeyError None).
Proof.
  split.
  - exact (proj1 (create_simple_index_list_lookup nat ["a"; "q"]
                    [("<UNK>", 0%nat); ("a", 1%nat)] (Some "<UNK>"))
                 0%nat eq_refl).
  - apply (proj2 (proj2 (create_simple_index_list_lookup nat ["a"; "q"]
                           [("a", 0%nat)] None))).
    + reflexivity.
    + apply Exists_cons_tl, Exists_cons_hd. reflexivity.
Defined.

(** ** Configuration errors *)

(** C10: [create_vocab] raises the configuration error whenever every type
    of the frequency table is in the exclusion list, so that the filtered
    table is empty, and [create_windowed_index_list] raises one whenever
    [window_size] is 0. *)
Theorem configuration_errors :
  (forall (c : Corpus) (vocab_size_arg : option Z)
          (include_list exclude_list : list token) (include_unknown : bool),
      (forall k, In k (dict_keys (type_freq_dict c)) -> In k exclude_list) ->
      snd (create_vocab vocab_size_arg include_list exclude_list
                        include_unknown c)
      = Raise no_words_error)
  /\ (forall (A : Type) (index_list : list A) (direction : string)
             (pad_index : A),
         create_windowed_index_list index_list 0 direction pad_index
         = Raise (ValueError
                    "Window size cannot be 0, must be None or positive integer")).
Proof.
  split; [|reflexivity].
  intros c vs inc exc unk H. unfold create_vocab.
  set (filtered := fold_left (fun d tok => dict_pop tok d) exc (type_freq_dict c)).
  assert (E : filtered = []).
  { destruct filtered as [|[k v] rest] eqn:F; [reflexivity|]. exfalso.
    assert (I : In k (dict_keys filtered)) by (rewrite F; now left).
    apply pop_all_keys in I as [I N]. auto. }
  rewrite E. reflexivity.
Qed.

Lemma configuration_errors_witness :
  snd (create_vocab None [] ["a"; "b"] true
         (add_document [["a"; "b"; "a"]] None None Corpus_init))
  = Raise no_words_error.
Proof.
  apply (proj1 configuration_errors). vm_compute. intuition.
Defined.

(** ** Aggregator *)

(** [add_document] re-derives [type_list] from the frequency table and adds
    the document's own count of types to [num_types]. *)
Lemma add_document_counters (s : list (list token)) (n : option string)
    (i : option (dict string)) (c : Corpus) :
  type_list (add_document s n i c)
  = dict_keys (type_freq_dict (add_document s n i c))
  /\ num_types (add_document s n i c)
     = (num_types c + length (Counter_of (List.concat s)))%nat.
Proof. split; reflexivity. Qed.

Lemma filter_wf {V} (f : token * V -> bool) (d : dict V) :
  dict_wf d -> dict_wf (filter f d).
Proof.
  unfold dict_wf, dict_keys. induction d as [|kv d IH]; simpl; [auto|].
  intros W. inversion W as [|? ? N W']; subst.
  destruct (f kv); simpl; [|auto].
  constructor; [|auto]. intros H. apply N.
  apply in_map_iff in H as [kv' [E H]]. apply filter_In in H as [H _].
  rewrite <- E. now apply in_map.
Qed.

Lemma dict_set_keys {V} (k : token) (v : V) (d : dict V) :
  dict_keys (dict_set k v d)
  = if dict_mem k d then dict_keys d else dict_keys d ++ [k].
Proof.
  unfold dict_mem. induction d as [|[k' v'] d IH]; simpl; [reflexivity|].
  destruct (String.eqb_spec k k') as [->|N]; simpl; [reflexivity|].
  rewrite IH. now destruct (dict_get k d).
Qed.

Lemma dict_set_wf {V} (k : token) (v : V) (d : dict V) :
  dict_wf d -> dict_wf (dict_set k v d).
Proof.
  unfold dict_wf. rewrite dict_set_keys. intros W.
  destruct (dict_mem k d) eqn:M; [exact W|].
  apply dict_mem_false in M.
  apply (Permutation_NoDup (Permutation_cons_append (dict_keys d) k)).
  now constructor.
Qed.

Lemma Counter_iadd_wf (self other : Counter) :
  dict_wf self -> dict_wf (Counter_iadd self other).
Proof.
  intros W. unfold Counter_iadd, keep_positive. apply filter_wf.
  revert self W. induction other as [|kv other IH]; intros self W; simpl;
    [exact W|].
  apply IH, dict_set_wf, W.
Qed.

(** The frequency table of a corpus has distinct keys, [type_list] lists
    them, and [num_types] is the sum of the type counts of the documents. *)
Lemma reachable_invariant (c : Corpus) :
  reachable c ->
  dict_wf (type_freq_dict c)
  /\ type_list c = dict_keys (type_freq_dict c)
  /\ num_types c = list_sum (map document.num_types (document_list c)).
Proof.
  induction 1 as [|c s n i R [W [T N]]|c vs inc exc unk R [W [T N]]].
  - repeat split. constructor.
  - split; [|split].
    + now apply Counter_iadd_wf.
    + reflexivity.
    + unfold add_document. cbn [num_types document_list].
      rewrite map_app, list_sum_app, N. simpl. lia.
  - unfold create_vocab. destruct (len _ =? 0); destruct unk; cbn; auto.
Qed.

(** C3 fails on the code: after two documents that share the type "a" the
    counter [num_types] is 2 while the frequency table, and [type_list], have
    one key. *)
Theorem add_document_num_types_drift :
  let c := add_document [["a"]] None None
             (add_document [["a"]] None None Corpus_init) in
  num_types c = 2%nat
  /\ type_freq_dict c = [("a", 2)]
  /\ length (dict_keys (type_freq_dict c)) = 1%nat
  /\ length (type_list c) = 1%nat.
Proof. repeat split. Qed.

(** ** Sequence chunker *)

Lemma py_slice_inside {A} (l : list A) (i j : Z) :
  0 <= i -> i <= j -> j <= len l ->
  py_slice l i j = firstn (Z.to_nat (j - i)) (skipn (Z.to_nat i) l).
Proof.
  intros Hi Hij Hj. unfold py_slice, slice_bound.
  destruct (Z.ltb_spec i 0); [lia|]. destruct (Z.ltb_spec j 0); [lia|].
  now rewrite !Z.min_l by lia.
Qed.

Lemma py_slice_but_last {A} (l : list A) : py_slice l 0 (-1) = removelast l.
Proof.
  unfold py_slice, slice_bound, len. change (0 <? 0) with false.
  change (-1 <? 0) with true. cbv iota. rewrite removelast_firstn_len.
  rewrite Z.min_l by lia. simpl skipn. f_equal. lia.
Qed.

Lemma py_slice_from_1 {A} (l : list A) : py_slice l 1 (len l) = tl l.
Proof.
  unfold py_slice, slice_bound, len. change (1 <? 0) with false. cbv iota.
  destruct (Z.ltb_spec (Z.of_nat (length l)) 0); [lia|].
  destruct l as [|x l]; [reflexivity|].
  simpl length. rewrite Z.min_id, Z.min_l by lia.
  change (Z.to_nat 1) with 1%nat. cbn [skipn tl].
  apply firstn_all2. lia.
Qed.

Lemma fold_left_collect {A X} (c : X -> bool) (f : X -> A) (xs : list X)
    (acc : list A) :
  fold_left (fun acc x => if c x then acc ++ [f x] else acc) xs acc
  = acc ++ map f (filter c xs).
Proof.
  revert acc. induction xs as [|x xs IH]; intros acc; simpl.
  - now rewrite app_nil_r.
  - rewrite IH. destruct (c x); simpl; [now rewrite <- app_assoc | reflexivity].
Qed.

Lemma filter_seq_below (c : nat -> bool) (m k : nat) :
  (forall i, c i = true <-> (i < m)%nat) ->
  filter c (seq 0 k) = seq 0 (Nat.min m k).
Proof.
  intros H. induction k as [|k IH]; [now rewrite Nat.min_0_r|].
  rewrite seq_S, filter_app, IH. simpl.
  destruct (c k) eqn:E.
  - apply H in E. rewrite !Nat.min_r by lia. now rewrite seq_S.
  - assert (~ (k < m)%nat) by (rewrite <- H; congruence).
    rewrite app_nil_r. f_equal. lia.
Qed.

Lemma filter_map_commute {X Y} (c : Y -> bool) (g : X -> Y) (l : list X) :
  filter c (map g l) = map g (filter (fun x => c (g x)) l).
Proof.
  induction l as [|x l IH]; simpl; [reflexivity|].
  rewrite IH. now destruct (c (g x)).
Qed.

(** The windows that the loop of [create_sequence_lists] collects. *)
Lemma create_sequence_lists_windows {A} (index_list : list A) (L : Z) (pad : A) :
  0 <= L -> L <> 2 ->
  create_sequence_lists index_list L pad
  = map (fun i => firstn (Z.to_nat L)
                    (skipn i (repeat pad (Z.to_nat (L - 2)) ++ index_list)))
        (seq 0 (length (repeat pad (Z.to_nat (L - 2)) ++ index_list) + 1
                - Z.to_nat L)).
Proof.
  intros HL N2. unfold create_sequence_lists, py_repeat.
  destruct (Z.eqb_spec L 2) as [|_]; [contradiction|].
  set (padded := repeat pad (Z.to_nat (L - 2)) ++ index_list).
  set (n := length padded).
  replace (len padded + 1) with (Z.of_nat (S n)) by (unfold len, n; lia).
  rewrite range_0.
  rewrite (fold_left_collect (fun i => i + L <=? len padded)
             (fun i => py_slice padded i (i + L))).
  rewrite app_nil_l, filter_map_commute, map_map.
  rewrite (filter_seq_below _ (n + 1 - Z.to_nat L)).
  2:{ intros i. unfold len. fold n. rewrite Z.leb_le. lia. }
  replace (Nat.min (n + 1 - Z.to_nat L) (S n)) with (n + 1 - Z.to_nat L)%nat by lia.
  apply map_ext_in. intros i Hi. apply in_seq in Hi.
  rewrite py_slice_inside by (unfold len; fold n; lia).
  rewrite Nat2Z.id. f_equal. lia.
Qed.

(** C9: with chunk length 2 there is one single-element chunk per index;
    with a chunk length [L >= 1] other than 2 the list is left-padded with
    [L - 2] pad indices and the chunks are the stride-1 windows of size [L]
    that fit into the padded list, each of which ends in an element of the
    original index list: the [k]-th chunk ends at the original position
    [k + 1] (at [k] when [L = 1], where nothing is padded). *)
Theorem create_sequence_lists_chunks :
  forall (A : Type) (index_list : list A) (L : Z) (pad_index : A),
    create_sequence_lists index_list 2 pad_index
    = map (fun index => [index]) index_list
    /\ create_sequence_lists [1; 2; 3] 2 0 = [[1]; [2]; [3]]
    /\ create_sequence_lists [1; 2; 3] 3 0 = [[0; 1; 2]; [1; 2; 3]]
    /\ (1 <= L -> L <> 2 ->
        let padded_list := repeat pad_index (Z.to_nat (L - 2)) ++ index_list in
        create_sequence_lists index_list L pad_index
        = map (fun i => firstn (Z.to_nat L) (skipn i padded_list))
              (seq 0 (length padded_list + 1 - Z.to_nat L))
        /\ forall k chunk,
             nth_error (create_sequence_lists index_list L pad_index) k
             = Some chunk ->
             length chunk = Z.to_nat L
             /\ exists front x,
                  chunk = front ++ [x]
                  /\ nth_error index_list (k + (if L =? 1 then 0 else 1))
                     = Some x).
Proof.
  intros A index_list L pad. split; [reflexivity|].
  split; [reflexivity|]. split; [reflexivity|].
  intros HL N2 padded.
  rewrite create_sequence_lists_windows by lia. fold padded.
  split; [reflexivity|].
  intros k chunk Hk.
  rewrite nth_error_map, nth_error_seq in Hk.
  destruct (Nat.ltb_spec k (length padded + 1 - Z.to_nat L)) as [Hlt|];
    [|discriminate].
  simpl in Hk. injection Hk as <-.
  set (chunk := firstn (Z.to_nat L) (skipn k padded)).
  assert (Hlen : length chunk = Z.to_nat L).
  { unfold chunk. rewrite length_firstn, length_skipn. lia. }
  split; [exact Hlen|].
  assert (Hne : chunk <> []).
  { intros E. rewrite E in Hlen. simpl in Hlen. lia. }
  destruct (nth_error chunk (Z.to_nat L - 1)) as [x|] eqn:Hx.
  2:{ apply nth_error_None in Hx. lia. }
  exists (removelast chunk), x. split.
  - rewrite (app_removelast_last x Hne) at 1. do 2 f_equal.
    rewrite (app_removelast_last x Hne) in Hx.
    rewrite nth_error_app2 in Hx.
    2:{ rewrite removelast_firstn_len, length_firstn. lia. }
    replace (Z.to_nat L - 1 - length (removelast chunk))%nat with 0%nat in Hx.
    2:{ rewrite removelast_firstn_len, length_firstn. lia. }
    simpl in Hx. congruence.
  - unfold chunk in Hx. rewrite nth_error_firstn, nth_error_skipn in Hx.
    destruct (Nat.ltb_spec (Z.to_nat L - 1) (Z.to_nat L)); [|lia].
    unfold padded in Hx. rewrite nth_error_app2 in Hx
      by (rewrite repeat_length; lia).
    rewrite repeat_length in Hx. rewrite <- Hx. f_equal.
    destruct (Z.eqb_spec L 1); lia.
Qed.

Lemma create_sequence_lists_chunks_witness :
  create_sequence_lists [1; 2; 3; 4] 4 0 = [[0; 0; 1; 2]; [0; 1; 2; 3]; [1; 2; 3; 4]]
  /\ forall k chunk,
       nth_error (create_sequence_lists [1; 2; 3; 4] 4 0) k = Some chunk ->
       length chunk = 4%nat
       /\ exists front x,
            chunk = front ++ [x] /\ nth_error [1; 2; 3; 4] (k + 1) = Some x.
Proof.
  assert (H1 : 1 <= 4) by lia.
  assert (H2 : 4 <> 2) by lia.
  destruct (proj2 (proj2 (proj2
              (create_sequence_lists_chunks Z [1; 2; 3; 4] 4 0))) H1 H2)
    as [E F].
  split; [exact E | exact F].
Defined.

(** ** Batcher *)

Lemma firstn_snoc {A} (l : list A) (k : nat) (x : A) :
  nth_error l k = Some x -> firstn (S k) l = firstn k l ++ [x].
Proof.
  revert k. induction l as [|a l IH]; intros [|k] H; simpl in H; try discriminate.
  - now injection H as ->.
  - simpl. f_equal. now apply IH.
Qed.

Lemma nth_error_tl {A} (l : list A) (k : nat) :
  nth_error (tl l) k = nth_error l (S k).
Proof. destruct l; [now destruct k | reflexivity]. Qed.

Lemma concat_snoc {A} (ls : list (list A)) (l : list A) :
  List.concat (ls ++ [l]) = List.concat ls ++ l.
Proof. rewrite concat_app. simpl. now rewrite app_nil_r. Qed.

Lemma length_concat_uniform {A} (bs : Z) (ls : list (list A)) :
  Forall (fun b => len b = bs) ls ->
  len (List.concat ls) = len ls * bs.
Proof.
  unfold len. induction 1 as [|b ls Hb _ IH]; [reflexivity|].
  cbn [List.concat length]. rewrite length_app, Nat2Z.inj_add, Nat2Z.inj_succ.
  rewrite IH, Hb. ring.
Qed.

Lemma prefix_firstn {A} (xs c l : list A) (k : nat) :
  xs ++ c = firstn k l -> xs = firstn (length xs) l.
Proof.
  intros H.
  assert (Hk : (length xs <= k)%nat).
  { apply (f_equal (@length A)) in H.
    rewrite length_app, length_firstn in H. lia. }
  replace (length xs) with (Nat.min (length xs) k) at 1 by lia.
  rewrite <- firstn_firstn, <- H, firstn_app, firstn_all, Nat.sub_diag.
  simpl. now rewrite app_nil_r.
Qed.

Lemma flat_step_inv {E} (l : list E) (bs : Z) (k : nat) (b : Batches E) :
  FlatInv l bs k b -> (S k < length l)%nat ->
  exists b', flat_step l bs (Z.of_nat k) b = Ok b' /\ FlatInv l bs (S k) b'.
Proof.
  intros I Hk.
  destruct (nth_error l k) as [x|] eqn:Hx;
    [|apply nth_error_None in Hx; lia].
  destruct (nth_error l (S k)) as [y|] eqn:Hy;
    [|apply nth_error_None in Hy; lia].
  unfold flat_step.
  rewrite (py_getitem_nth l k x Hx).
  replace (Z.of_nat k + 1) with (Z.of_nat (S k)) by lia.
  rewrite (py_getitem_nth l (S k) y Hy). cbn [bind].
  assert (Fx : firstn (S k) l = firstn k l ++ [x]) by now apply firstn_snoc.
  assert (Fy : firstn (S k) (tl l) = firstn k (tl l) ++ [y])
    by (apply firstn_snoc; now rewrite nth_error_tl).
  destruct I as [Ix Iy Iw Ifx Ify Ic Icur Iopen Inone].
  unfold append_rows. cbn [current_batch_x current_batch_y x_batches y_batches
                           y_window_batches].
  destruct (Z.eqb_spec (len (current_batch_x b ++ [x])) bs) as [Efull|Nfull];
    eexists; (split; [reflexivity|]); constructor;
    cbn [current_batch_x current_batch_y x_batches y_batches y_window_batches
         current_batch_y_window].
  - rewrite concat_snoc, app_nil_r, app_assoc, Ix. now symmetry.
  - rewrite concat_snoc, app_nil_r, app_assoc, Iy. now symmetry.
  - now rewrite Iw.
  - apply Forall_app. split; [assumption|]. now repeat constructor.
  - apply Forall_app. split; [assumption|]. repeat constructor.
    rewrite <- Efull. unfold len. rewrite !length_app. simpl. lia.
  - rewrite !length_app. simpl. lia.
  - reflexivity.
  - intros. unfold len. simpl. lia.
  - intros. exfalso. unfold len in Efull. rewrite length_app in Efull.
    simpl in Efull. lia.
  - rewrite app_assoc, Ix. now symmetry.
  - rewrite app_assoc, Iy. now symmetry.
  - assumption.
  - assumption.
  - assumption.
  - assumption.
  - rewrite !length_app. simpl. lia.
  - intros H1. specialize (Iopen H1). unfold len in *.
    rewrite length_app in *. simpl in *. lia.
  - assumption.
Qed.

Lemma flat_loop_inv {E} (l : list E) (bs : Z) (k : nat) :
  (k <= length l - 1)%nat ->
  exists b,
    for_each (map Z.of_nat (seq 0 k)) (flat_step l bs) no_batches = Ok b
    /\ FlatInv l bs k b.
Proof.
  induction k as [|k IH]; intros Hk.
  - exists no_batches. split; [reflexivity|].
    constructor; simpl; auto; unfold len; simpl; intros; lia.
  - destruct IH as [b [R I]]; [lia|].
    destruct (flat_step_inv l bs k b I) as [b' [R' I']]; [lia|].
    exists b'. split; [|exact I'].
    rewrite seq_S, map_app, for_each_app, R. simpl. now rewrite R'.
Qed.

(** The branch [sequence_length == 1] on any list, whatever its elements
    are: the batches are full, hold the consecutive pairs of the list from
    its start, and the pairs after the last full batch are dropped. *)
Lemma create_batches_flat_full {E} (l : list E) (bs : Z) :
  exists xb yb,
    create_batches_flat l bs = Ok (xb, yb, yb)
    /\ Forall (fun b => len b = bs) xb
    /\ Forall (fun b => len b = bs) yb
    /\ length xb = length yb
    /\ len xb = (if bs <=? 0 then 0 else Z.of_nat (length l - 1) / bs)
    /\ List.concat xb = firstn (length (List.concat xb)) l
    /\ List.concat yb = firstn (length (List.concat xb)) (tl l).
Proof.
  destruct (flat_loop_inv l bs (length l - 1) (Nat.le_refl _)) as [b [R I]].
  exists (x_batches b), (y_batches b).
  unfold create_batches_flat.
  rewrite range_pairs, R. cbn [bind].
  destruct I as [Ix Iy Iw Ifx Ify Ic Icur Iopen Inone].
  rewrite Iw.
  assert (Lx := length_concat_uniform bs _ Ifx).
  assert (Ly := length_concat_uniform bs _ Ify).
  assert (Tx : (length (List.concat (x_batches b))
                + length (current_batch_x b) = length l - 1)%nat).
  { rewrite <- length_app, Ix, length_firstn. lia. }
  assert (Cxy : length (List.concat (x_batches b))
                = length (List.concat (y_batches b))).
  { unfold len in Lx, Ly. nia. }
  repeat split; try assumption.
  - destruct (Z.leb_spec bs 0) as [Hb|Hb].
    + rewrite (Inone Hb). reflexivity.
    + unfold len in *. specialize (Iopen ltac:(lia)).
      apply (Z.div_unique_pos _ _ _ (Z.of_nat (length (current_batch_x b))));
        lia.
  - eapply prefix_firstn. exact Ix.
  - rewrite Cxy. eapply prefix_firstn. exact Iy.
Qed.

(** C8: when [sequence_length == 1], [create_batches] pairs every element
    with its successor, in order from the start of the list, in batches of
    exactly [batch_size]; the pairs after the last full batch are dropped,
    nothing is padded, and [y_window_batches] is [y_batches]. With a
    [batch_size] that is not positive no batch is ever full and nothing is
    returned. The branch does not look inside the elements, so this holds of
    a flat stream as of a list of rows. *)
Theorem create_batches_degenerate :
  (forall (E : Type) (tokens : list E) (batch_size : Z),
      exists xb yb,
        create_batches_flat tokens batch_size = Ok (xb, yb, yb)
        /\ Forall (fun b => len b = batch_size) xb
        /\ Forall (fun b => len b = batch_size) yb
        /\ length xb = length yb
        /\ len xb = (if batch_size <=? 0 then 0
                     else Z.of_nat (length tokens - 1) / batch_size)
        /\ List.concat xb = firstn (length (List.concat xb)) tokens
        /\ List.concat yb = firstn (length (List.concat xb)) (tl tokens))
  /\ (forall (A : Type) (sequence_list : list (list A)) (batch_size : Z)
             (pad_index : A),
         create_batches sequence_list batch_size 1 pad_index
         = create_batches_flat sequence_list batch_size).
Proof.
  split; [|reflexivity]. intros. apply create_batches_flat_full.
Qed.

Lemma py_getitem_last_of {A} (c : list A) (d : A) :
  c <> [] -> py_getitem c (-1) = Ok (last c d).
Proof.
  intros H. rewrite (app_removelast_last d H) at 1. apply py_getitem_last.
Qed.

Lemma row_step_inv {A} (bs : Z) (d : A) (done : list (list A))
    (c : list A) (b : Batches (list A)) :
  1 <= bs -> c <> [] -> RowInv bs d done b ->
  exists b', row_step bs c b = Ok b' /\ RowInv bs d (done ++ [c]) b'.
Proof.
  intros Hbs Hc I. unfold row_step.
  rewrite (py_getitem_last_of c d Hc). cbn [bind].
  rewrite py_slice_but_last, py_slice_from_1.
  destruct I as [Ix Iy Iw Ifx Ify Ifw Icy Icw Iry Irw Iopen].
  unfold append_rows, close_batch.
  cbn [current_batch_x current_batch_y current_batch_y_window x_batches
       y_batches y_window_batches].
  destruct (Z.eqb_spec (len (current_batch_x b ++ [removelast c])) bs)
    as [Efull|Nfull];
    eexists; (split; [reflexivity|]); constructor;
    cbn [current_batch_x current_batch_y current_batch_y_window x_batches
         y_batches y_window_batches];
    rewrite ?map_app; cbn [map];
    rewrite ?concat_snoc, ?app_nil_r, ?app_assoc, ?Ix, ?Iy, ?Iw;
    try reflexivity; try assumption;
    try (apply Forall_app; split; [assumption|]; repeat constructor);
    unfold len in *; rewrite ?length_app in *; simpl length in *; try lia.
Qed.

Lemma row_loop_inv {A} (bs : Z) (d : A) (chunks done : list (list A))
    (b : Batches (list A)) :
  1 <= bs -> Forall (fun c => c <> []) chunks -> RowInv bs d done b ->
  exists b',
    for_each chunks (row_step bs) b = Ok b'
    /\ RowInv bs d (done ++ chunks) b'.
Proof.
  intros Hbs H. revert done b.
  induction H as [|c chunks Hc _ IH]; intros done b I.
  - exists b. rewrite app_nil_r. now split.
  - destruct (row_step_inv bs d done c b Hbs Hc I) as [b1 [R1 I1]].
    destruct (IH _ _ I1) as [b' [R' I']].
    exists b'. cbn [for_each]. rewrite R1. cbn [bind].
    split; [exact R'|]. now rewrite <- app_assoc in I'.
Qed.

(** The padding loop appends the rows that are missing, and its fuel covers
    them. *)
Lemma pad_batch_rows {A} (fuel : nat) (bs L : Z) (pad : A)
    (b : Batches (list A)) :
  (Z.to_nat (bs - len (current_batch_x b)) <= fuel)%nat ->
  let p := Z.to_nat (bs - len (current_batch_x b)) in
  pad_batch fuel bs L pad b
  = mkBatches (x_batches b) (y_batches b) (y_window_batches b)
              (current_batch_x b ++ repeat (py_repeat pad L) p)
              (current_batch_y b ++ repeat [pad] p)
              (current_batch_y_window b ++ repeat (py_repeat pad L) p).
Proof.
  revert b. induction fuel as [|fuel IH]; intros b Hf p; subst p.
  - replace (Z.to_nat (bs - len (current_batch_x b))) with 0%nat by lia.
    simpl. rewrite !app_nil_r. now destruct b.
  - cbn [pad_batch]. destruct (Z.ltb_spec (len (current_batch_x b)) bs) as [Hlt|Hge].
    + rewrite IH; unfold append_rows;
        cbn [current_batch_x current_batch_y current_batch_y_window x_batches
             y_batches y_window_batches].
      2:{ unfold len in *. rewrite length_app. simpl length. lia. }
      replace (Z.to_nat (bs - len (current_batch_x b)))
        with (S (Z.to_nat (bs - len (current_batch_x b
                                      ++ [py_repeat pad L]))))
        by (unfold len; rewrite length_app; simpl length; unfold len in Hlt; lia).
      cbn [repeat]. now rewrite <- !app_assoc.
    + replace (Z.to_nat (bs - len (current_batch_x b))) with 0%nat by lia.
      simpl. rewrite !app_nil_r. now destruct b.
Qed.

Lemma Forall_repeat {A} (P : A -> Prop) (x : A) (n : nat) :
  P x -> Forall P (repeat x n).
Proof. intros H. induction n; simpl; auto. Qed.

(** C7: with [sequence_length > 1], a positive [batch_size] and chunks of
    length [sequence_length + 1], [create_batches] turns every chunk into the
    rows [x] = the chunk without its last element, [y] = the singleton of its
    last element and [y_window] = the chunk without its first element, in
    order, followed by fewer than [batch_size] fabricated rows (all-pad rows
    of length [sequence_length] for [x] and [y_window], a singleton pad for
    [y]) that complete the last batch; the three lists have the same number
    of batches, every batch has exactly [batch_size] rows and all rows of a
    list have the same length. *)
Theorem create_batches_general :
  forall (A : Type) (sequence_list : list (list A))
         (batch_size sequence_length : Z) (pad_index : A),
    1 < sequence_length ->
    1 <= batch_size ->
    Forall (fun c => len c = sequence_length + 1) sequence_list ->
    exists xb yb ywb p,
      create_batches sequence_list batch_size sequence_length pad_index
      = Ok (xb, yb, ywb)
      /\ List.concat xb
         = map (@removelast A) sequence_list
           ++ repeat (repeat pad_index (Z.to_nat sequence_length)) p
      /\ List.concat yb
         = map (fun c => [last c pad_index]) sequence_list
           ++ repeat [pad_index] p
      /\ List.concat ywb
         = map (@tl A) sequence_list
           ++ repeat (repeat pad_index (Z.to_nat sequence_length)) p
      /\ Z.of_nat p < batch_size
      /\ length xb = length yb
      /\ length yb = length ywb
      /\ Forall (fun b => len b = batch_size) xb
      /\ Forall (fun b => len b = batch_size) yb
      /\ Forall (fun b => len b = batch_size) ywb
      /\ Forall (Forall (fun r => len r = sequence_length)) xb
      /\ Forall (Forall (fun r => len r = 1)) yb
      /\ Forall (Forall (fun r => len r = sequence_length)) ywb.
Proof.
  intros A chunks bs L pad HL Hbs Hchunks.
  assert (Hne : Forall (fun c : list A => c <> []) chunks).
  { eapply Forall_impl; [|exact Hchunks]. intros c Hc E. subst c.
    unfold len in Hc. simpl in Hc. lia. }
  assert (I0 : RowInv bs pad [] (@no_batches (list A))).
  { constructor; simpl; auto. unfold len. simpl. lia. }
  destruct (row_loop_inv bs pad chunks [] no_batches Hbs Hne I0) as [b [R I]].
  simpl app in I.
  assert (final :
    exists xb yb ywb p,
      create_batches chunks bs L pad = Ok (xb, yb, ywb)
      /\ List.concat xb = map (@removelast A) chunks
                          ++ repeat (repeat pad (Z.to_nat L)) p
      /\ List.concat yb = map (fun c => [last c pad]) chunks ++ repeat [pad] p
      /\ List.concat ywb = map (@tl A) chunks
                           ++ repeat (repeat pad (Z.to_nat L)) p
      /\ Z.of_nat p < bs
      /\ length xb = length yb
      /\ length yb = length ywb
      /\ Forall (fun b => len b = bs) xb
      /\ Forall (fun b => len b = bs) yb
      /\ Forall (fun b => len b = bs) ywb).
  { unfold create_batches.
    destruct (Z.eqb_spec L 1) as [|_]; [lia|].
    rewrite R. cbn [bind].
    destruct I as [Ix Iy Iw Ifx Ify Ifw Icy Icw Iry Irw Iopen].
    destruct (current_batch_x b) as [|r cur] eqn:Ecur.
    - exists (x_batches b), (y_batches b), (y_window_batches b), 0%nat.
      destruct (current_batch_y b); [|discriminate].
      destruct (current_batch_y_window b); [|discriminate].
      rewrite !app_nil_r in *.
      repeat split; auto; lia.
    - rewrite pad_batch_rows by (unfold len; lia). rewrite Ecur.
      unfold close_batch.
      cbn [current_batch_x current_batch_y current_batch_y_window x_batches
           y_batches y_window_batches].
      set (p := Z.to_nat (bs - len (r :: cur))).
      assert (Hp : Z.of_nat p + len (r :: cur) = bs) by (unfold p; lia).
      exists (x_batches b ++ [(r :: cur) ++ repeat (py_repeat pad L) p]),
             (y_batches b ++ [current_batch_y b ++ repeat [pad] p]),
             (y_window_batches b
              ++ [current_batch_y_window b ++ repeat (py_repeat pad L) p]),
             p.
      rewrite !concat_snoc, !app_assoc, Ix, Iy, Iw. unfold py_repeat.
      repeat split; auto.
      + unfold len in Hp. simpl length in Hp. lia.
      + rewrite !length_app. simpl. lia.
      + rewrite !length_app. simpl. lia.
      + apply Forall_app. split; [assumption|]. repeat constructor.
        unfold len in *. rewrite length_app, repeat_length. lia.
      + apply Forall_app. split; [assumption|]. repeat constructor.
        unfold len in *. rewrite length_app, repeat_length. lia.
      + apply Forall_app. split; [assumption|]. repeat constructor.
        unfold len in *. rewrite length_app, repeat_length. lia. }
  destruct final as [xb [yb [ywb [p [R' [Cx [Cy [Cw [Hp [Lxy [Lyw [Fx [Fy Fw]]]]]]]]]]]]].
  exists xb, yb, ywb, p.
  repeat split; try assumption.
  - apply Forall_concat. rewrite Cx. apply Forall_app. split.
    + apply Forall_map. eapply Forall_impl; [|exact Hchunks].
      intros c Hc. unfold len in *.
      rewrite removelast_firstn_len, length_firstn. lia.
    + apply Forall_repeat. unfold len. rewrite repeat_length. lia.
  - apply Forall_concat. rewrite Cy. apply Forall_app. split.
    + apply Forall_map. apply Forall_forall. reflexivity.
    + apply Forall_repeat. reflexivity.
  - apply Forall_concat. rewrite Cw. apply Forall_app. split.
    + apply Forall_map. eapply Forall_impl; [|exact Hchunks].
      intros c Hc. unfold len in *. rewrite length_tl. lia.
    + apply Forall_repeat. unfold len. rewrite repeat_length. lia.
Qed.

Lemma create_batches_general_witness :
  exists xb yb ywb p,
    create_batches [[1; 2; 3]; [2; 3; 4]; [3; 4; 5]; [4; 5; 6]; [5; 6; 7]] 3 2 0
    = Ok (xb, yb, ywb)
    /\ List.concat xb
       = [[1; 2]; [2; 3]; [3; 4]; [4; 5]; [5; 6]] ++ repeat [0; 0] p
    /\ Z.of_nat p < 3
    /\ Forall (fun b => len b = 3) xb.
Proof.
  assert (H1 : 1 < 2) by lia.
  assert (H2 : 1 <= 3) by lia.
  assert (H3 : Forall (fun c : list Z => len c = 2 + 1)
                 [[1; 2; 3]; [2; 3; 4]; [3; 4; 5]; [4; 5; 6]; [5; 6; 7]])
    by (repeat constructor).
  destruct (create_batches_general Z _ 3 2 0 H1 H2 H3)
    as [xb [yb [ywb [p [R [Cx [_ [_ [Hp [_ [_ [Fx _]]]]]]]]]]]].
  exists xb, yb, ywb, p. repeat split; assumption.
Defined.

(** ** Vocabulary builder *)

(** *** The unknown token *)

Lemma length_append (s1 s2 : string) :
  String.length (String.append s1 s2)
  = (String.length s1 + String.length s2)%nat.
Proof. induction s1 as [|a s1 IH]; simpl; [reflexivity | now rewrite IH]. Qed.

Lemma length_wrap (t : token) : String.length (wrap t) = (String.length t + 2)%nat.
Proof. unfold wrap. rewrite !length_append. simpl. lia. Qed.

Lemma max_key_length_bound {V} (d : dict V) (k : token) :
  In k (dict_keys d) -> (String.length k <= max_key_length d)%nat.
Proof.
  induction d as [|[k' v] d IH]; simpl; [tauto|].
  intros [->|H]; [lia|]. specialize (IH H). lia.
Qed.

Lemma resolve_unknown_free (fuel : nat) (freq : Counter) (t : token) :
  (max_key_length freq < String.length t + 2 * fuel)%nat ->
  dict_mem (resolve_unknown fuel freq t) freq = false.
Proof.
  revert t. induction fuel as [|fuel IH]; intros t H; simpl.
  - apply dict_mem_false. intros I. apply max_key_length_bound in I. lia.
  - destruct (dict_mem t freq) eqn:M; [|exact M].
    apply IH. rewrite length_wrap. lia.
Qed.

Lemma resolve_unknown_first (fuel : nat) (freq : Counter) (t : token) :
  exists k,
    resolve_unknown fuel freq t = Nat.iter k wrap t
    /\ forall j, (j < k)%nat -> dict_mem (Nat.iter j wrap t) freq = true.
Proof.
  revert t. induction fuel as [|fuel IH]; intros t; simpl.
  - exists 0%nat. split; [reflexivity | intros; lia].
  - destruct (dict_mem t freq) eqn:M.
    + destruct (IH (wrap t)) as [k [E F]]. exists (S k). split.
      * now rewrite Nat.iter_succ_r.
      * intros [|j] Hj; [exact M|]. rewrite Nat.iter_succ_r. apply F. lia.
    + exists 0%nat. split; [reflexivity | intros; lia].
Qed.

(** The loop of [set_unknown_token] ends, and with the first candidate
    among [t], ["<" + t + ">"], ... that is not a type of the corpus. *)
Lemma resolve_unknown_first_free (freq : Counter) (t : token) :
  exists k,
    resolve_unknown (S (max_key_length freq)) freq t = Nat.iter k wrap t
    /\ dict_mem (Nat.iter k wrap t) freq = false
    /\ forall j, (j < k)%nat -> dict_mem (Nat.iter j wrap t) freq = true.
Proof.
  destruct (resolve_unknown_first (S (max_key_length freq)) freq t) as [k [E F]].
  exists k. repeat split; [exact E | | exact F].
  rewrite <- E. apply resolve_unknown_free. lia.
Qed.

(** *** Rebuilding *)

Lemma unknown_token_after_eq (t : token) (c c' : Corpus) :
  type_freq_dict c' = type_freq_dict c ->
  unknown_token c' = unknown_token c ->
  unknown_token_after t c' = unknown_token_after t c.
Proof. intros F U. unfold unknown_token_after. now rewrite F, U. Qed.

(** The vocabulary state and the result of [create_vocab] are read off the
    arguments, the frequency table and the unknown token of the corpus. *)
Lemma create_vocab_reads (vs : option Z) (inc exc : list token) (unk : bool)
    (c c' : Corpus) :
  type_freq_dict c' = type_freq_dict c ->
  unknown_token c' = unknown_token c ->
  vocab_state (fst (create_vocab vs inc exc unk c'))
  = vocab_state (fst (create_vocab vs inc exc unk c))
  /\ snd (create_vocab vs inc exc unk c') = snd (create_vocab vs inc exc unk c).
Proof.
  intros F U. unfold create_vocab.
  rewrite F, (unknown_token_after_eq "<UNK>" c c' F U).
  destruct (len _ =? 0); cbn [fst snd]; (split; [|reflexivity]);
    unfold vocab_state; destruct unk; cbn; rewrite ?U;
    rewrite ?(unknown_token_after_eq "<UNK>" c c' F U); reflexivity.
Qed.

Lemma include_loop_vocab_free (inc : list token) (v v' : Vocab)
    (d : Counter) (m : list token) :
  inc_missing (fold_left include_step inc (mkIncluded v d m))
  = inc_missing (fold_left include_step inc (mkIncluded v' d m)).
Proof.
  revert v v' d m. induction inc as [|t inc IH]; intros v v' d m;
    cbn [fold_left]; [reflexivity|].
  unfold include_step. cbn [inc_filtered inc_vocab inc_missing].
  destruct (dict_mem t d); apply IH.
Qed.

(** What [create_vocab] returns or raises does not depend on what was built
    or resolved before. *)
Lemma create_vocab_result_fresh (vs : option Z) (inc exc : list token)
    (unk : bool) (c : Corpus) :
  snd (create_vocab vs inc exc unk c)
  = snd (create_vocab vs inc exc unk (forget_vocab c)).
Proof.
  unfold create_vocab.
  change (type_freq_dict (forget_vocab c)) with (type_freq_dict c).
  destruct (len _ =? 0); cbn [snd]; [reflexivity|].
  f_equal. apply include_loop_vocab_free.
Qed.

(** Without the unknown token a build makes [vocab_list],
    [vocab_index_dict] and [vocab_size] from the table alone. *)
Lemma create_vocab_no_unknown_fresh (vs : option Z) (inc exc : list token)
    (c : Corpus) :
  vocab (fst (create_vocab vs inc exc false c))
  = vocab (fst (create_vocab vs inc exc false (forget_vocab c))).
Proof.
  unfold create_vocab.
  change (type_freq_dict (forget_vocab c)) with (type_freq_dict c).
  destruct (len _ =? 0); reflexivity.
Qed.

(** C4 fails on the code: [create_vocab] resets [vocab_list],
    [vocab_index_dict] and [vocab_size] but never the unknown token, which
    [set_unknown_token] resolves only while none is set. The vocabulary
    state after a build is read off the arguments, the frequency table and
    the unknown token kept from an earlier build; what the call returns or
    raises is that of a build with nothing built and nothing resolved, and
    so are the three vocabulary attributes when the unknown token is not
    requested; and the whole state is that of such a build on every rebuild
    where no token was resolved before or the kept token is requested and
    still the first of "<UNK>", "<<UNK>>", ... that is no type. At the
    failing input a first build resolves "<UNK>" and a document then brings
    the type "<UNK>": the next build keeps "<UNK>", although it is a type
    now, where a build with nothing resolved takes "<<UNK>>"; the
    vocabularies differ, and the type "<UNK>" and every token outside the
    vocabulary get the same index 0. And a build without the unknown token
    leaves the kept token in place where nothing would be resolved. *)
Theorem create_vocab_rebuild_stale_unknown :
  (forall (c : Corpus) (vocab_size_arg : option Z)
          (include_list exclude_list : list token) (include_unknown : bool),
      let r := create_vocab vocab_size_arg include_list exclude_list
                            include_unknown c in
      let fresh := create_vocab vocab_size_arg include_list exclude_list
                                include_unknown (forget_vocab c) in
      (forall c',
          type_freq_dict c' = type_freq_dict c ->
          unknown_token c' = unknown_token c ->
          vocab_state (fst (create_vocab vocab_size_arg include_list
                                         exclude_list include_unknown c'))
          = vocab_state (fst r)
          /\ snd (create_vocab vocab_size_arg include_list exclude_list
                               include_unknown c')
             = snd r)
      /\ snd r = snd fresh
      /\ (include_unknown = false -> vocab (fst r) = vocab (fst fresh))
      /\ (unknown_token c = None
          \/ (include_unknown = true
              /\ unknown_token c = Some (first_free_unknown c)) ->
          vocab_state (fst r) = vocab_state (fst fresh)))
  /\ (let c := add_document [["<UNK>"]] None None
                 (fst (create_vocab None [] [] true
                         (add_document [["a"]] None None Corpus_init))) in
      unknown_token c = Some "<UNK>"
      /\ In "<UNK>" (type_list c)
      /\ first_free_unknown c = "<<UNK>>"
      /\ vocab_state (fst (create_vocab None [] [] true c))
         = (Some (mkVocab ["<UNK>"; "a"] [("<UNK>", 0%nat); ("a", 1%nat)] 2),
            Some "<UNK>")
      /\ vocab_state (fst (create_vocab None [] [] true (forget_vocab c)))
         = (Some (mkVocab ["<<UNK>>"; "<UNK>"; "a"]
                          [("<<UNK>>", 0%nat); ("<UNK>", 1%nat); ("a", 2%nat)]
                          3),
            Some "<<UNK>>")
      /\ create_simple_index_list ["<UNK>"; "zzz"; "a"]
           [("<UNK>", 0%nat); ("a", 1%nat)] (Some "<UNK>")
         = Ok [0; 0; 1]%nat
      /\ unknown_token (fst (create_vocab None [] [] false c)) = Some "<UNK>"
      /\ unknown_token (fst (create_vocab None [] [] false (forget_vocab c)))
         = None).
Proof.
  split.
  - intros c vs inc exc unk r fresh. subst r fresh.
    split; [|split; [|split]].
    + intros c' F U. now apply create_vocab_reads.
    + apply create_vocab_result_fresh.
    + intros ->. apply create_vocab_no_unknown_fresh.
    + intros [U|[-> U]].
      * symmetry. now apply create_vocab_reads.
      * unfold create_vocab, vocab_state, set_unknown_token.
        change (type_freq_dict (forget_vocab c)) with (type_freq_dict c).
        assert (E : unknown_token_after "<UNK>" c
                    = unknown_token_after "<UNK>" (forget_vocab c)).
        { unfold unknown_token_after at 1. now rewrite U. }
        rewrite <- E.
        destruct (len _ =? 0);
          cbn [fst vocab unknown_token set_vocab set_unknown]; reflexivity.
  - cbv zeta. split; [reflexivity|]. split; [vm_compute; auto|].
    repeat split; reflexivity.
Qed.

Lemma create_vocab_rebuild_stale_unknown_witness :
  let c := add_document [["c"; "b"]] None None
             (fst (create_vocab None [] [] true
                     (add_document [["b"; "a"; "b"]] None None Corpus_init))) in
  unknown_token c = Some "<UNK>"
  /\ vocab_state (fst (create_vocab (Some 3) ["c"] ["a"] true c))
     = vocab_state (fst (create_vocab (Some 3) ["c"] ["a"] true
                           (forget_vocab c)))
  /\ vocab_state (fst (create_vocab (Some 3) ["c"] ["a"] true c))
     = (Some (mkVocab ["<UNK>"; "c"; "b"]
                      [("<UNK>", 0%nat); ("c", 1%nat); ("b", 2%nat)] 3),
        Some "<UNK>").
Proof.
  intros c. split; [reflexivity|]. split; [|reflexivity].
  apply (proj1 create_vocab_rebuild_stale_unknown c (Some 3) ["c"] ["a"] true).
  right. split; reflexivity.
Defined.

(** *** The vocabulary invariant *)

Lemma combine_fst {X Y} (l : list X) (l' : list Y) :
  length l = length l' -> map fst (combine l l') = l.
Proof.
  revert l'. induction l as [|x l IH]; intros [|y l'] H; simpl in *;
    try discriminate; [reflexivity|]. f_equal. apply IH. lia.
Qed.

Lemma combine_snd {X Y} (l : list X) (l' : list Y) :
  length l = length l' -> map snd (combine l l') = l'.
Proof.
  revert l'. induction l as [|x l IH]; intros [|y l'] H; simpl in *;
    try discriminate; [reflexivity|]. f_equal. apply IH. lia.
Qed.

Lemma combine_snoc {X Y} (l : list X) (l' : list Y) (x : X) (y : Y) :
  length l = length l' ->
  combine (l ++ [x]) (l' ++ [y]) = combine l l' ++ [(x, y)].
Proof.
  revert l'. induction l as [|a l IH]; intros [|b l'] H; simpl in *;
    try discriminate; [reflexivity|]. f_equal. apply IH. lia.
Qed.

Lemma vocab_wf_keys (v : Vocab) :
  vocab_wf v -> dict_keys (vocab_index_dict v) = vocab_list v.
Proof.
  intros [_ I _]. rewrite I. apply combine_fst. now rewrite length_seq.
Qed.

Lemma vocab_wf_indices (v : Vocab) :
  vocab_wf v -> map snd (vocab_index_dict v) = seq 0 (vocab_size v).
Proof.
  intros [S I _]. rewrite I, S. apply combine_snd. now rewrite length_seq.
Qed.

Lemma vocab_wf_empty : vocab_wf (mkVocab [] [] 0).
Proof. constructor; simpl; [reflexivity | reflexivity | constructor]. Qed.

Lemma add_token_to_vocab_wf (t : token) (v : Vocab) :
  vocab_wf v -> dict_mem t (vocab_index_dict v) = false ->
  vocab_wf (add_token_to_vocab t v).
Proof.
  intros W M. apply dict_mem_false in M.
  destruct W as [S I N]. unfold add_token_to_vocab. constructor; simpl.
  - rewrite length_app, S. simpl. lia.
  - rewrite dict_set_fresh by exact M.
    rewrite length_app. simpl length. rewrite Nat.add_1_r, seq_S. simpl.
    rewrite combine_snoc by now rewrite length_seq.
    now rewrite <- I, S.
  - rewrite (vocab_wf_keys v (Build_vocab_wf v S I N)) in M.
    apply (Permutation_NoDup (Permutation_cons_append (vocab_list v) t)).
    now constructor.
Qed.

Lemma fill_vocab_wf (target : Z) (toks : list token) (v : Vocab) :
  vocab_wf v -> vocab_wf (fill_vocab target toks v).
Proof.
  revert v. induction toks as [|t toks IH]; intros v W; simpl; [exact W|].
  destruct (target <=? Z.of_nat (vocab_size v)); [exact W|].
  apply IH. destruct (dict_mem t (vocab_index_dict v)) eqn:M; [exact W|].
  now apply add_token_to_vocab_wf.
Qed.

(** *** The size of the vocabulary *)

Lemma dict_mem_set {V} (x t : token) (n : V) (d : dict V) :
  dict_mem x (dict_set t n d) = String.eqb x t || dict_mem x d.
Proof.
  unfold dict_mem. induction d as [|[k v] d IH]; simpl.
  - now destruct (String.eqb x t).
  - destruct (String.eqb_spec t k) as [->|N]; simpl.
    + destruct (String.eqb_spec x k); reflexivity.
    + destruct (String.eqb_spec x k) as [->|N'].
      * now rewrite orb_true_r.
      * exact IH.
Qed.

(** The tokens of [toks] that are not in the vocabulary yet. *)
Lemma fresh_after_add (t : token) (v : Vocab) (toks : list token) :
  ~ In t toks ->
  filter (fun x => negb (dict_mem x (vocab_index_dict (add_token_to_vocab t v))))
         toks
  = filter (fun x => negb (dict_mem x (vocab_index_dict v))) toks.
Proof.
  intros N. apply filter_ext_in. intros x Hx. simpl.
  rewrite dict_mem_set. destruct (String.eqb_spec x t) as [->|_]; [tauto|].
  reflexivity.
Qed.

Lemma fill_vocab_size (target : Z) (toks : list token) (v : Vocab) :
  NoDup toks ->
  Z.of_nat (vocab_size v) <= target ->
  target - Z.of_nat (vocab_size v)
  <= len (filter (fun x => negb (dict_mem x (vocab_index_dict v))) toks) ->
  Z.of_nat (vocab_size (fill_vocab target toks v)) = target.
Proof.
  intros N. revert v. induction N as [|t toks Nt N IH]; intros v Hle Hfresh.
  - unfold len in Hfresh. simpl in *. lia.
  - cbn [fill_vocab]. destruct (Z.leb_spec target (Z.of_nat (vocab_size v)));
      [lia|].
    cbn [filter] in Hfresh.
    destruct (dict_mem t (vocab_index_dict v)) eqn:M; cbn [negb] in Hfresh.
    + apply IH; [lia | exact Hfresh].
    + apply IH.
      * simpl. lia.
      * rewrite fresh_after_add by exact Nt.
        unfold len in *. simpl in *. lia.
Qed.

Lemma sorted_tokens_perm (d : Counter) :
  Permutation (dict_keys d) (sorted_tokens d).
Proof. apply Permutation_map, VocabSort.Permuted_sort. Qed.

Lemma sorted_tokens_nodup (d : Counter) : dict_wf d -> NoDup (sorted_tokens d).
Proof. apply Permutation_NoDup, sorted_tokens_perm. Qed.

Lemma sorted_tokens_length (d : Counter) :
  length (sorted_tokens d) = length d.
Proof.
  rewrite <- (Permutation_length (sorted_tokens_perm d)).
  apply length_map.
Qed.

Lemma filter_all {X} (f : X -> bool) (l : list X) :
  (forall x, In x l -> f x = true) -> filter f l = l.
Proof.
  induction l as [|a l IH]; intros H; simpl; [reflexivity|].
  rewrite (H a) by now left. f_equal. apply IH. intros x Hx. apply H. now right.
Qed.

Lemma filter_other_length (u : token) (l : list token) :
  NoDup l ->
  (length l <= S (length (filter (fun t => negb (String.eqb t u)) l)))%nat.
Proof.
  induction 1 as [|a l Na N IH]; simpl; [lia|].
  destruct (String.eqb_spec a u) as [->|_]; simpl; [|lia].
  rewrite filter_all; [lia|].
  intros x Hx. destruct (String.eqb_spec x u) as [->|_]; [tauto | reflexivity].
Qed.

(** An index once assigned is never reassigned by the fill loop. *)
Lemma dict_get_set_other {V} (u t : token) (n m : V) (d : dict V) :
  dict_get u d = Some n -> dict_mem t d = false ->
  dict_get u (dict_set t m d) = Some n.
Proof.
  intros G M. apply dict_mem_false in M. rewrite dict_set_fresh by exact M.
  induction d as [|[k v] d IH]; simpl in *; [discriminate|].
  destruct (String.eqb u k); [exact G|]. apply IH; tauto.
Qed.

Lemma fill_vocab_keeps (target : Z) (toks : list token) (v : Vocab)
    (u : token) (n : nat) :
  dict_get u (vocab_index_dict v) = Some n ->
  dict_get u (vocab_index_dict (fill_vocab target toks v)) = Some n.
Proof.
  revert v. induction toks as [|t toks IH]; intros v G; simpl; [exact G|].
  destruct (target <=? Z.of_nat (vocab_size v)); [exact G|].
  apply IH. destruct (dict_mem t (vocab_index_dict v)) eqn:M; [exact G|].
  simpl. now apply dict_get_set_other.
Qed.

(** C1 (as amended): on a non-empty frequency table, with empty include and
    exclude lists and a target size between 0 and the number of distinct
    types, [create_vocab] returns normally and builds a vocabulary of
    exactly target-size entries in all: the unknown token, when requested,
    takes one of them (index 0) and is not an extra one, so that only a
    target of 0 with the unknown token gives one entry. The indices are
    exactly [0 .. size - 1] in the order of [vocab_list], with no gap and no
    token twice. *)
Theorem create_vocab_target_size :
  forall (c : Corpus) (target : Z) (include_unknown : bool),
    dict_wf (type_freq_dict c) ->
    type_freq_dict c <> [] ->
    0 <= target <= len (type_freq_dict c) ->
    exists v,
      vocab (fst (create_vocab (Some target) [] [] include_unknown c)) = Some v
      /\ snd (create_vocab (Some target) [] [] include_unknown c) = Ok []
      /\ Z.of_nat (vocab_size v)
         = (if include_unknown then Z.max target 1 else target)
      /\ length (vocab_list v) = vocab_size v
      /\ NoDup (vocab_list v)
      /\ dict_keys (vocab_index_dict v) = vocab_list v
      /\ map snd (vocab_index_dict v) = seq 0 (vocab_size v)
      /\ (include_unknown = true ->
          exists u, unknown_token
                      (fst (create_vocab (Some target) [] [] include_unknown c))
                    = Some u
                    /\ dict_get u (vocab_index_dict v) = Some 0%nat).
Proof.
  intros c target unk W Hne Htarget.
  unfold create_vocab. cbn [fold_left].
  destruct (Z.eqb_spec (len (type_freq_dict c)) 0) as [E|_].
  { destruct (type_freq_dict c); [contradiction | discriminate]. }
  cbn [inc_vocab inc_filtered inc_missing fst snd].
  set (v1 := if unk then add_token_to_vocab (unknown_token_after "<UNK>" c)
                          (mkVocab [] [] 0)
             else mkVocab [] [] 0).
  set (v3 := if Z.of_nat (vocab_size v1) <? target
             then fill_vocab target (sorted_tokens (type_freq_dict c)) v1
             else v1).
  assert (W1 : vocab_wf v1).
  { unfold v1. destruct unk; [|apply vocab_wf_empty].
    apply add_token_to_vocab_wf; [apply vocab_wf_empty | reflexivity]. }
  assert (W3 : vocab_wf v3).
  { unfold v3. destruct (_ <? _); [now apply fill_vocab_wf | exact W1]. }
  assert (S3 : Z.of_nat (vocab_size v3)
               = if unk then Z.max target 1 else target).
  { unfold v3. destruct (Z.ltb_spec (Z.of_nat (vocab_size v1)) target) as [Hlt|Hge].
    - rewrite fill_vocab_size.
      + unfold v1 in Hlt. destruct unk; simpl in Hlt; lia.
      + now apply sorted_tokens_nodup.
      + lia.
      + pose proof (sorted_tokens_nodup _ W) as N.
        pose proof (sorted_tokens_length (type_freq_dict c)) as L.
        unfold len in *. unfold v1. destruct unk; simpl.
        * pose proof (filter_other_length (unknown_token_after "<UNK>" c) _ N) as F.
          erewrite (filter_ext _ (fun t => negb (String.eqb t
                                           (unknown_token_after "<UNK>" c)))).
          -- lia.
          -- intros t. unfold dict_mem. simpl.
             now destruct (String.eqb t (unknown_token_after "<UNK>" c)).
        * rewrite filter_all by reflexivity. lia.
    - unfold v1 in *. destruct unk; simpl in *; lia. }
  exists v3.
  split; [reflexivity|]. split; [reflexivity|]. split; [exact S3|].
  split; [now destruct W3|]. split; [now destruct W3|].
  split; [now apply vocab_wf_keys|]. split; [now apply vocab_wf_indices|].
  - intros ->. exists (unknown_token_after "<UNK>" c). split; [reflexivity|].
    assert (G1 : dict_get (unknown_token_after "<UNK>" c) (vocab_index_dict v1)
                 = Some 0%nat).
    { unfold v1. simpl. now rewrite String.eqb_refl. }
    unfold v3. destruct (_ <? _); [|exact G1].
    now apply fill_vocab_keeps.
Qed.

Lemma create_vocab_target_size_witness :
  let c := add_document [["a"; "b"; "a"]; ["c"]] None None Corpus_init in
  exists v,
    vocab (fst (create_vocab (Some 2) [] [] true c)) = Some v
    /\ snd (create_vocab (Some 2) [] [] true c) = Ok []
    /\ Z.of_nat (vocab_size v) = Z.max 2 1
    /\ length (vocab_list v) = vocab_size v
    /\ NoDup (vocab_list v)
    /\ dict_keys (vocab_index_dict v) = vocab_list v
    /\ map snd (vocab_index_dict v) = seq 0 (vocab_size v).
Proof.
  intros c.
  assert (W : dict_wf (type_freq_dict c)).
  { distinct_keys. }
  assert (Hne : type_freq_dict c <> []) by (vm_compute; discriminate).
  assert (Ht : 0 <= 2 <= len (type_freq_dict c)) by (vm_compute; split; discriminate).
  destruct (create_vocab_target_size c 2 true W Hne Ht)
    as [v [E1 [E2 [E3 [E4 [E5 [E6 [E7 _]]]]]]]].
  exists v. repeat split; assumption.
Defined.

(** C1 (as stated) fails: on the table {a: 1, b: 1} with target size 1 and
    the unknown token requested, the vocabulary is ["<UNK>"] alone, of size
    1 and not 1 + 1. *)
Lemma create_vocab_target_size_cex :
  let c := add_document [["a"; "b"]] None None Corpus_init in
  dict_wf (type_freq_dict c)
  /\ type_freq_dict c <> []
  /\ 0 <= 1 <= len (type_freq_dict c)
  /\ vocab (fst (create_vocab (Some 1) [] [] true c))
     = Some (mkVocab ["<UNK>"] [("<UNK>", 0%nat)] 1)
  /\ option_map (fun v => Z.of_nat (vocab_size v))
       (vocab (fst (create_vocab (Some 1) [] [] true c)))
     <> Some (1 + 1).
Proof.
  intros c. split; [|split; [|split; [|split]]].
  - distinct_keys.
  - vm_compute. discriminate.
  - vm_compute. split; discriminate.
  - reflexivity.
  - vm_compute. discriminate.
Qed.

(** *** The order of the fill step *)

Lemma string_leb_iff (a b : string) :
  String.leb a b = true <-> a = b \/ String_as_OT.lt a b.
Proof.
  unfold String.leb. rewrite <- String_as_OT.cmp_eq, <- String_as_OT.cmp_lt.
  unfold String_as_OT.cmp. destruct (String.compare a b);
    intuition discriminate.
Qed.

Lemma string_leb_trans (a b c : string) :
  String.leb a b = true -> String.leb b c = true -> String.leb a c = true.
Proof.
  rewrite !string_leb_iff. intros [->|H1] [->|H2]; auto.
  right. eapply String_as_OT.lt_trans; eassumption.
Qed.

Lemma vocab_key_leb_trans (x y z : VocabKey.t) :
  VocabKey.leb x y = true -> VocabKey.leb y z = true -> VocabKey.leb x z = true.
Proof.
  destruct x as [w1 c1], y as [w2 c2], z as [w3 c3]. unfold VocabKey.leb. simpl.
  rewrite !orb_true_iff, !andb_true_iff, !Z.ltb_lt, !Z.eqb_eq.
  intros [H1|[H1 L1]] [H2|[H2 L2]]; try (left; lia).
  right. split; [lia|]. eapply string_leb_trans; eassumption.
Qed.

Lemma StronglySorted_map_in {X Y} (R : X -> X -> Prop) (R' : Y -> Y -> Prop)
    (f : X -> Y) (l : list X) :
  (forall x y, In x l -> In y l -> R x y -> R' (f x) (f y)) ->
  StronglySorted R l -> StronglySorted R' (map f l).
Proof.
  intros H S. induction S as [|a l S IH F]; simpl; constructor.
  - apply IH. intros x y Hx Hy. apply H; now right.
  - apply Forall_map. rewrite Forall_forall in *. intros y Hy.
    apply H; [now left | now right | now apply F].
Qed.

Lemma StronglySorted_filter {X} (R : X -> X -> Prop) (f : X -> bool)
    (l : list X) :
  StronglySorted R l -> StronglySorted R (filter f l).
Proof.
  induction 1 as [|a l S IH F]; simpl; [constructor|].
  destruct (f a); [|exact IH]. constructor; [exact IH|].
  rewrite Forall_forall in *. intros y Hy. apply F.
  now apply filter_In in Hy.
Qed.

(** [sorted_tokens] lists the types of a table in the order of the fill
    step, by the counts of any table that has the same entries. *)
Lemma sorted_tokens_sorted (d freq : Counter) :
  dict_wf freq -> incl d freq ->
  StronglySorted (vocab_order freq) (sorted_tokens d).
Proof.
  intros W I. unfold sorted_tokens.
  apply (StronglySorted_map_in (fun x y => is_true (VocabKey.leb x y))).
  - intros [w1 c1] [w2 c2] H1 H2 L.
    apply (Permutation_in _ (Permutation_sym (VocabSort.Permuted_sort d))) in H1, H2.
    apply I, (dict_get_wf _ _ _ W) in H1. apply I, (dict_get_wf _ _ _ W) in H2.
    unfold vocab_order, counter_get. simpl. rewrite H1, H2.
    unfold is_true, VocabKey.leb in L. simpl in L.
    rewrite orb_true_iff, andb_true_iff, Z.ltb_lt, Z.eqb_eq in L.
    destruct L as [L|[L1 L2]]; [left; lia | right; split; [lia | exact L2]].
  - apply VocabSort.StronglySorted_sort.
    intros x y z. apply vocab_key_leb_trans.
Qed.

Lemma dict_pop_incl {V} (k : token) (d : dict V) : incl (dict_pop k d) d.
Proof. intros x H. now apply filter_In in H. Qed.

Lemma pop_all_incl {V} (ks : list token) (d : dict V) :
  incl (fold_left (fun d tok => dict_pop tok d) ks d) d.
Proof.
  revert d. induction ks as [|k ks IH]; intros d; simpl; [apply incl_refl|].
  eapply incl_tran; [apply IH | apply dict_pop_incl].
Qed.

Lemma include_step_vocab (st : Included) (t : token) :
  vocab_list (inc_vocab (include_step st t))
  = vocab_list (inc_vocab st)
    ++ (if dict_mem t (inc_filtered st) then [t] else []).
Proof.
  unfold include_step. destruct (dict_mem t (inc_filtered st)); simpl;
    [reflexivity | now rewrite app_nil_r].
Qed.

(** What the include-list loop leaves: the tokens added are in the include
    list, and the filtered table has lost exactly the tokens of the list. *)
Lemma include_loop (inc : list token) (st : Included) :
  dict_wf (inc_filtered st) ->
  let st' := fold_left include_step inc st in
  (exists added,
      vocab_list (inc_vocab st') = vocab_list (inc_vocab st) ++ added
      /\ Forall (fun t => In t inc) added)
  /\ incl (inc_filtered st') (inc_filtered st)
  /\ dict_wf (inc_filtered st')
  /\ forall k, In k (dict_keys (inc_filtered st'))
               <-> In k (dict_keys (inc_filtered st)) /\ ~ In k inc.
Proof.
  revert st. induction inc as [|t inc IH]; intros st W; cbn [fold_left].
  - cbn zeta. split; [exists []; now rewrite app_nil_r|].
    split; [apply incl_refl|]. split; [exact W|]. intros k. simpl. tauto.
  - specialize (IH (include_step st t)).
    assert (W' : dict_wf (inc_filtered (include_step st t))).
    { unfold include_step. destruct (dict_mem t (inc_filtered st)); simpl;
        [now apply dict_pop_wf | exact W]. }
    destruct (IH W') as [[added [A F]] [I [Wf K]]]. cbn zeta.
    assert (K1 : forall k, In k (dict_keys (inc_filtered (include_step st t)))
                           <-> In k (dict_keys (inc_filtered st)) /\ k <> t).
    { intros k. unfold include_step.
      destruct (dict_mem t (inc_filtered st)) eqn:M; simpl.
      - apply dict_pop_keys.
      - apply dict_mem_false in M. split; [|tauto].
        intros H. split; [exact H | congruence]. }
    split; [|split; [|split; [exact Wf|]]].
    + rewrite include_step_vocab, <- app_assoc in A.
      eexists. split; [exact A|]. apply Forall_app. split.
      * destruct (dict_mem t (inc_filtered st)); repeat constructor.
      * eapply Forall_impl; [|exact F]. intros; now right.
    + eapply incl_tran; [exact I|]. unfold include_step.
      destruct (dict_mem t (inc_filtered st)); simpl;
        [apply dict_pop_incl | apply incl_refl].
    + intros k. rewrite K, K1. simpl. intuition congruence.
Qed.

(** What the fill loop appends: a prefix of the tokens of [toks] that are
    not in the vocabulary yet, all of them unless the target is reached. *)
Lemma fill_vocab_prefix (target : Z) (toks : list token) (v : Vocab) :
  NoDup toks ->
  exists fill rest,
    filter (fun x => negb (dict_mem x (vocab_index_dict v))) toks = fill ++ rest
    /\ vocab_list (fill_vocab target toks v) = vocab_list v ++ fill
    /\ (rest = [] \/ target <= Z.of_nat (vocab_size (fill_vocab target toks v))).
Proof.
  intros N. revert v. induction N as [|t toks Nt N IH]; intros v.
  - exists [], []. simpl. rewrite app_nil_r. auto.
  - cbn [fill_vocab filter].
    destruct (Z.leb_spec target (Z.of_nat (vocab_size v))) as [Hle|Hgt].
    + eexists [], _. split; [reflexivity|]. rewrite app_nil_r. auto.
    + destruct (dict_mem t (vocab_index_dict v)) eqn:M; cbn [negb].
      * apply IH.
      * destruct (IH (add_token_to_vocab t v)) as [fill [rest [E [L T]]]].
        rewrite fresh_after_add in E by exact Nt.
        exists (t :: fill), rest. rewrite E, L. simpl.
        rewrite <- app_assoc. auto.
Qed.

Lemma add_token_same_tokens (t : token) (v : Vocab) :
  same_tokens v -> same_tokens (add_token_to_vocab t v).
Proof.
  intros H x. unfold add_token_to_vocab. cbn [vocab_index_dict vocab_list].
  rewrite <- dict_mem_keys, dict_mem_set, orb_true_iff.
  rewrite dict_mem_keys, (H x), in_app_iff. simpl.
  destruct (String.eqb_spec x t); intuition congruence.
Qed.

Lemma include_loop_same_tokens (inc : list token) (st : Included) :
  same_tokens (inc_vocab st) ->
  same_tokens (inc_vocab (fold_left include_step inc st)).
Proof.
  revert st. induction inc as [|t inc IH]; intros st H; simpl; [exact H|].
  apply IH. unfold include_step.
  destruct (dict_mem t (inc_filtered st)); simpl; [|exact H].
  now apply add_token_same_tokens.
Qed.

(** Building again, with the same arguments, changes nothing. *)
Lemma create_vocab_again (vs : option Z) (inc exc : list token) (unk : bool)
    (c : Corpus) :
  create_vocab vs inc exc unk (fst (create_vocab vs inc exc unk c))
  = create_vocab vs inc exc unk c.
Proof.
  destruct c as [nd dl ns nt nty tl tid freq v u].
  unfold create_vocab, set_unknown_token, unknown_token_after, set_vocab,
    set_unknown.
  cbn [type_freq_dict unknown_token num_documents document_list num_sequences
       num_tokens num_types type_list type_index_dict vocab].
  destruct (len (fold_left (fun d tok => dict_pop tok d) exc freq) =? 0) eqn:E;
    destruct unk;
    cbn [fst snd type_freq_dict unknown_token num_documents document_list
         num_sequences num_tokens num_types type_list type_index_dict vocab];
    rewrite ?E; reflexivity.
Qed.

(** [vocab_size] counts the entries of [vocab_list]. *)
Lemma fill_vocab_counted (target : Z) (toks : list token) (v : Vocab) :
  vocab_size v = length (vocab_list v) ->
  vocab_size (fill_vocab target toks v)
  = length (vocab_list (fill_vocab target toks v)).
Proof.
  revert v. induction toks as [|t toks IH]; intros v H; simpl; [exact H|].
  destruct (target <=? Z.of_nat (vocab_size v)); [exact H|].
  apply IH. destruct (dict_mem t (vocab_index_dict v)); [exact H|].
  simpl. rewrite length_app, H. simpl. lia.
Qed.

Lemma include_loop_counted (inc : list token) (st : Included) :
  vocab_size (inc_vocab st) = length (vocab_list (inc_vocab st)) ->
  vocab_size (inc_vocab (fold_left include_step inc st))
  = length (vocab_list (inc_vocab (fold_left include_step inc st))).
Proof.
  revert st. induction inc as [|t inc IH]; intros st H; simpl; [exact H|].
  apply IH. unfold include_step.
  destruct (dict_mem t (inc_filtered st)); simpl; [|exact H].
  rewrite length_app, H. simpl. lia.
Qed.

(** The fill loop stops at the target: it never goes beyond it. *)
Lemma fill_vocab_bound (target : Z) (toks : list token) (v : Vocab) :
  Z.of_nat (vocab_size (fill_vocab target toks v))
  <= Z.max target (Z.of_nat (vocab_size v)).
Proof.
  revert v. induction toks as [|t toks IH]; intros v; simpl; [lia|].
  destruct (Z.leb_spec target (Z.of_nat (vocab_size v))); [lia|].
  destruct (dict_mem t (vocab_index_dict v)).
  - apply IH.
  - specialize (IH (add_token_to_vocab t v)). simpl in IH. lia.
Qed.

(** The tokens that the include-list loop adds: the tokens of the list that
    are in the filtered table, each once. *)
Lemma include_loop_added (inc : list token) (st : Included) :
  exists added,
    vocab_list (inc_vocab (fold_left include_step inc st))
    = vocab_list (inc_vocab st) ++ added
    /\ NoDup added
    /\ forall t, In t added
                 <-> In t inc /\ In t (dict_keys (inc_filtered st)).
Proof.
  revert st. induction inc as [|t inc IH]; intros st; cbn [fold_left].
  - exists []. rewrite app_nil_r. split; [reflexivity|].
    split; [constructor|]. intros x. simpl. tauto.
  - destruct (IH (include_step st t)) as [added [A [N M]]].
    rewrite include_step_vocab, <- app_assoc in A.
    assert (K : forall k, In k (dict_keys (inc_filtered (include_step st t)))
                          <-> In k (dict_keys (inc_filtered st)) /\ k <> t).
    { intros k. unfold include_step.
      destruct (dict_mem t (inc_filtered st)) eqn:E; simpl.
      - apply dict_pop_keys.
      - apply dict_mem_false in E. split; [|tauto].
        intros H. split; [exact H | congruence]. }
    destruct (dict_mem t (inc_filtered st)) eqn:E.
    + apply dict_mem_keys in E.
      exists (t :: added). split; [exact A|]. split.
      * constructor; [|exact N]. intros H. apply M in H as [_ H].
        apply K in H. tauto.
      * intros x. simpl. rewrite M, K.
        destruct (String.eqb_spec t x) as [->|Nx]; [tauto|].
        intuition congruence.
    + apply dict_mem_false in E.
      exists added. split; [exact A|]. split; [exact N|].
      intros x. rewrite M, K. simpl.
      destruct (String.eqb_spec t x) as [->|Nx]; [tauto|].
      intuition congruence.
Qed.

(** A build returns exactly when the exclusion list leaves a type of the
    corpus; otherwise it raises. *)
Lemma create_vocab_returns (vs : option Z) (inc exc : list token)
    (unk : bool) (c : Corpus) :
  (exists k, In k (dict_keys (type_freq_dict c)) /\ ~ In k exc)
  <-> exists missing, snd (create_vocab vs inc exc unk c) = Ok missing.
Proof.
  unfold create_vocab.
  set (filtered := fold_left (fun d tok => dict_pop tok d) exc (type_freq_dict c)).
  assert (K : forall k, In k (dict_keys filtered)
                        <-> In k (dict_keys (type_freq_dict c)) /\ ~ In k exc)
    by (intros k; apply pop_all_keys).
  destruct filtered as [|[k n] others]; unfold len; cbn [length].
  - change (Z.of_nat 0 =? 0) with true. cbv iota. cbn [snd]. split.
    + intros [k Hk]. apply K in Hk. contradiction.
    + intros [missing H]. discriminate.
  - destruct (Z.eqb_spec (Z.of_nat (S (length others))) 0) as [|_]; [lia|].
    cbn [snd]. split.
    + intros _. eexists. reflexivity.
    + intros _. exists k. apply K. now left.
Qed.

(** What a build that returns leaves in [vocab_list], with the order of the
    fill. *)
Lemma create_vocab_sorted_fill (c : Corpus) (vs : option Z)
    (inc exc : list token) (unk : bool) (missing : list token) :
  dict_wf (type_freq_dict c) ->
  snd (create_vocab vs inc exc unk c) = Ok missing ->
  exists v added fill rest,
    let head := (if unk then [unknown_token_after "<UNK>" c] else [])
                ++ added in
    vocab (fst (create_vocab vs inc exc unk c)) = Some v
    /\ vocab_list v = head ++ fill
    /\ vocab_size v = length (vocab_list v)
    /\ NoDup added
    /\ (forall t, In t added
                  <-> In t inc /\ In t (dict_keys (type_freq_dict c))
                      /\ ~ In t exc)
    /\ (forall t, In t (fill ++ rest)
                  <-> In t (dict_keys (type_freq_dict c))
                      /\ ~ In t exc
                      /\ ~ In t inc
                      /\ ~ In t head)
    /\ NoDup (fill ++ rest)
    /\ StronglySorted (vocab_order (type_freq_dict c)) (fill ++ rest)
    /\ (rest = [] \/ target_size vs unk c <= Z.of_nat (vocab_size v))
    /\ Z.of_nat (vocab_size v) <= Z.max (target_size vs unk c) (len head).
Proof.
  intros W. unfold create_vocab. fold (target_size vs unk c).
  set (target := target_size vs unk c).
  set (filtered := fold_left (fun d tok => dict_pop tok d) exc (type_freq_dict c)).
  destruct (len filtered =? 0); [discriminate|].
  set (v1 := if unk
             then add_token_to_vocab (unknown_token_after "<UNK>" c)
                                     (mkVocab [] [] 0)
             else mkVocab [] [] 0).
  set (st0 := mkIncluded v1 filtered []).
  set (st := fold_left include_step inc st0).
  cbn [fst snd]. intros _.
  assert (Wf : dict_wf filtered) by now apply pop_all_wf.
  destruct (include_loop inc st0 Wf) as [_ [I [Wst K]]].
  destruct (include_loop_added inc st0) as [added [A [Na Ma]]].
  fold st in A, I, Wst, K. cbn [inc_vocab inc_filtered st0] in A, I, K, Ma.
  assert (T1 : same_tokens v1).
  { unfold v1. destruct unk.
    - apply add_token_same_tokens. intros x. simpl. tauto.
    - intros x. simpl. tauto. }
  assert (T2 : same_tokens (inc_vocab st))
    by (apply include_loop_same_tokens; exact T1).
  assert (L1 : vocab_list v1
               = if unk then [unknown_token_after "<UNK>" c] else []).
  { unfold v1. now destruct unk. }
  rewrite L1 in A.
  assert (S1 : vocab_size v1 = length (vocab_list v1))
    by (unfold v1; now destruct unk).
  assert (S2 : vocab_size (inc_vocab st) = length (vocab_list (inc_vocab st)))
    by (apply include_loop_counted; exact S1).
  assert (Ma' : forall t, In t added
                          <-> In t inc /\ In t (dict_keys (type_freq_dict c))
                              /\ ~ In t exc).
  { intros t. rewrite Ma. unfold filtered. rewrite pop_all_keys. tauto. }
  set (toks := sorted_tokens (inc_filtered st)).
  set (eligible := filter (fun x => negb (dict_mem x (vocab_index_dict
                                                      (inc_vocab st)))) toks).
  assert (Nt : NoDup toks) by now apply sorted_tokens_nodup.
  assert (Em : forall t, In t eligible
                         <-> In t (dict_keys (type_freq_dict c))
                             /\ ~ In t exc /\ ~ In t inc
                             /\ ~ In t ((if unk
                                         then [unknown_token_after "<UNK>" c]
                                         else []) ++ added)).
  { intros t. unfold eligible. rewrite filter_In, negb_true_iff, dict_mem_false.
    rewrite (T2 t), A. unfold toks.
    assert (P : In t (sorted_tokens (inc_filtered st))
                <-> In t (dict_keys (inc_filtered st))).
    { split; apply Permutation_in;
        [apply Permutation_sym|]; apply sorted_tokens_perm. }
    rewrite P, K. unfold filtered. rewrite pop_all_keys. tauto. }
  assert (En : NoDup eligible) by now apply NoDup_filter.
  assert (Es : StronglySorted (vocab_order (type_freq_dict c)) eligible).
  { apply StronglySorted_filter, sorted_tokens_sorted; [exact W|].
    eapply incl_tran; [exact I|]. apply pop_all_incl. }
  destruct (Z.ltb_spec (Z.of_nat (vocab_size (inc_vocab st))) target) as [Hlt|Hge].
  - destruct (fill_vocab_prefix target toks (inc_vocab st) Nt)
      as [fill [rest [E [L T]]]].
    fold eligible in E.
    exists (fill_vocab target toks (inc_vocab st)), added, fill, rest.
    cbn zeta. rewrite <- E.
    split; [reflexivity|]. split; [now rewrite L, A|].
    split; [now apply fill_vocab_counted|].
    split; [exact Na|]. split; [exact Ma'|].
    split; [exact Em|]. split; [exact En|].
    split; [exact Es|]. split; [exact T|].
    pose proof (fill_vocab_bound target toks (inc_vocab st)) as B.
    rewrite S2, A in B. exact B.
  - exists (inc_vocab st), added, [], eligible. cbn zeta.
    rewrite app_nil_r. cbn [app].
    split; [reflexivity|]. split; [exact A|]. split; [exact S2|].
    split; [exact Na|]. split; [exact Ma'|].
    split; [exact Em|]. split; [exact En|].
    split; [exact Es|]. split; [right; exact Hge|].
    rewrite S2, A. unfold len. lia.
Qed.

(** C6: [create_vocab] is deterministic: a second build with the same
    arguments returns the same result and leaves the corpus as the first
    did. A build returns exactly when the exclusion list leaves a type of
    the corpus. And then [vocab_list] is the unknown token (when requested),
    then the include-list tokens that are types and not excluded, each once,
    then the fill: the tokens of the table that are neither excluded nor in
    the include list nor in the vocabulary already, taken in descending
    frequency with ties in ascending lexicographic order, from the first
    on, and all of them unless the target size is reached, where the fill
    stops: [vocab_size], the length of [vocab_list], is at most the larger
    of the target and what the unknown token and the include list put
    in. *)
Theorem create_vocab_fill_order :
  forall (c : Corpus) (vocab_size_arg : option Z)
         (include_list exclude_list : list token) (include_unknown : bool),
    dict_wf (type_freq_dict c) ->
    let r := create_vocab vocab_size_arg include_list exclude_list
                          include_unknown c in
    create_vocab vocab_size_arg include_list exclude_list include_unknown
                 (fst r) = r
    /\ ((exists k, In k (dict_keys (type_freq_dict c))
                   /\ ~ In k exclude_list)
        <-> exists missing, snd r = Ok missing)
    /\ ((exists k, In k (dict_keys (type_freq_dict c))
                   /\ ~ In k exclude_list) ->
        exists missing v added fill rest,
          let head := (if include_unknown
                       then [unknown_token_after "<UNK>" c] else [])
                      ++ added in
          snd r = Ok missing
          /\ vocab (fst r) = Some v
          /\ vocab_list v = head ++ fill
          /\ vocab_size v = length (vocab_list v)
          /\ NoDup added
          /\ (forall t, In t added
                        <-> In t include_list
                            /\ In t (dict_keys (type_freq_dict c))
                            /\ ~ In t exclude_list)
          /\ (forall t, In t (fill ++ rest)
                        <-> In t (dict_keys (type_freq_dict c))
                            /\ ~ In t exclude_list
                            /\ ~ In t include_list
                            /\ ~ In t head)
          /\ NoDup (fill ++ rest)
          /\ StronglySorted (vocab_order (type_freq_dict c)) (fill ++ rest)
          /\ (rest = []
              \/ target_size vocab_size_arg include_unknown c
                 <= Z.of_nat (vocab_size v))
          /\ Z.of_nat (vocab_size v)
             <= Z.max (target_size vocab_size_arg include_unknown c)
                      (len head)).
Proof.
  intros c vs inc exc unk W r. split; [apply create_vocab_again|].
  split; [apply create_vocab_returns|].
  intros Hk. apply (create_vocab_returns vs inc exc unk c) in Hk as [missing R].
  destruct (create_vocab_sorted_fill c vs inc exc unk missing W R)
    as [v [added [fill [rest H]]]].
  exists missing, v, added, fill, rest. cbv zeta in H |- *.
  split; [exact R | exact H].
Qed.

Lemma create_vocab_fill_order_witness :
  let c := add_document [["b"; "a"; "b"]; ["c"; "d"]] None None Corpus_init in
  let r := create_vocab (Some 3) ["d"] ["c"] true c in
  create_vocab (Some 3) ["d"] ["c"] true (fst r) = r
  /\ snd r = Ok []
  /\ option_map vocab_list (vocab (fst r)) = Some ["<UNK>"; "d"; "b"]
  /\ exists fill rest,
       StronglySorted (vocab_order (type_freq_dict c)) (fill ++ rest)
       /\ NoDup (fill ++ rest).
Proof.
  intros c r.
  assert (W : dict_wf (type_freq_dict c)).
  { distinct_keys. }
  assert (K : exists k, In k (dict_keys (type_freq_dict c)) /\ ~ In k ["c"]).
  { exists "b". split; [now left|]. simpl. intuition discriminate. }
  destruct (create_vocab_fill_order c (Some 3) ["d"] ["c"] true W) as [A [_ B]].
  destruct (B K)
    as [missing [v [added [fill [rest [_ [_ [_ [_ [_ [_ [_ [N [S _]]]]]]]]]]]]]].
  split; [exact A|]. split; [reflexivity|]. split; [reflexivity|].
  exists fill, rest. split; assumption.
Defined.

(** The order of the fill step is a total order on the types of a table, so
    the sorted list does not depend on the order of the table's entries. *)
Lemma vocab_order_antisym (freq : Counter) (a b : token) :
  vocab_order freq a b -> vocab_order freq b a -> a = b.
Proof.
  unfold vocab_order. intros [H1|[E1 L1]] [H2|[E2 L2]]; try lia.
  now apply String.leb_antisym.
Qed.

Lemma sorted_nodup_unique {X} (R : X -> X -> Prop) (l1 l2 : list X) :
  (forall a b, R a b -> R b a -> a = b) ->
  StronglySorted R l1 -> StronglySorted R l2 ->
  NoDup l1 -> NoDup l2 ->
  (forall x, In x l1 <-> In x l2) ->
  l1 = l2.
Proof.
  intros anti S1. revert l2.
  induction S1 as [|a l1 S1 IH F1]; intros l2 S2 N1 N2 M.
  - destruct l2 as [|b l2]; [reflexivity|]. exfalso. apply (M b). now left.
  - destruct S2 as [|b l2 S2 F2]; [exfalso; apply (M a); now left|].
    assert (E : a = b).
    { destruct (proj1 (M a) (or_introl eq_refl)) as [E|Ha]; [now symmetry|].
      destruct (proj2 (M b) (or_introl eq_refl)) as [E|Hb]; [exact E|].
      rewrite Forall_forall in F1, F2. apply anti; [now apply F1 | now apply F2]. }
    subst b. f_equal.
    inversion N1 as [|? ? Na1 N1']; inversion N2 as [|? ? Na2 N2']; subst.
    apply IH; try assumption.
    intros x. split; intros Hx.
    + destruct (proj1 (M x) (or_intror Hx)) as [->|H]; [contradiction | exact H].
    + destruct (proj2 (M x) (or_intror Hx)) as [->|H]; [contradiction | exact H].
Qed.

Lemma sorted_tokens_order_independent (d1 d2 : Counter) :
  dict_wf d1 -> Permutation d1 d2 ->
  sorted_tokens d1 = sorted_tokens d2.
Proof.
  intros W P.
  assert (W2 : dict_wf d2).
  { unfold dict_wf, dict_keys. eapply Permutation_NoDup; [|exact W].
    now apply Permutation_map. }
  apply (sorted_nodup_unique (vocab_order d1)).
  - apply vocab_order_antisym.
  - apply sorted_tokens_sorted; [exact W | apply incl_refl].
  - apply sorted_tokens_sorted; [exact W|].
    intros x Hx. eapply Permutation_in; [apply Permutation_sym, P | exact Hx].
  - now apply sorted_tokens_nodup.
  - now apply sorted_tokens_nodup.
  - intros x.
    assert (Q : Permutation (sorted_tokens d1) (sorted_tokens d2)).
    { eapply Permutation_trans; [apply Permutation_sym, sorted_tokens_perm|].
      eapply Permutation_trans; [|apply sorted_tokens_perm].
      now apply Permutation_map. }
    split; apply Permutation_in; [exact Q | now apply Permutation_sym].
Qed.

(** * Further properties *)

(** ** Flattening *)

Lemma flatten_element_Lst (elements : list nested) :
  flatten_element (Lst elements) = flatten_corpus_lists elements.
Proof.
  unfold flatten_corpus_lists. simpl.
  induction elements as [|e rest IH]; simpl; [reflexivity | now rewrite IH].
Qed.

(** The equations of the recursive method: an element that is a list is
    flattened and [extend]s the result, any other is [append]ed. *)
Lemma flatten_corpus_lists_eq :
  flatten_corpus_lists [] = []
  /\ (forall t rest,
        flatten_corpus_lists (Tok t :: rest) = t :: flatten_corpus_lists rest)
  /\ (forall elements rest,
        flatten_corpus_lists (Lst elements :: rest)
        = flatten_corpus_lists elements ++ flatten_corpus_lists rest).
Proof.
  repeat split.
Qed.

Lemma flatten_corpus_lists_app (l1 l2 : list nested) :
  flatten_corpus_lists (l1 ++ l2)
  = flatten_corpus_lists l1 ++ flatten_corpus_lists l2.
Proof. apply flat_map_app. Qed.

Lemma flatten_corpus_lists_flat (ts : list token) :
  flatten_corpus_lists (map Tok ts) = ts.
Proof.
  induction ts as [|t ts IH]; [reflexivity|].
  cbn [map]. rewrite (proj1 (proj2 flatten_corpus_lists_eq)). now rewrite IH.
Qed.

(** X1: [flatten_corpus_lists] keeps the tokens and their order and drops
    the brackets only: a flat list comes back unchanged, the brackets around
    an element that is a list can be removed without changing the result,
    and a document given as a list of sentences flattens to the
    concatenation of its sentences. *)
Theorem flatten_corpus_lists_brackets :
  (forall ts, flatten_corpus_lists (map Tok ts) = ts)
  /\ (forall before elements after,
        flatten_corpus_lists (before ++ Lst elements :: after)
        = flatten_corpus_lists (before ++ elements ++ after))
  /\ (forall sentences : list (list token),
        flatten_corpus_lists (map (fun s => Lst (map Tok s)) sentences)
        = List.concat sentences).
Proof.
  split; [exact flatten_corpus_lists_flat|]. split.
  - intros before elements after.
    rewrite !flatten_corpus_lists_app.
    now rewrite (proj2 (proj2 flatten_corpus_lists_eq)).
  - induction sentences as [|s rest IH]; [reflexivity|].
    cbn [map List.concat].
    rewrite (proj2 (proj2 flatten_corpus_lists_eq)), IH.
    now rewrite flatten_corpus_lists_flat.
Qed.

(** ** Windows *)

Lemma for_each_map {S X Y} (g : X -> Y) (xs : list X)
    (body : Y -> S -> Result S) (s : S) :
  for_each (map g xs) body s = for_each xs (fun x => body (g x)) s.
Proof.
  revert s. induction xs as [|x xs IH]; intros s; simpl; [reflexivity|].
  destruct (body (g x) s); simpl; auto.
Qed.

Lemma range_from_1 (w : Z) :
  range 1 (w + 1) = map Z.of_nat (seq 1 (Z.to_nat w)).
Proof.
  unfold range. replace (w + 1 - 1) with w by lia.
  rewrite <- seq_shift, map_map. apply map_ext. intros; lia.
Qed.

Lemma emit_all_nil {A} (p : Pairs A) : emit_all [] p = p.
Proof. destruct p. unfold emit_all. simpl. now rewrite !app_nil_r. Qed.

Lemma emit_all_app {A} (a b : list (A * A)) (p : Pairs A) :
  emit_all b (emit_all a p) = emit_all (a ++ b) p.
Proof. unfold emit_all. simpl. now rewrite !map_app, !app_assoc. Qed.

(** A loop whose body emits pairs emits the pairs of all its rounds. *)
Lemma for_each_emit {A X} (g : X -> list (A * A)) (xs : list X)
    (body : X -> Pairs A -> Result (Pairs A)) (p : Pairs A) :
  (forall x q, In x xs -> body x q = Ok (emit_all (g x) q)) ->
  for_each xs body p = Ok (emit_all (flat_map g xs) p).
Proof.
  revert p. induction xs as [|x xs IH]; intros p H.
  - simpl. now rewrite emit_all_nil.
  - cbn [for_each flat_map]. rewrite H by now left. cbn [bind].
    rewrite IH by (intros; apply H; now right). now rewrite emit_all_app.
Qed.

Lemma py_getitem_nth_default {A} (l : list A) (i : nat) (d : A) :
  (i < length l)%nat -> py_getitem l (Z.of_nat i) = Ok (nth i l d).
Proof.
  intros H. apply py_getitem_nth. now apply nth_error_nth'.
Qed.

Lemma window_step_pairs {A} (padded : list A) (w : nat) (direction : string)
    (d : A) (i j : nat) (p : Pairs A) :
  (i < length padded)%nat -> (1 <= j <= w)%nat ->
  window_step padded (Z.of_nat w) direction (Z.of_nat i) (Z.of_nat j) p
  = Ok (emit_all (pairs_at padded w direction d i j) p).
Proof.
  intros Hi Hj. unfold window_step, pairs_at, len.
  assert (G : forall k, (k < length padded)%nat ->
                        py_getitem padded (Z.of_nat k) = Ok (nth k padded d))
    by (intros; now apply py_getitem_nth_default).
  destruct (String.eqb direction "both").
  - destruct (Z.leb_spec 0 (Z.of_nat i - Z.of_nat j)) as [H1|H1];
      destruct (Nat.leb_spec j i) as [H1'|H1']; try lia;
      destruct (Z.ltb_spec (Z.of_nat i + Z.of_nat j) (Z.of_nat (length padded)))
        as [H2|H2];
      destruct (Nat.ltb_spec (i + j) (length padded)) as [H2'|H2']; try lia;
      rewrite ?(G i) by lia; cbn [bind];
      try (replace (Z.of_nat i - Z.of_nat j) with (Z.of_nat (i - j)) by lia);
      replace (Z.of_nat i + Z.of_nat j) with (Z.of_nat (i + j)) by lia;
      rewrite ?(G (i - j)%nat) by lia; cbn [bind];
      rewrite ?(G (i + j)%nat) by lia; cbn [bind];
      unfold emit_all, emit; destruct p; cbn; rewrite ?app_nil_r, <- ?app_assoc;
      reflexivity.
  - destruct (String.eqb direction "forward").
    + destruct (Z.ltb_spec (Z.of_nat i + Z.of_nat w) (Z.of_nat (length padded)))
        as [H2|H2];
        destruct (Nat.ltb_spec (i + w) (length padded)) as [H2'|H2']; try lia.
      * rewrite (G i) by lia. cbn [bind].
        replace (Z.of_nat i + Z.of_nat j) with (Z.of_nat (i + j)) by lia.
        rewrite (G (i + j)%nat) by lia. reflexivity.
      * now rewrite emit_all_nil.
    + destruct (Z.ltb_spec (Z.of_nat i) (Z.of_nat (length padded) - Z.of_nat w))
        as [H2|H2];
        destruct (Nat.ltb_spec (i + w) (length padded)) as [H2'|H2']; try lia.
      * replace (Z.of_nat i + Z.of_nat j - 1) with (Z.of_nat (i + j - 1)) by lia.
        replace (Z.of_nat i + Z.of_nat w) with (Z.of_nat (i + w)) by lia.
        rewrite (G (i + j - 1)%nat) by lia. cbn [bind].
        rewrite (G (i + w)%nat) by lia. reflexivity.
      * now rewrite emit_all_nil.
Qed.

(** [create_windowed_index_list] as the list of pairs of [window_pairs]. *)
Lemma windowed_as_pairs {A} (l : list A) (ws : Z) (dir : string) (pad : A) :
  ws <> 0 ->
  create_windowed_index_list l ws dir pad
  = Ok (map fst (window_pairs
                   (if String.eqb dir "backward"
                    then repeat pad (Z.to_nat ws) ++ l
                    else l ++ repeat pad (Z.to_nat ws))
                   (Z.to_nat ws) dir pad),
        map snd (window_pairs
                   (if String.eqb dir "backward"
                    then repeat pad (Z.to_nat ws) ++ l
                    else l ++ repeat pad (Z.to_nat ws))
                   (Z.to_nat ws) dir pad)).
Proof.
  intros Hws.
  set (padded := if String.eqb dir "backward"
                 then repeat pad (Z.to_nat ws) ++ l
                 else l ++ repeat pad (Z.to_nat ws)).
  unfold create_windowed_index_list.
  destruct (Z.eqb_spec ws 0) as [|_]; [contradiction|].
  unfold py_repeat. fold padded.
  unfold len. rewrite range_0, for_each_map.
  rewrite (for_each_emit
             (fun i => flat_map (pairs_at padded (Z.to_nat ws) dir pad i)
                                (seq 1 (Z.to_nat ws)))).
  - reflexivity.
  - intros i q Hi. apply in_seq in Hi.
    rewrite range_from_1, for_each_map.
    apply for_each_emit. intros j q' Hj. apply in_seq in Hj.
    replace ws with (Z.of_nat (Z.to_nat ws)) at 1 by lia.
    apply window_step_pairs; lia.
Qed.

(** X2: for every index list, direction and pad index, and every
    [window_size] other than 0, [create_windowed_index_list] returns: the
    guards keep every index inside the padded list, so no [IndexError] is
    raised. The two lists it returns are the centres and the contexts of one
    list of pairs, so they have the same length. *)
Theorem create_windowed_index_list_pairs :
  forall (A : Type) (index_list : list A) (window_size : Z)
         (direction : string) (pad_index : A),
    window_size <> 0 ->
    exists pairs : list (A * A),
      create_windowed_index_list index_list window_size direction pad_index
      = Ok (map fst pairs, map snd pairs)
      /\ length (map fst pairs) = length (map snd pairs).
Proof.
  intros A l ws dir pad Hws. eexists. split.
  - now apply windowed_as_pairs.
  - now rewrite !length_map.
Qed.

Lemma create_windowed_index_list_pairs_witness :
  exists pairs : list (Z * Z),
    create_windowed_index_list [1; 2; 3] 2 "backward" 0
    = Ok (map fst pairs, map snd pairs)
    /\ length (map fst pairs) = length (map snd pairs).
Proof.
  assert (H : 2 <> 0) by lia.
  exact (create_windowed_index_list_pairs Z [1; 2; 3] 2 "backward" 0 H).
Defined.

Lemma flat_map_nil {X Y} (g : X -> list Y) (xs : list X) :
  (forall x, In x xs -> g x = []) -> flat_map g xs = [].
Proof.
  induction xs as [|x xs IH]; intros H; simpl; [reflexivity|].
  rewrite (H x) by now left. apply IH. intros; apply H; now right.
Qed.

Lemma flat_map_singletons {X Y} (g : X -> list Y) (f : X -> Y) (xs : list X) :
  (forall x, In x xs -> g x = [f x]) -> flat_map g xs = map f xs.
Proof.
  induction xs as [|x xs IH]; intros H; simpl; [reflexivity|].
  rewrite (H x) by now left. simpl. f_equal. apply IH. intros; apply H; now right.
Qed.

Lemma flat_map_ext_in {X Y} (g h : X -> list Y) (xs : list X) :
  (forall x, In x xs -> g x = h x) -> flat_map g xs = flat_map h xs.
Proof.
  induction xs as [|x xs IH]; intros H; simpl; [reflexivity|].
  rewrite (H x) by now left. f_equal. apply IH. intros; apply H; now right.
Qed.

Lemma map_flat_map {X Y W} (f : Y -> W) (g : X -> list Y) (xs : list X) :
  map f (flat_map g xs) = flat_map (fun x => map f (g x)) xs.
Proof.
  induction xs as [|x xs IH]; simpl; [reflexivity|]. now rewrite map_app, IH.
Qed.

Lemma map_constant {X Y} (y : Y) (xs : list X) :
  map (fun _ => y) xs = repeat y (length xs).
Proof. induction xs as [|x xs IH]; simpl; [reflexivity | now rewrite IH]. Qed.

(** The window of [k] elements of [l] from position [s]. *)
Lemma window_by_nth {A} (l : list A) (d : A) (s k : nat) :
  (s + k <= length l)%nat ->
  map (fun j => nth (s + j) l d) (seq 0 k) = firstn k (skipn s l).
Proof.
  intros H. apply (nth_ext _ _ d d).
  - rewrite length_map, length_seq, length_firstn, length_skipn. lia.
  - intros n Hn. rewrite length_map, length_seq in Hn.
    rewrite nth_firstn. destruct (Nat.ltb_spec n k); [|lia].
    rewrite nth_skipn.
    rewrite (nth_indep _ d (nth (s + 0) l d))
      by (rewrite length_map, length_seq; lia).
    rewrite (map_nth (fun j => nth (s + j) l d)), seq_nth by lia.
    reflexivity.
Qed.

Lemma flat_map_positions {A Y} (f : A -> list Y) (l : list A) (d : A) :
  flat_map (fun i => f (nth i l d)) (seq 0 (length l)) = flat_map f l.
Proof.
  transitivity (flat_map f (map (fun i => nth i l d) (seq 0 (length l)))).
  - rewrite !flat_map_concat_map, map_map. reflexivity.
  - f_equal. apply (nth_ext _ _ d d).
    + now rewrite length_map, length_seq.
    + intros n Hn. rewrite length_map, length_seq in Hn.
      rewrite (nth_indep _ d (nth 0 l d)) by (rewrite length_map, length_seq; lia).
      rewrite (map_nth (fun i => nth i l d)), seq_nth by lia. reflexivity.
Qed.

(** X3: only a [window_size] of 0 is refused. With a negative one nothing is
    padded, the inner loop is empty, and the call returns two empty lists
    whatever the index list and the direction. *)
Theorem create_windowed_index_list_negative :
  forall (A : Type) (index_list : list A) (window_size : Z)
         (direction : string) (pad_index : A),
    window_size < 0 ->
    create_windowed_index_list index_list window_size direction pad_index
    = Ok ([], []).
Proof.
  intros A l ws dir pad H. rewrite windowed_as_pairs by lia.
  replace (Z.to_nat ws) with 0%nat by lia. unfold window_pairs.
  rewrite flat_map_nil; [reflexivity|]. reflexivity.
Qed.

Lemma create_windowed_index_list_negative_witness :
  create_windowed_index_list [1; 2; 3] (-2) "both" 0 = Ok ([], []).
Proof.
  apply create_windowed_index_list_negative. lia.
Defined.

Lemma seq_split (n w : nat) : seq 0 (n + w) = seq 0 n ++ seq n w.
Proof. apply seq_app. Qed.

(** The pairs of the modes other than "both", position by position. *)
Lemma window_pairs_one_sided {A} (padded : list A) (w n : nat) (dir : string)
    (d : A) (f : nat -> nat -> A * A) :
  length padded = (n + w)%nat ->
  (forall i j, (i + w < n + w)%nat -> (1 <= j <= w)%nat ->
               pairs_at padded w dir d i j = [f i j]) ->
  (forall i j, ~ (i + w < n + w)%nat -> pairs_at padded w dir d i j = []) ->
  window_pairs padded w dir d
  = flat_map (fun i => map (f i) (seq 1 w)) (seq 0 n).
Proof.
  intros L Hin Hout. unfold window_pairs. rewrite L, seq_split, flat_map_app.
  rewrite (flat_map_nil _ (seq n w)).
  - rewrite app_nil_r. apply flat_map_ext_in. intros i Hi. apply in_seq in Hi.
    apply flat_map_singletons. intros j Hj. apply in_seq in Hj.
    apply Hin; lia.
  - intros i Hi. apply in_seq in Hi. apply flat_map_nil. intros j _.
    apply Hout. lia.
Qed.

(** X4: in "forward" mode with a positive [window_size] [w], every index is
    a centre [w] times, in order, and its contexts are the [w] elements that
    follow it in the end-padded list; the pad positions are no centres. So
    there are [len(index_list) * w] pairs. *)
Theorem create_windowed_index_list_forward :
  forall (A : Type) (index_list : list A) (window_size : Z) (pad_index : A),
    1 <= window_size ->
    let w := Z.to_nat window_size in
    let padded := index_list ++ repeat pad_index w in
    create_windowed_index_list index_list window_size "forward" pad_index
    = Ok (flat_map (fun a => repeat a w) index_list,
          flat_map (fun i => firstn w (skipn (S i) padded))
                   (seq 0 (length index_list)))
    /\ length (flat_map (fun a => repeat a w) index_list)
       = (length index_list * w)%nat.
Proof.
  intros A l ws pad Hws w padded. split.
  - rewrite windowed_as_pairs by lia. fold w. cbn [String.eqb Ascii.eqb Bool.eqb].
    fold padded.
    assert (L : length padded = (length l + w)%nat)
      by (unfold padded; now rewrite length_app, repeat_length).
    rewrite (window_pairs_one_sided padded w (length l) "forward" pad
               (fun i j => (nth i padded pad, nth (i + j) padded pad)) L).
    + rewrite !map_flat_map. do 2 f_equal.
      * rewrite <- (flat_map_positions (fun a => repeat a w) l pad).
        apply flat_map_ext_in. intros i Hi. apply in_seq in Hi.
        rewrite map_map. cbn [fst]. rewrite map_constant, length_seq.
        unfold padded. now rewrite app_nth1 by lia.
      * apply flat_map_ext_in. intros i Hi. apply in_seq in Hi.
        rewrite map_map. cbn [snd].
        rewrite <- seq_shift, map_map.
        rewrite <- (window_by_nth padded pad (S i) w) by lia.
        apply map_ext. intros j. f_equal. lia.
    + intros i j Hi Hj. unfold pairs_at. cbn [String.eqb Ascii.eqb Bool.eqb].
      rewrite L. now destruct (Nat.ltb_spec (i + w) (length l + w)); [|lia].
    + intros i j Hi. unfold pairs_at. cbn [String.eqb Ascii.eqb Bool.eqb].
      rewrite L. now destruct (Nat.ltb_spec (i + w) (length l + w)); [lia|].
  - induction l as [|a l IH]; simpl; [reflexivity|].
    rewrite length_app, repeat_length, IH. reflexivity.
Qed.

Lemma create_windowed_index_list_forward_witness :
  create_windowed_index_list [1; 2; 3] 2 "forward" 0
  = Ok ([1; 1; 2; 2; 3; 3], [2; 3; 3; 0; 0; 0]).
Proof.
  assert (H : 1 <= 2) by lia.
  exact (proj1 (create_windowed_index_list_forward Z [1; 2; 3] 2 0 H)).
Defined.

(** X5: in every mode other than "both" and "forward" (so for "backward",
    for any other string and for no direction at all), with a positive
    [window_size] [w], the [i]-th group of [w] pairs has as centres the [w]
    elements of the padded list from position [i] on and as context, [w]
    times, the element at position [i + w]. With "backward" the list is
    padded in front, so the contexts are the indices themselves, each [w]
    times, and the centres the [w] elements before them; with any other
    direction it is padded at the end and the context of a window is the
    element after it. *)
Theorem create_windowed_index_list_backward :
  forall (A : Type) (index_list : list A) (window_size : Z)
         (direction : string) (pad_index : A),
    1 <= window_size ->
    direction <> "both" ->
    direction <> "forward" ->
    let w := Z.to_nat window_size in
    let padded := if String.eqb direction "backward"
                  then repeat pad_index w ++ index_list
                  else index_list ++ repeat pad_index w in
    create_windowed_index_list index_list window_size direction pad_index
    = Ok (flat_map (fun i => firstn w (skipn i padded))
                   (seq 0 (length index_list)),
          flat_map (fun i => repeat (nth (i + w) padded pad_index) w)
                   (seq 0 (length index_list)))
    /\ (direction = "backward" ->
        flat_map (fun i => repeat (nth (i + w) padded pad_index) w)
                 (seq 0 (length index_list))
        = flat_map (fun a => repeat a w) index_list).
Proof.
  intros A l ws dir pad Hws Nb Nf w padded.
  apply String.eqb_neq in Nb, Nf.
  assert (L : length padded = (length l + w)%nat).
  { unfold padded. destruct (String.eqb dir "backward");
      rewrite length_app, repeat_length; lia. }
  split.
  - rewrite windowed_as_pairs by lia. fold w. fold padded.
    rewrite (window_pairs_one_sided padded w (length l) dir pad
               (fun i j => (nth (i + j - 1) padded pad,
                            nth (i + w) padded pad)) L).
    + rewrite !map_flat_map. do 2 f_equal.
      * apply flat_map_ext_in. intros i Hi. apply in_seq in Hi.
        rewrite map_map. cbn [fst]. rewrite <- seq_shift, map_map.
        rewrite <- (window_by_nth padded pad i w) by lia.
        apply map_ext. intros j. f_equal. lia.
      * apply flat_map_ext_in. intros i Hi.
        rewrite map_map. cbn [snd]. now rewrite map_constant, length_seq.
    + intros i j Hi Hj. unfold pairs_at. rewrite Nb, Nf, L.
      now destruct (Nat.ltb_spec (i + w) (length l + w)); [|lia].
    + intros i j Hi. unfold pairs_at. rewrite Nb, Nf, L.
      now destruct (Nat.ltb_spec (i + w) (length l + w)); [lia|].
  - intros ->. unfold padded. cbn [String.eqb Ascii.eqb Bool.eqb].
    rewrite <- (flat_map_positions (fun a => repeat a w) l pad).
    apply flat_map_ext_in. intros i Hi. f_equal.
    rewrite app_nth2 by (rewrite repeat_length; lia).
    rewrite repeat_length. f_equal. lia.
Qed.

Lemma create_windowed_index_list_backward_witness :
  create_windowed_index_list [1; 2; 3] 2 "backward" 0
  = Ok ([0; 0; 0; 1; 1; 2], [1; 1; 2; 2; 3; 3])
  /\ create_windowed_index_list [1; 2; 3] 2 "" 0
     = Ok ([1; 2; 2; 3; 3; 0], [3; 3; 0; 0; 0; 0]).
Proof.
  assert (H : 1 <= 2) by lia.
  split.
  - refine (proj1 (create_windowed_index_list_backward Z [1; 2; 3] 2
                     "backward" 0 H _ _)); discriminate.
  - refine (proj1 (create_windowed_index_list_backward Z [1; 2; 3] 2
                     "" 0 H _ _)); discriminate.
Defined.

(** ** Index lists *)

Lemma nth_error_removelast {A} (l : list A) (i : nat) (a : A) :
  nth_error (removelast l) i = Some a -> nth_error l i = Some a.
Proof.
  rewrite removelast_firstn_len, nth_error_firstn.
  now destruct (i <? Nat.pred (length l))%nat.
Qed.

(** X6: without a window, [create_index_list] pairs every index with its
    successor: [x] is the index list without its last element and [y] the
    index list without its first, of the same length, so that position [i]
    of [y] is the index that follows position [i] of [x]. And a lookup
    error of the indexer comes first: it is raised whatever [window_size]
    is, a [window_size] of 0 included. *)
Theorem create_index_list_next :
  forall (flattened_list : list token) (d : dict nat)
         (unknown : option token) (window_direction : option string),
    (forall il,
        create_simple_index_list flattened_list d unknown = Ok il ->
        create_index_list flattened_list d unknown None window_direction
        = Ok (removelast il, tl il, il)
        /\ length (removelast il) = length (tl il)
        /\ forall i a b,
             nth_error (removelast il) i = Some a ->
             nth_error (tl il) i = Some b ->
             nth_error il i = Some a /\ nth_error il (S i) = Some b)
    /\ (forall e window_size,
          create_simple_index_list flattened_list d unknown = Raise e ->
          create_index_list flattened_list d unknown window_size
                            window_direction
          = Raise e).
Proof.
  intros fl d unknown dir. split.
  - intros il E. unfold create_index_list. rewrite E. cbn [bind].
    rewrite py_slice_but_last, py_slice_from_1.
    split; [reflexivity|]. split.
    + rewrite removelast_firstn_len, length_firstn, length_tl. lia.
    + intros i a b Ha Hb. split.
      * now apply nth_error_removelast.
      * now rewrite <- nth_error_tl.
  - intros e ws E. unfold create_index_list. now rewrite E.
Qed.

Lemma create_index_list_next_witness :
  create_index_list ["a"; "b"; "z"; "a"]
                    [("<UNK>", 0%nat); ("a", 1%nat); ("b", 2%nat)]
                    (Some "<UNK>") None None
  = Ok ([1; 2; 0]%nat, [2; 0; 1]%nat, [1; 2; 0; 1]%nat)
  /\ create_index_list ["a"; "z"] [("a", 1%nat)] None (Some 0) None
     = Raise (KeyError None).
Proof.
  split.
  - exact (proj1 (proj1 (create_index_list_next ["a"; "b"; "z"; "a"]
                           [("<UNK>", 0%nat); ("a", 1%nat); ("b", 2%nat)]
                           (Some "<UNK>") None)
                        [1; 2; 0; 1]%nat eq_refl)).
  - exact (proj2 (create_index_list_next ["a"; "z"] [("a", 1%nat)] None None)
                 (KeyError None) (Some 0) eq_refl).
Defined.

(** ** Chunks *)

(** X7: [n] indices give [n - 1] chunks for every chunk length of 3 or
    more, the left padding making up for the longer window, and none when
    there are fewer than two indices; consecutive chunks overlap in all but
    one element: the next chunk is the chunk without its first element
    followed by the next index of the list. *)
Theorem create_sequence_lists_count :
  forall (A : Type) (index_list : list A) (L : Z) (pad_index : A),
    3 <= L ->
    length (create_sequence_lists index_list L pad_index)
    = (length index_list - 1)%nat
    /\ forall k chunk next,
         nth_error (create_sequence_lists index_list L pad_index) k
         = Some chunk ->
         nth_error (create_sequence_lists index_list L pad_index) (S k)
         = Some next ->
         exists a, nth_error index_list (k + 2) = Some a
                   /\ next = tl chunk ++ [a].
Proof.
  intros A l L pad HL.
  rewrite create_sequence_lists_windows by lia.
  set (padded := repeat pad (Z.to_nat (L - 2)) ++ l).
  assert (Lp : length padded = (Z.to_nat (L - 2) + length l)%nat)
    by (unfold padded; now rewrite length_app, repeat_length).
  split.
  - rewrite length_map, length_seq. lia.
  - intros k chunk next Hk Hn.
    rewrite nth_error_map, nth_error_seq in Hk, Hn.
    destruct (Nat.ltb_spec (S k) (length padded + 1 - Z.to_nat L)); [|discriminate].
    destruct (Nat.ltb_spec k (length padded + 1 - Z.to_nat L)); [|lia].
    rewrite Nat.add_0_l in Hk, Hn. cbn [option_map] in Hk, Hn.
    assert (Ec : chunk = firstn (Z.to_nat L) (skipn k padded)) by congruence.
    assert (En : next = firstn (Z.to_nat L) (skipn (S k) padded)) by congruence.
    subst chunk next. clear Hk Hn.
    destruct (nth_error l (k + 2)) as [a|] eqn:Ha;
      [|apply nth_error_None in Ha; lia].
    exists a. split; [reflexivity|].
    assert (Hp : nth_error padded (S k + (Z.to_nat L - 1)) = Some a).
    { unfold padded. rewrite nth_error_app2 by (rewrite repeat_length; lia).
      rewrite repeat_length, <- Ha. f_equal. lia. }
    replace (Z.to_nat L) with (S (Z.to_nat L - 1)) at 1 by lia.
    rewrite <- nth_error_skipn in Hp.
    rewrite (firstn_snoc _ _ _ Hp).
    replace (Z.to_nat L) with (S (Z.to_nat L - 1)) by lia.
    destruct (skipn k padded) as [|b rest] eqn:Es.
    + apply (f_equal (@length A)) in Es. rewrite length_skipn in Es.
      simpl in Es. lia.
    + cbn [firstn tl].
      assert (Es' : skipn (S k) padded = rest).
      { replace (S k) with (1 + k)%nat by lia.
        now rewrite <- skipn_skipn, Es. }
      rewrite Es'. do 2 f_equal. lia.
Qed.

Lemma create_sequence_lists_count_witness :
  length (create_sequence_lists [1; 2; 3; 4] 4 0) = 3%nat.
Proof.
  assert (H : 3 <= 4) by lia.
  exact (proj1 (create_sequence_lists_count Z [1; 2; 3; 4] 4 0 H)).
Defined.

(** ** Batches *)

Lemma row_step_nonempty {A} (bs : Z) (c : list A) (b : Batches (list A)) :
  c <> [] -> exists b', row_step bs c b = Ok b'.
Proof.
  intros H. unfold row_step.
  destruct c as [|a c]; [contradiction|].
  rewrite (py_getitem_last_of (a :: c) a) by discriminate. cbn [bind].
  destruct (_ =? _); eexists; reflexivity.
Qed.

Lemma row_loop_nonempty {A} (bs : Z) (chunks : list (list A))
    (b : Batches (list A)) :
  Forall (fun c => c <> []) chunks ->
  exists b', for_each chunks (row_step bs) b = Ok b'.
Proof.
  intros H. revert b. induction H as [|c chunks Hc _ IH]; intros b.
  - now exists b.
  - destruct (row_step_nonempty bs c b Hc) as [b1 E1].
    destruct (IH b1) as [b' E']. exists b'. cbn [for_each]. now rewrite E1.
Qed.

(** X8: when [sequence_length] is not 1, an empty chunk makes
    [create_batches] raise [IndexError] (its last element is taken), whatever
    comes after it; the chunks before it do not raise. *)
Theorem create_batches_empty_chunk :
  forall (A : Type) (before after : list (list A))
         (batch_size sequence_length : Z) (pad_index : A),
    sequence_length <> 1 ->
    Forall (fun c => c <> []) before ->
    create_batches (before ++ [] :: after) batch_size sequence_length pad_index
    = Raise IndexError.
Proof.
  intros A before after bs L pad HL Hb. unfold create_batches.
  destruct (Z.eqb_spec L 1) as [|_]; [contradiction|].
  rewrite for_each_app.
  destruct (row_loop_nonempty bs before no_batches Hb) as [b1 E1].
  rewrite E1. reflexivity.
Qed.

Lemma create_batches_empty_chunk_witness :
  create_batches [[1; 2; 3]; []; [4; 5; 6]] 2 2 0 = Raise IndexError.
Proof.
  apply (create_batches_empty_chunk Z [[1; 2; 3]] [[4; 5; 6]] 2 2 0).
  - lia.
  - repeat constructor. discriminate.
Defined.

(** With a [batch_size] that is not positive no batch is ever closed in the
    loop. *)
Lemma row_step_never_full {A} (bs : Z) (d : A) (c : list A)
    (b : Batches (list A)) :
  bs <= 0 -> c <> [] ->
  row_step bs c b = Ok (append_rows (removelast c) [last c d] (tl c) b).
Proof.
  intros Hbs Hc. unfold row_step.
  rewrite (py_getitem_last_of c d Hc). cbn [bind].
  rewrite py_slice_but_last, py_slice_from_1.
  destruct (Z.eqb_spec
              (len (current_batch_x
                      (append_rows (removelast c) [last c d] (tl c) b))) bs)
    as [E|_]; [|reflexivity].
  unfold len, append_rows in E. cbn [current_batch_x] in E.
  rewrite length_app in E. simpl in E. lia.
Qed.

Lemma row_loop_never_full {A} (bs : Z) (d : A) (chunks : list (list A))
    (b : Batches (list A)) :
  bs <= 0 -> Forall (fun c => c <> []) chunks ->
  for_each chunks (row_step bs) b
  = Ok (mkBatches (x_batches b) (y_batches b) (y_window_batches b)
          (current_batch_x b ++ map (@removelast A) chunks)
          (current_batch_y b ++ map (fun c => [last c d]) chunks)
          (current_batch_y_window b ++ map (@tl A) chunks)).
Proof.
  intros Hbs H. revert b. induction H as [|c chunks Hc _ IH]; intros b.
  - simpl. rewrite !app_nil_r. now destruct b.
  - cbn [for_each]. rewrite (row_step_never_full bs d) by assumption.
    cbn [bind]. rewrite IH. unfold append_rows. cbn.
    now rewrite <- !app_assoc.
Qed.

(** X9: when [sequence_length] is not 1 and [batch_size] is 0 or negative,
    [create_batches] neither splits nor pads: all the rows come back in one
    batch, of as many rows as there are chunks. *)
Theorem create_batches_nonpositive_batch_size :
  forall (A : Type) (c : list A) (chunks : list (list A))
         (batch_size sequence_length : Z) (pad_index : A),
    sequence_length <> 1 ->
    batch_size <= 0 ->
    Forall (fun c => c <> []) (c :: chunks) ->
    create_batches (c :: chunks) batch_size sequence_length pad_index
    = Ok ([map (@removelast A) (c :: chunks)],
          [map (fun c => [last c pad_index]) (c :: chunks)],
          [map (@tl A) (c :: chunks)]).
Proof.
  intros A c chunks bs L pad HL Hbs H. unfold create_batches.
  destruct (Z.eqb_spec L 1) as [|_]; [contradiction|].
  rewrite (row_loop_never_full bs pad) by assumption. cbn [bind].
  cbn [no_batches current_batch_x x_batches y_batches y_window_batches
       current_batch_y current_batch_y_window app map].
  replace (Z.to_nat bs) with 0%nat by lia. reflexivity.
Qed.

Lemma create_batches_nonpositive_batch_size_witness :
  create_batches [[1; 2; 3]; [4; 5; 6]; [7; 8; 9]] 0 2 0
  = Ok ([[[1; 2]; [4; 5]; [7; 8]]], [[[3]; [6]; [9]]],
        [[[2; 3]; [5; 6]; [8; 9]]]).
Proof.
  apply (create_batches_nonpositive_batch_size Z [1; 2; 3]
           [[4; 5; 6]; [7; 8; 9]] 0 2 0); try lia.
  repeat constructor; discriminate.
Defined.

(** The rows and batches of the branch for [sequence_length] other than 1,
    for chunks of one length; a [sequence_length] of 0, with chunks of one
    element, is covered. *)
Lemma create_batches_rows :
  forall (A : Type) (sequence_list : list (list A))
         (batch_size sequence_length : Z) (pad_index : A),
    sequence_length <> 1 ->
    0 <= sequence_length ->
    1 <= batch_size ->
    Forall (fun c => len c = sequence_length + 1) sequence_list ->
    exists xb yb ywb p,
      create_batches sequence_list batch_size sequence_length pad_index
      = Ok (xb, yb, ywb)
      /\ List.concat xb
         = map (@removelast A) sequence_list
           ++ repeat (repeat pad_index (Z.to_nat sequence_length)) p
      /\ List.concat yb
         = map (fun c => [last c pad_index]) sequence_list
           ++ repeat [pad_index] p
      /\ List.concat ywb
         = map (@tl A) sequence_list
           ++ repeat (repeat pad_index (Z.to_nat sequence_length)) p
      /\ Z.of_nat p < batch_size
      /\ length xb = length yb
      /\ length yb = length ywb
      /\ Forall (fun b => len b = batch_size) xb
      /\ Forall (fun b => len b = batch_size) yb
      /\ Forall (fun b => len b = batch_size) ywb
      /\ Forall (Forall (fun r => len r = sequence_length)) xb
      /\ Forall (Forall (fun r => len r = 1)) yb
      /\ Forall (Forall (fun r => len r = sequence_length)) ywb.
Proof.
  intros A chunks bs L pad HL HL0 Hbs Hchunks.
  assert (Hne : Forall (fun c : list A => c <> []) chunks).
  { eapply Forall_impl; [|exact Hchunks]. intros c Hc E. subst c.
    unfold len in Hc. simpl in Hc. lia. }
  assert (I0 : RowInv bs pad [] (@no_batches (list A))).
  { constructor; simpl; auto. unfold len. simpl. lia. }
  destruct (row_loop_inv bs pad chunks [] no_batches Hbs Hne I0) as [b [R I]].
  simpl app in I.
  assert (final :
    exists xb yb ywb p,
      create_batches chunks bs L pad = Ok (xb, yb, ywb)
      /\ List.concat xb = map (@removelast A) chunks
                          ++ repeat (repeat pad (Z.to_nat L)) p
      /\ List.concat yb = map (fun c => [last c pad]) chunks ++ repeat [pad] p
      /\ List.concat ywb = map (@tl A) chunks
                           ++ repeat (repeat pad (Z.to_nat L)) p
      /\ Z.of_nat p < bs
      /\ length xb = length yb
      /\ length yb = length ywb
      /\ Forall (fun b => len b = bs) xb
      /\ Forall (fun b => len b = bs) yb
      /\ Forall (fun b => len b = bs) ywb).
  { unfold create_batches.
    destruct (Z.eqb_spec L 1) as [|_]; [contradiction|].
    rewrite R. cbn [bind].
    destruct I as [Ix Iy Iw Ifx Ify Ifw Icy Icw Iry Irw Iopen].
    destruct (current_batch_x b) as [|r cur] eqn:Ecur.
    - exists (x_batches b), (y_batches b), (y_window_batches b), 0%nat.
      destruct (current_batch_y b); [|discriminate].
      destruct (current_batch_y_window b); [|discriminate].
      rewrite !app_nil_r in *.
      repeat split; auto; lia.
    - rewrite pad_batch_rows by (unfold len; lia). rewrite Ecur.
      unfold close_batch.
      cbn [current_batch_x current_batch_y current_batch_y_window x_batches
           y_batches y_window_batches].
      set (p := Z.to_nat (bs - len (r :: cur))).
      assert (Hp : Z.of_nat p + len (r :: cur) = bs) by (unfold p; lia).
      exists (x_batches b ++ [(r :: cur) ++ repeat (py_repeat pad L) p]),
             (y_batches b ++ [current_batch_y b ++ repeat [pad] p]),
             (y_window_batches b
              ++ [current_batch_y_window b ++ repeat (py_repeat pad L) p]),
             p.
      rewrite !concat_snoc, !app_assoc, Ix, Iy, Iw. unfold py_repeat.
      repeat split; auto.
      + unfold len in Hp. simpl length in Hp. lia.
      + rewrite !length_app. simpl. lia.
      + rewrite !length_app. simpl. lia.
      + apply Forall_app. split; [assumption|]. repeat constructor.
        unfold len in *. rewrite length_app, repeat_length. lia.
      + apply Forall_app. split; [assumption|]. repeat constructor.
        unfold len in *. rewrite length_app, repeat_length. lia.
      + apply Forall_app. split; [assumption|]. repeat constructor.
        unfold len in *. rewrite length_app, repeat_length. lia. }
  destruct final as [xb [yb [ywb [p [R' [Cx [Cy [Cw [Hp [Lxy [Lyw [Fx [Fy Fw]]]]]]]]]]]]].
  exists xb, yb, ywb, p.
  repeat split; try assumption.
  - apply Forall_concat. rewrite Cx. apply Forall_app. split.
    + apply Forall_map. eapply Forall_impl; [|exact Hchunks].
      intros c Hc. unfold len in *.
      rewrite removelast_firstn_len, length_firstn. lia.
    + apply Forall_repeat. unfold len. rewrite repeat_length. lia.
  - apply Forall_concat. rewrite Cy. apply Forall_app. split.
    + apply Forall_map. apply Forall_forall. reflexivity.
    + apply Forall_repeat. reflexivity.
  - apply Forall_concat. rewrite Cw. apply Forall_app. split.
    + apply Forall_map. eapply Forall_impl; [|exact Hchunks].
      intros c Hc. unfold len in *. rewrite length_tl. lia.
    + apply Forall_repeat. unfold len. rewrite repeat_length. lia.
Qed.



(** The chunks of the sequence path: [sequence_length + 1] long windows of
    the list left-padded with [sequence_length - 1] pad indices. *)
Lemma sequence_chunks {A} (il : list A) (L : Z) (pad : A) :
  2 <= L ->
  create_sequence_lists il (L + 1) pad
  = map (fun i => firstn (S (Z.to_nat L))
                    (skipn i (repeat pad (Z.to_nat L - 1) ++ il)))
        (seq 0 (length il - 1)).
Proof.
  intros HL. rewrite create_sequence_lists_windows by lia.
  replace (Z.to_nat (L + 1 - 2)) with (Z.to_nat L - 1)%nat by lia.
  replace (Z.to_nat (L + 1)) with (S (Z.to_nat L)) by lia.
  f_equal. f_equal. rewrite length_app, repeat_length. lia.
Qed.



(** ** Batches of slices *)

Lemma py_slice_forward {A} (l : list A) (i j : Z) :
  0 <= i -> i <= j ->
  py_slice l i j = firstn (Z.to_nat (j - i)) (skipn (Z.to_nat i) l).
Proof.
  intros Hi Hij. unfold py_slice, slice_bound, len.
  destruct (Z.ltb_spec i 0); [lia|]. destruct (Z.ltb_spec j 0); [lia|].
  destruct (Z.le_gt_cases i (Z.of_nat (length l))) as [Hin|Hin].
  - rewrite (Z.min_l i) by lia.
    destruct (Z.le_gt_cases j (Z.of_nat (length l))) as [Hjn|Hjn].
    + now rewrite Z.min_l by lia.
    + rewrite Z.min_r by lia.
      rewrite !firstn_all2; [reflexivity | |]; rewrite length_skipn; lia.
  - rewrite !Z.min_r by lia. rewrite Z.sub_diag. simpl firstn.
    rewrite skipn_all2 by lia. now rewrite firstn_nil.
Qed.

Lemma firstn_add {A} (a b : nat) (l : list A) :
  firstn (a + b) l = firstn a l ++ firstn b (skipn a l).
Proof.
  revert l. induction a as [|a IH]; intros l; [reflexivity|].
  destruct l as [|x l]; simpl; [now rewrite firstn_nil|]. now rewrite IH.
Qed.

Lemma concat_slices {A} (l : list A) (b q : nat) :
  List.concat (map (fun k => firstn b (skipn (k * b) l)) (seq 0 q))
  = firstn (q * b) l.
Proof.
  induction q as [|q IH]; [reflexivity|].
  rewrite seq_S, map_app, concat_app, IH. cbn [map List.concat Nat.add].
  rewrite app_nil_r. replace (S q * b)%nat with (q * b + b)%nat by lia.
  now rewrite firstn_add.
Qed.

(** Cutting a list into slices of a positive length. *)
Lemma slice_batches_positive {A} (l : list A) (bs : Z) :
  1 <= bs ->
  exists rows,
    slice_batches l bs = Ok (map (fun r => [r]) rows)
    /\ List.concat rows = l
    /\ len rows = (len l + bs - 1) / bs
    /\ Forall (fun r => 1 <= len r <= bs) rows
    /\ forall k r, nth_error rows k = Some r ->
                   (S k < length rows)%nat -> len r = bs.
Proof.
  intros H. unfold slice_batches, range3.
  destruct (Z.eqb_spec bs 0) as [|_]; [lia|].
  destruct (Z.ltb_spec 0 bs) as [_|]; [|lia]. cbn [bind].
  set (n := length l). set (b := Z.to_nat bs).
  set (q := Z.to_nat ((len l - 0 + bs - 1) / bs)).
  assert (Hb : bs = Z.of_nat b) by (unfold b; lia).
  assert (Hq1 : (q * b <= n + b - 1)%nat /\ (n + b - 1 < (q + 1) * b)%nat).
  { pose proof (Z.mul_div_le (len l - 0 + bs - 1) bs ltac:(lia)) as U1.
    pose proof (Z.mul_succ_div_gt (len l - 0 + bs - 1) bs ltac:(lia)) as U2.
    assert (U0 : 0 <= (len l - 0 + bs - 1) / bs)
      by (apply Z.div_pos; unfold len; lia).
    unfold q, len in *. fold n in U0, U1, U2 |- *.
    set (Q := (Z.of_nat n - 0 + bs - 1) / bs) in *.
    rewrite Hb in U1, U2. split; nia. }
  destruct Hq1 as [Hq1 Hq2].
  exists (map (fun k => firstn b (skipn (k * b) l)) (seq 0 q)).
  split; [|split; [|split; [|split]]].
  + f_equal. rewrite !map_map. apply map_ext. intros k. f_equal.
    rewrite py_slice_forward by lia. f_equal; [lia|]. f_equal.
    rewrite Hb. rewrite <- Nat2Z.inj_mul. lia.
  + rewrite concat_slices. apply firstn_all2. fold n. nia.
  + unfold len. rewrite length_map, length_seq. unfold q.
    rewrite Z2Nat.id; [f_equal; unfold len; lia|].
    apply Z.div_pos; unfold len; lia.
  + apply Forall_map, Forall_forall. intros k Hk. apply in_seq in Hk.
    unfold len. rewrite length_firstn, length_skipn. fold n.
    assert ((k * b < n)%nat) by nia. lia.
  + intros k r Hk Hlt. rewrite length_map, length_seq in Hlt.
    rewrite nth_error_map, nth_error_seq in Hk.
    destruct (Nat.ltb_spec k q); [|lia]. cbn [option_map Nat.add] in Hk.
    assert (E : r = firstn b (skipn (k * b) l)) by congruence. subst r.
    unfold len. rewrite length_firstn, length_skipn. fold n.
    assert ((S k * b <= n)%nat) by nia. nia.
Qed.

(** X11: the batches of the pair path of [create_batched_sequence_lists].
    A [batch_size] of 0 raises [ValueError] (the step of [range]), a
    negative one silently gives no batch at all. With a positive one the
    list is cut into [ceil(n / batch_size)] one-row batches that concatenate
    back to the list: every row but the last has [batch_size] entries and
    the last has between 1 and [batch_size]; nothing is padded or dropped. *)
Theorem slice_batches_rows :
  forall (A : Type) (l : list A) (batch_size : Z),
    (batch_size = 0 ->
     slice_batches l batch_size
     = Raise (ValueError "range() arg 3 must not be zero"))
    /\ (batch_size < 0 -> slice_batches l batch_size = Ok [])
    /\ (1 <= batch_size ->
        exists rows,
          slice_batches l batch_size = Ok (map (fun r => [r]) rows)
          /\ List.concat rows = l
          /\ len rows = (len l + batch_size - 1) / batch_size
          /\ Forall (fun r => 1 <= len r <= batch_size) rows
          /\ forall k r, nth_error rows k = Some r ->
                         (S k < length rows)%nat -> len r = batch_size).
Proof.
  intros A l bs. unfold slice_batches, range3. split; [|split].
  - intros ->. reflexivity.
  - intros H. destruct (Z.eqb_spec bs 0) as [|_]; [lia|].
    destruct (Z.ltb_spec 0 bs) as [|_]; [lia|]. cbn [bind].
    assert (Q : (0 - len l - bs - 1) / - bs < 1).
    { apply Z.div_lt_upper_bound; unfold len; lia. }
    replace (Z.to_nat ((0 - len l - bs - 1) / - bs)) with 0%nat by lia.
    reflexivity.
  - intros H. exact (slice_batches_positive l bs H).
Qed.

Lemma slice_batches_rows_witness :
  slice_batches [1; 2; 3; 4; 5] 0
  = Raise (ValueError "range() arg 3 must not be zero")
  /\ slice_batches [1; 2; 3; 4; 5] (-2) = Ok []
  /\ exists rows,
       slice_batches [1; 2; 3; 4; 5] 2 = Ok (map (fun r => [r]) rows)
       /\ List.concat rows = [1; 2; 3; 4; 5]
       /\ len rows = (len [1; 2; 3; 4; 5] + 2 - 1) / 2.
Proof.
  split; [|split].
  - exact (proj1 (slice_batches_rows Z [1; 2; 3; 4; 5] 0) eq_refl).
  - apply (proj1 (proj2 (slice_batches_rows Z [1; 2; 3; 4; 5] (-2)))). lia.
  - assert (H : 1 <= 2) by lia.
    destruct (proj2 (proj2 (slice_batches_rows Z [1; 2; 3; 4; 5] 2)) H)
      as [rows [E [C [L _]]]].
    exists rows. repeat split; assumption.
Defined.

(** ** The batched sequence lists *)

Lemma map_result_ok {X Y} (f : X -> Result Y) (xs : list X) :
  Forall (fun x => exists y, f x = Ok y) xs ->
  exists ys, map_result f xs = Ok ys /\ length ys = length xs.
Proof.
  induction 1 as [|x xs [y E] _ [ys [R L]]].
  - exists []. now split.
  - exists (y :: ys). cbn [map_result]. rewrite E, R. cbn [bind].
    split; [reflexivity | simpl; now rewrite L].
Qed.

Lemma create_index_list_windowed (fl : list token) (d : dict nat)
    (unknown : option token) (ws : Z) (dir : option string) (il : list nat) :
  create_simple_index_list fl d unknown = Ok il -> ws <> 0 ->
  exists x y, create_index_list fl d unknown (Some ws) dir = Ok (x, y, il).
Proof.
  intros E Hws. unfold create_index_list. rewrite E. cbn [bind].
  rewrite windowed_as_pairs by exact Hws. cbn [bind fst snd].
  eexists _, _. reflexivity.
Qed.

Lemma sequence_chunks_length {A} (il : list A) (L : Z) (pad : A) :
  2 <= L ->
  Forall (fun c => len c = L + 1) (create_sequence_lists il (L + 1) pad).
Proof.
  intros HL. rewrite sequence_chunks by lia.
  apply Forall_map, Forall_forall. intros i Hi. apply in_seq in Hi.
  unfold len. rewrite length_firstn, length_skipn, length_app, repeat_length.
  lia.
Qed.

(** X12: [create_batched_sequence_lists] with [window_size = 1],
    [sequence_length >= 2] and a positive [batch_size] returns whenever the
    indexer does, provided that the tensor conversion accepts every batch
    whose rows have one length: the batches it converts are rectangular. It
    stores the index list of the flattened documents, and the three lists
    of tensors have the same length, [ceil((n - 1) / batch_size)] for [n]
    tokens. *)
Theorem create_batched_sequence_lists_sequences :
  forall (Tensor : Type) (torch_tensor : list (list nat) -> Result Tensor)
         (document_list : list nested) (window_direction : option string)
         (batch_size sequence_length : Z) (d : dict nat)
         (unknown : option token) (il : list nat),
    (forall b k, Forall (fun r => length r = k) b ->
                 exists t, torch_tensor b = Ok t) ->
    2 <= sequence_length ->
    1 <= batch_size ->
    create_simple_index_list (flatten_corpus_lists document_list) d unknown
    = Ok il ->
    exists lists xt yt ywt,
      create_batched_sequence_lists Tensor torch_tensor document_list (Some 1)
        window_direction batch_size sequence_length d unknown
      = Ok (lists, (xt, yt, ywt))
      /\ index_list lists = il
      /\ len xt = (Z.of_nat (length il - 1) + batch_size - 1) / batch_size
      /\ length yt = length xt
      /\ length ywt = length xt.
Proof.
  intros Tensor tt docs dir bs L d unknown il Ht HL Hbs E.
  destruct (create_index_list_windowed _ d unknown 1 dir il E ltac:(lia))
    as [x [y Ei]].
  unfold create_batched_sequence_lists. rewrite Ei.
  cbn [bind fst snd index_list Z.eqb Pos.eqb].
  destruct (create_batches_rows nat _ bs L 0%nat ltac:(lia) ltac:(lia) Hbs
              (sequence_chunks_length il L 0%nat HL))
    as [xb [yb [ywb [p [R [Cx [_ [_ [Hp [Lxy [Lyw [Fx [_ [_ [Rx [Ry Rw]]]]]]]]]]]]]]]].
  rewrite R. cbn [bind fst snd].
  assert (U : forall (k : Z) (bl : list (list (list nat))),
             Forall (Forall (fun r => len r = k)) bl ->
             Forall (fun b => exists t, tt b = Ok t) bl).
  { intros k bl H. eapply Forall_impl; [|exact H]. intros b Hb.
    apply (Ht b (Z.to_nat k)). eapply Forall_impl; [|exact Hb].
    intros r Hr. unfold len in Hr. lia. }
  destruct (map_result_ok tt xb (U _ _ Rx)) as [xt [Ex Lx]].
  destruct (map_result_ok tt yb (U _ _ Ry)) as [yt [Ey Ly]].
  destruct (map_result_ok tt ywb (U _ _ Rw)) as [ywt [Ew Lw]].
  rewrite Ex, Ey, Ew. cbn [bind].
  eexists _, xt, yt, ywt. split; [reflexivity|]. split; [reflexivity|].
  split; [|split; congruence].
  assert (Lc := length_concat_uniform bs _ Fx). rewrite Cx in Lc.
  rewrite sequence_chunks in Lc by lia.
  unfold len in *. rewrite length_app, !length_map, length_seq, repeat_length in Lc.
  rewrite Lx.
  apply (Z.div_unique_pos _ _ _ (bs - 1 - Z.of_nat p)); lia.
Qed.

Lemma create_batched_sequence_lists_sequences_witness :
  exists lists xt yt ywt,
    create_batched_sequence_lists (list (list nat)) (@Ok (list (list nat)))
      [Lst [Tok "a"; Tok "b"]; Lst [Tok "z"; Tok "a"; Tok "b"]] (Some 1)
      (Some "forward") 2 2
      [("<UNK>", 0%nat); ("a", 1%nat); ("b", 2%nat)] (Some "<UNK>")
    = Ok (lists, (xt, yt, ywt))
    /\ index_list lists = [1; 2; 0; 1; 2]%nat
    /\ len xt = (Z.of_nat (length [1; 2; 0; 1; 2]%nat - 1) + 2 - 1) / 2.
Proof.
  assert (H1 : 2 <= 2) by lia.
  assert (H2 : 1 <= 2) by lia.
  destruct (create_batched_sequence_lists_sequences (list (list nat))
              (@Ok (list (list nat)))
              [Lst [Tok "a"; Tok "b"]; Lst [Tok "z"; Tok "a"; Tok "b"]]
              (Some "forward") 2 2
              [("<UNK>", 0%nat); ("a", 1%nat); ("b", 2%nat)] (Some "<UNK>")
              [1; 2; 0; 1; 2]%nat
              (fun b _ _ => ex_intro _ b eq_refl) H1 H2 eq_refl)
    as [lists [xt [yt [ywt [E [I [C _]]]]]]].
  exists lists, xt, yt, ywt. repeat split; assumption.
Defined.

(** ** The vocabulary of any build *)

(** The include-list loop keeps the vocabulary invariant as long as no
    token of the vocabulary is in the filtered table. *)
Lemma include_loop_wf (inc : list token) (st : Included) :
  vocab_wf (inc_vocab st) ->
  (forall t, In t (vocab_list (inc_vocab st)) ->
             ~ In t (dict_keys (inc_filtered st))) ->
  vocab_wf (inc_vocab (fold_left include_step inc st)).
Proof.
  revert st. induction inc as [|t inc IH]; intros st W D; cbn [fold_left];
    [exact W|].
  apply IH.
  - unfold include_step. destruct (dict_mem t (inc_filtered st)) eqn:E;
      simpl; [|exact W].
    apply add_token_to_vocab_wf; [exact W|].
    apply dict_mem_false. rewrite (vocab_wf_keys _ W). intros H.
    apply (D t H). now apply dict_mem_keys.
  - unfold include_step. destruct (dict_mem t (inc_filtered st)) eqn:E;
      simpl; [|exact D].
    intros x Hx. rewrite dict_pop_keys. apply in_app_or in Hx as [Hx|Hx].
    + specialize (D x Hx). tauto.
    + destruct Hx as [<-|[]]. tauto.
Qed.

(** What a build that returns leaves in [vocab_list]: the unknown token when
    requested, the include-list tokens found in the filtered table, and a
    prefix [fill] of the remaining tokens [fill ++ rest]. *)
Lemma create_vocab_shape (c : Corpus) (vs : option Z) (inc exc : list token)
    (unk : bool) (missing : list token) :
  dict_wf (type_freq_dict c) ->
  snd (create_vocab vs inc exc unk c) = Ok missing ->
  let u := unknown_token_after "<UNK>" c in
  let first := if unk then [u] else [] in
  exists v added fill rest,
    vocab (fst (create_vocab vs inc exc unk c)) = Some v
    /\ vocab_list v = first ++ added ++ fill
    /\ vocab_size v = length (vocab_list v)
    /\ NoDup added
    /\ (forall t, In t added
                  <-> In t inc /\ In t (dict_keys (type_freq_dict c))
                      /\ ~ In t exc)
    /\ (forall t, In t (fill ++ rest)
                  <-> In t (dict_keys (type_freq_dict c)) /\ ~ In t exc
                      /\ ~ In t inc /\ ~ In t first)
    /\ NoDup (fill ++ rest)
    /\ (rest = [] \/ target_size vs unk c <= Z.of_nat (vocab_size v))
    /\ Z.of_nat (vocab_size v)
       <= Z.max (target_size vs unk c) (Z.of_nat (length (first ++ added)))
    /\ ((unk = true -> ~ In u (dict_keys (type_freq_dict c))) -> vocab_wf v).
Proof.
  intros W. unfold create_vocab. fold (target_size vs unk c).
  set (target := target_size vs unk c).
  set (filtered := fold_left (fun d tok => dict_pop tok d) exc (type_freq_dict c)).
  destruct (len filtered =? 0); [discriminate|].
  set (v1 := if unk
             then add_token_to_vocab (unknown_token_after "<UNK>" c)
                                     (mkVocab [] [] 0)
             else mkVocab [] [] 0).
  set (st0 := mkIncluded v1 filtered []).
  set (st := fold_left include_step inc st0).
  cbn [fst snd]. intros _.
  set (u := unknown_token_after "<UNK>" c).
  set (first := if unk then [u] else []).
  assert (Wf : dict_wf filtered) by now apply pop_all_wf.
  destruct (include_loop inc st0 Wf) as [_ [_ [Wst K]]].
  destruct (include_loop_added inc st0) as [added [A [Na Ma]]].
  fold st in A, Wst, K. cbn [inc_vocab inc_filtered st0] in A, K, Ma.
  assert (L1 : vocab_list v1 = first) by (unfold v1, first, u; now destruct unk).
  rewrite L1 in A.
  assert (S1 : vocab_size v1 = length (vocab_list v1))
    by (unfold v1; now destruct unk).
  assert (S2 : vocab_size (inc_vocab st) = length (vocab_list (inc_vocab st)))
    by (apply include_loop_counted; exact S1).
  assert (T1 : same_tokens v1).
  { unfold v1. destruct unk.
    - apply add_token_same_tokens. intros x. simpl. tauto.
    - intros x. simpl. tauto. }
  assert (T2 : same_tokens (inc_vocab st))
    by (apply include_loop_same_tokens; exact T1).
  assert (Ma' : forall t, In t added
                          <-> In t inc /\ In t (dict_keys (type_freq_dict c))
                              /\ ~ In t exc).
  { intros t. rewrite Ma. unfold filtered. rewrite pop_all_keys. tauto. }
  set (toks := sorted_tokens (inc_filtered st)).
  set (eligible := filter (fun x => negb (dict_mem x (vocab_index_dict
                                                      (inc_vocab st)))) toks).
  assert (Nt : NoDup toks) by now apply sorted_tokens_nodup.
  assert (Em : forall t, In t eligible
                         <-> In t (dict_keys (type_freq_dict c)) /\ ~ In t exc
                             /\ ~ In t inc /\ ~ In t first).
  { intros t. unfold eligible. rewrite filter_In, negb_true_iff, dict_mem_false.
    rewrite (T2 t), A, in_app_iff. unfold toks.
    assert (P : In t (sorted_tokens (inc_filtered st))
                <-> In t (dict_keys (inc_filtered st))).
    { split; apply Permutation_in;
        [apply Permutation_sym|]; apply sorted_tokens_perm. }
    rewrite P, K, Ma'. unfold filtered. rewrite pop_all_keys. tauto. }
  assert (En : NoDup eligible) by now apply NoDup_filter.
  assert (Wv : (unk = true -> ~ In u (dict_keys (type_freq_dict c))) ->
               vocab_wf (inc_vocab st)).
  { intros Hu. apply include_loop_wf; cbn [inc_vocab inc_filtered st0].
    - unfold v1. destruct unk; [|apply vocab_wf_empty].
      apply add_token_to_vocab_wf; [apply vocab_wf_empty | reflexivity].
    - intros t Ht. rewrite L1 in Ht. unfold first in Ht.
      destruct unk; [|contradiction]. destruct Ht as [<-|[]].
      unfold filtered. rewrite pop_all_keys. intros [H _].
      now apply Hu. }
  destruct (Z.ltb_spec (Z.of_nat (vocab_size (inc_vocab st))) target) as [Hlt|Hge].
  - destruct (fill_vocab_prefix target toks (inc_vocab st) Nt)
      as [fill [rest [E [L T]]]].
    fold eligible in E.
    exists (fill_vocab target toks (inc_vocab st)), added, fill, rest.
    rewrite <- E.
    split; [reflexivity|]. split; [now rewrite L, A, app_assoc|].
    split; [now apply fill_vocab_counted|].
    split; [exact Na|]. split; [exact Ma'|]. split; [exact Em|].
    split; [exact En|]. split; [exact T|]. split.
    + pose proof (fill_vocab_bound target toks (inc_vocab st)) as B.
      rewrite S2, A in B. exact B.
    + intros Hu. apply fill_vocab_wf. now apply Wv.
  - exists (inc_vocab st), added, [], eligible. cbn [app].
    split; [reflexivity|]. split; [now rewrite A, app_nil_r|].
    split; [exact S2|].
    split; [exact Na|]. split; [exact Ma'|]. split; [exact Em|].
    split; [exact En|]. split; [right; exact Hge|]. split.
    + rewrite S2, A. lia.
    + exact Wv.
Qed.

Lemma dict_get_set {V} (k t : token) (n : V) (d : dict V) :
  dict_get k (dict_set t n d)
  = if String.eqb k t then Some n else dict_get k d.
Proof.
  induction d as [|[k' v'] d IH]; simpl.
  - destruct (String.eqb k t); reflexivity.
  - destruct (String.eqb_spec t k') as [->|N]; simpl.
    + destruct (String.eqb_spec k k'); reflexivity.
    + destruct (String.eqb_spec k k') as [->|N'].
      * destruct (String.eqb_spec k' t); [congruence | reflexivity].
      * exact IH.
Qed.

(** Lookup in an enumeration of distinct tokens. *)
Lemma dict_get_enumerated (l : list token) (s : nat) (t : token) (i : nat) :
  NoDup l ->
  (dict_get t (combine l (seq s (length l))) = Some i
   <-> (s <= i)%nat /\ nth_error l (i - s) = Some t).
Proof.
  intros N. revert s. induction N as [|a l Na N IH]; intros s; simpl.
  - split; [discriminate|]. intros [_ H]. now destruct (i - s)%nat.
  - destruct (String.eqb_spec t a) as [->|Nt].
    + split.
      * intros H. injection H as <-. rewrite Nat.sub_diag. now split.
      * intros [Hs H]. destruct (i - s)%nat as [|j] eqn:E.
        -- f_equal. lia.
        -- simpl in H. apply nth_error_In in H. contradiction.
    + rewrite IH. split.
      * intros [Hs H]. split; [lia|].
        replace (i - s)%nat with (S (i - S s)) by lia. exact H.
      * intros [Hs H]. destruct (i - s)%nat as [|j] eqn:E.
        -- simpl in H. congruence.
        -- simpl in H. split; [lia|].
           replace (i - S s)%nat with j by lia. exact H.
Qed.

Lemma vocab_wf_lookup (v : Vocab) (t : token) (i : nat) :
  vocab_wf v ->
  (dict_get t (vocab_index_dict v) = Some i
   <-> nth_error (vocab_list v) i = Some t).
Proof.
  intros [_ I N]. rewrite I, (dict_get_enumerated _ 0 t i N).
  rewrite Nat.sub_0_r. split; [tauto | intros; split; [lia | assumption]].
Qed.

Lemma nodup_app {X} (l1 l2 : list X) :
  NoDup l1 -> NoDup l2 -> (forall x, In x l1 -> ~ In x l2) ->
  NoDup (l1 ++ l2).
Proof.
  induction 1 as [|a l1 Na N1 IH]; intros N2 D; simpl; [exact N2|].
  constructor.
  - rewrite in_app_iff. intros [H|H]; [contradiction|].
    apply (D a); [now left | exact H].
  - apply IH; [exact N2|]. intros x Hx. apply D. now right.
Qed.

(** A freshly resolved unknown token is no type of the corpus. *)
Lemma fresh_unknown_not_type (c : Corpus) (t : token) :
  unknown_token c = None ->
  ~ In (unknown_token_after t c) (dict_keys (type_freq_dict c)).
Proof.
  intros U. unfold unknown_token_after. rewrite U.
  apply dict_mem_false, resolve_unknown_free. lia.
Qed.

(** X13: the index map and the ordered list of a built vocabulary agree,
    for all include and exclude lists and targets, as long as the unknown
    token (when requested) is no type of the corpus, which holds whenever
    it is resolved by this build: [vocab_size] is the length of
    [vocab_list], no token occurs twice, and a token has index [i] exactly
    when it is the [i]-th entry of [vocab_list]. *)
Theorem create_vocab_index_agrees :
  forall (c : Corpus) (vocab_size_arg : option Z)
         (include_list exclude_list : list token) (include_unknown : bool)
         (missing : list token),
    dict_wf (type_freq_dict c) ->
    (include_unknown = true ->
     ~ In (unknown_token_after "<UNK>" c) (dict_keys (type_freq_dict c))) ->
    snd (create_vocab vocab_size_arg include_list exclude_list
                      include_unknown c) = Ok missing ->
    exists v,
      vocab (fst (create_vocab vocab_size_arg include_list exclude_list
                               include_unknown c)) = Some v
      /\ vocab_size v = length (vocab_list v)
      /\ NoDup (vocab_list v)
      /\ forall t i, dict_get t (vocab_index_dict v) = Some i
                     <-> nth_error (vocab_list v) i = Some t.
Proof.
  intros c vs inc exc unk missing W Hu R.
  destruct (create_vocab_shape c vs inc exc unk missing W R)
    as [v [added [fill [rest [E [_ [S [_ [_ [_ [_ [_ [_ Wv]]]]]]]]]]]]].
  exists v. specialize (Wv Hu).
  split; [exact E|]. split; [exact S|]. split; [now destruct Wv|].
  intros t i. now apply vocab_wf_lookup.
Qed.

Lemma create_vocab_index_agrees_witness :
  let c := add_document [["b"; "a"; "b"]; ["c"; "d"]] None None Corpus_init in
  exists v,
    vocab (fst (create_vocab (Some 3) ["d"; "zz"; "d"] ["c"] true c)) = Some v
    /\ vocab_size v = length (vocab_list v)
    /\ NoDup (vocab_list v)
    /\ forall t i, dict_get t (vocab_index_dict v) = Some i
                   <-> nth_error (vocab_list v) i = Some t.
Proof.
  intros c.
  assert (W : dict_wf (type_freq_dict c)) by distinct_keys.
  apply (create_vocab_index_agrees c (Some 3) ["d"; "zz"; "d"] ["c"] true
           ["zz"; "d"] W).
  - intros _. now apply fresh_unknown_not_type.
  - reflexivity.
Defined.

Lemma lookups_decode (l : list token) (d : dict nat) (fl : list token)
    (idxs : list nat) :
  (forall t i, dict_get t d = Some i -> nth_error l i = Some t) ->
  Forall2 (fun t i => dict_get t d = Some i) fl idxs ->
  map (nth_error l) idxs = map Some fl.
Proof.
  intros H F. induction F as [|t i fl idxs Hi _ IH]; [reflexivity|].
  simpl. rewrite IH. f_equal. now apply H.
Qed.

(** Everything that the steps of a build keep holds of the vocabulary it
    leaves, whether it returns or raises. *)
Lemma create_vocab_build (P : Vocab -> Prop) (c : Corpus) (vs : option Z)
    (inc exc : list token) (unk : bool) :
  P (if unk then add_token_to_vocab (unknown_token_after "<UNK>" c)
                                    (mkVocab [] [] 0)
     else mkVocab [] [] 0) ->
  (forall t v, P v -> P (add_token_to_vocab t v)) ->
  forall v, vocab (fst (create_vocab vs inc exc unk c)) = Some v -> P v.
Proof.
  intros P1 Padd v. unfold create_vocab.
  set (v1 := if unk then _ else _) in *.
  set (filtered := fold_left _ exc _).
  destruct (len filtered =? 0); cbn [fst vocab set_vocab].
  - intros E. injection E as <-. exact P1.
  - intros E. injection E as <-.
    assert (P2 : forall st, P (inc_vocab st) ->
                            P (inc_vocab (fold_left include_step inc st))).
    { induction inc as [|t inc IH]; intros st H; simpl; [exact H|].
      apply IH. unfold include_step.
      destruct (dict_mem t (inc_filtered st)); simpl; [now apply Padd | exact H]. }
    assert (P3 : forall target toks w, P w -> P (fill_vocab target toks w)).
    { intros target toks. induction toks as [|t toks IH]; intros w H; simpl;
        [exact H|].
      destruct (target <=? Z.of_nat (vocab_size w)); [exact H|].
      apply IH. destruct (dict_mem t (vocab_index_dict w));
        [exact H | now apply Padd]. }
    destruct (_ <? _); [apply P3|]; now apply P2.
Qed.

Lemma add_token_to_vocab_decodable (t : token) (v : Vocab) :
  decodable v -> decodable (add_token_to_vocab t v).
Proof.
  intros [S M G]. split; cbn [add_token_to_vocab vocab_size vocab_list
                                 vocab_index_dict].
  - rewrite length_app, S. simpl. lia.
  - intros x Hx. rewrite dict_mem_set. apply in_app_or in Hx as [Hx|Hx].
    + rewrite (M x Hx). apply orb_true_r.
    + destruct Hx as [<-|[]]. now rewrite String.eqb_refl.
  - intros x i. rewrite dict_get_set.
    destruct (String.eqb_spec x t) as [->|N].
    + intros H. injection H as <-.
      now rewrite S, nth_error_app2, Nat.sub_diag by lia.
    + intros H. specialize (G x i H). rewrite nth_error_app1; [exact G|].
      apply nth_error_Some. congruence.
Qed.

(** X14: indexing with a built vocabulary can be undone, for every corpus
    and every build, also one that raises or keeps an unknown token that is
    a type: when every token of a list is in [vocab_list],
    [create_simple_index_list] returns, whatever the unknown token is, and
    the entries of [vocab_list] at the indices it returns are the tokens of
    the list, in order. *)
Theorem create_vocab_index_round_trip :
  forall (c : Corpus) (vocab_size_arg : option Z)
         (include_list exclude_list : list token) (include_unknown : bool)
         (v : Vocab) (flattened_list : list token) (unknown : option token),
    vocab (fst (create_vocab vocab_size_arg include_list exclude_list
                             include_unknown c)) = Some v ->
    Forall (fun t => In t (vocab_list v)) flattened_list ->
    exists idxs,
      create_simple_index_list flattened_list (vocab_index_dict v) unknown
      = Ok idxs
      /\ map (nth_error (vocab_list v)) idxs = map Some flattened_list.
Proof.
  intros c vs inc exc unk v fl unknown E Hfl.
  assert (D0 : decodable (mkVocab [] [] 0)).
  { split; cbn; [reflexivity | tauto | discriminate]. }
  assert (D : decodable v).
  { apply (create_vocab_build decodable c vs inc exc unk); [| |exact E].
    - destruct unk; [now apply add_token_to_vocab_decodable | exact D0].
    - intros t w. apply add_token_to_vocab_decodable. }
  destruct D as [_ M G].
  assert (F : Forall (fun t => dict_mem t (vocab_index_dict v) = true) fl).
  { eapply Forall_impl; [|exact Hfl]. exact M. }
  destruct (simple_index_loop_present (vocab_index_dict v) unknown fl [] F)
    as [idxs [Ri F2]].
  exists idxs. split; [exact Ri|].
  exact (lookups_decode _ (vocab_index_dict v) fl idxs G F2).
Qed.

Lemma create_vocab_index_round_trip_witness :
  exists idxs,
    create_simple_index_list ["d"; "b"; "b"]
      [("<UNK>", 0%nat); ("b", 1%nat); ("a", 2%nat); ("c", 3%nat);
       ("d", 4%nat)] None
    = Ok idxs
    /\ map (nth_error ["<UNK>"; "b"; "a"; "c"; "d"]) idxs
       = map Some ["d"; "b"; "b"].
Proof.
  apply (create_vocab_index_round_trip
           (add_document [["b"; "a"; "b"]; ["c"; "d"]] None None Corpus_init)
           None [] [] true
           (mkVocab ["<UNK>"; "b"; "a"; "c"; "d"]
                    [("<UNK>", 0%nat); ("b", 1%nat); ("a", 2%nat);
                     ("c", 3%nat); ("d", 4%nat)] 5)
           ["d"; "b"; "b"] None eq_refl).
  apply Forall_forall. intros t Ht.
  destruct Ht as [<-|[<-|[<-|[]]]]; simpl; auto 10.
Defined.

(** X15: after a build with [include_unknown], indexing never fails: for
    every list of tokens, in the vocabulary or not, [create_simple_index_list]
    with the vocabulary and the unknown token of the corpus returns one
    index per token, and every index is below [vocab_size]. *)
Theorem create_vocab_indexes_everything :
  forall (c : Corpus) (vocab_size_arg : option Z)
         (include_list exclude_list : list token) (v : Vocab)
         (flattened_list : list token),
    let c' := fst (create_vocab vocab_size_arg include_list exclude_list
                                true c) in
    vocab c' = Some v ->
    exists idxs,
      create_simple_index_list flattened_list (vocab_index_dict v)
                               (unknown_token c') = Ok idxs
      /\ length idxs = length flattened_list
      /\ Forall (fun i => (i < vocab_size v)%nat) idxs.
Proof.
  intros c vs inc exc v fl c' E.
  set (u := unknown_token_after "<UNK>" c).
  assert (U : unknown_token c' = Some u).
  { unfold c', create_vocab. now destruct (len _ =? 0). }
  assert (P : dict_mem u (vocab_index_dict v) = true
              /\ forall k i, dict_get k (vocab_index_dict v) = Some i ->
                             (i < vocab_size v)%nat).
  { apply (create_vocab_build
             (fun v => dict_mem u (vocab_index_dict v) = true
                       /\ forall k i, dict_get k (vocab_index_dict v) = Some i ->
                                      (i < vocab_size v)%nat)
             c vs inc exc true); [| |exact E].
    - split.
      + unfold dict_mem. simpl. fold u. now rewrite String.eqb_refl.
      + intros k i. simpl. fold u. destruct (String.eqb k u); [|discriminate].
        intros H. injection H as <-. lia.
    - intros t w [M B]. split.
      + simpl. rewrite dict_mem_set, M. apply orb_true_r.
      + intros k i. simpl. rewrite dict_get_set.
        destruct (String.eqb k t).
        * intros H. injection H as <-. lia.
        * intros H. specialize (B k i H). lia. }
  destruct P as [M B]. unfold dict_mem in M.
  destruct (dict_get u (vocab_index_dict v)) as [ui|] eqn:G; [|discriminate].
  rewrite U. unfold create_simple_index_list.
  rewrite (simple_index_loop_ok (vocab_index_dict v) (Some u) ui fl [])
    by exact G.
  eexists. split; [reflexivity|]. split; [apply length_map|].
  apply Forall_map, Forall_forall. intros t _.
  destruct (dict_get t (vocab_index_dict v)) as [i|] eqn:Gt;
    [exact (B t i Gt) | exact (B u ui G)].
Qed.

(** X16: a built vocabulary holds nothing but the unknown token (when it is
    requested) and types of the corpus that are not excluded, whatever the
    include list and the target are; an include-list token that is excluded
    is not added. *)
Theorem create_vocab_only_types :
  forall (c : Corpus) (vocab_size_arg : option Z)
         (include_list exclude_list : list token) (include_unknown : bool)
         (missing : list token),
    dict_wf (type_freq_dict c) ->
    snd (create_vocab vocab_size_arg include_list exclude_list
                      include_unknown c) = Ok missing ->
    exists v,
      vocab (fst (create_vocab vocab_size_arg include_list exclude_list
                               include_unknown c)) = Some v
      /\ forall t, In t (vocab_list v) ->
                   (include_unknown = true
                    /\ t = unknown_token_after "<UNK>" c)
                   \/ (In t (dict_keys (type_freq_dict c))
                       /\ ~ In t exclude_list).
Proof.
  intros c vs inc exc unk missing W R.
  destruct (create_vocab_shape c vs inc exc unk missing W R)
    as [v [added [fill [rest [E [L [_ [_ [Ma [Me _]]]]]]]]]].
  exists v. split; [exact E|]. intros t Ht. rewrite L in Ht.
  apply in_app_or in Ht as [Ht|Ht].
  - left. destruct unk; [|contradiction]. destruct Ht as [<-|[]]. now split.
  - right. apply in_app_or in Ht as [Ht|Ht].
    + apply Ma in Ht. tauto.
    + assert (H : In t (fill ++ rest)) by (apply in_or_app; now left).
      apply Me in H. tauto.
Qed.

Lemma create_vocab_only_types_witness :
  let c := add_document [["b"; "a"; "b"]; ["c"; "d"]] None None Corpus_init in
  exists v,
    vocab (fst (create_vocab None ["c"; "d"] ["c"] true c)) = Some v
    /\ forall t, In t (vocab_list v) ->
                 (true = true /\ t = unknown_token_after "<UNK>" c)
                 \/ (In t (dict_keys (type_freq_dict c)) /\ ~ In t ["c"]).
Proof.
  intros c.
  assert (W : dict_wf (type_freq_dict c)) by distinct_keys.
  exact (create_vocab_only_types c None ["c"; "d"] ["c"] true ["c"] W eq_refl).
Defined.

Lemma create_vocab_indexes_everything_witness :
  let c' := fst (create_vocab (Some 2) [] [] true
                   (add_document [["b"; "a"; "b"]] None None Corpus_init)) in
  exists idxs,
    create_simple_index_list ["a"; "b"; "zz"]
      [("<UNK>", 0%nat); ("b", 1%nat)] (unknown_token c') = Ok idxs
    /\ length idxs = 3%nat
    /\ Forall (fun i => (i < 2)%nat) idxs.
Proof.
  exact (create_vocab_indexes_everything
           (add_document [["b"; "a"; "b"]] None None Corpus_init) (Some 2) [] []
           (mkVocab ["<UNK>"; "b"] [("<UNK>", 0%nat); ("b", 1%nat)] 2)
           ["a"; "b"; "zz"] eq_refl).
Defined.

(** When the fill loop has gone through all the remaining tokens, every
    type that is not excluded is in the vocabulary. *)
Lemma all_types_taken (keys inc exc first added fill l : list token) :
  (forall t, In t added <-> In t inc /\ In t keys /\ ~ In t exc) ->
  (forall t, In t (fill ++ [])
             <-> In t keys /\ ~ In t exc /\ ~ In t inc /\ ~ In t first) ->
  l = first ++ added ++ fill ->
  forall t, In t keys -> ~ In t exc -> In t l.
Proof.
  intros Ma Me -> t K X. rewrite !in_app_iff.
  destruct (in_dec string_dec t first) as [F|F]; [now left|].
  destruct (in_dec string_dec t inc) as [I|I].
  - right. left. apply Ma. tauto.
  - right. right. rewrite <- (app_nil_r fill). apply Me. tauto.
Qed.

(** X17: with the default [vocab_size] a build leaves no type out: every
    type of the corpus that is not excluded is in the vocabulary, for every
    include list and whether or not the unknown token is requested. *)
Theorem create_vocab_default_takes_all :
  forall (c : Corpus) (include_list exclude_list : list token)
         (include_unknown : bool) (missing : list token),
    dict_wf (type_freq_dict c) ->
    snd (create_vocab None include_list exclude_list include_unknown c)
    = Ok missing ->
    exists v,
      vocab (fst (create_vocab None include_list exclude_list
                               include_unknown c)) = Some v
      /\ forall t, In t (dict_keys (type_freq_dict c)) ->
                   ~ In t exclude_list -> In t (vocab_list v).
Proof.
  intros c inc exc unk missing W R.
  destruct (create_vocab_shape c None inc exc unk missing W R)
    as [v [added [fill [rest [E [L [S [Na [Ma [Me [Ne [HR _]]]]]]]]]]]].
  exists v. split; [exact E|].
  assert (Z0 : rest = []).
  { destruct HR as [HR|Hge]; [exact HR|].
    assert (N : NoDup (added ++ fill ++ rest)).
    { apply nodup_app; [exact Na | exact Ne|].
      intros x Hx Hx'. apply Ma in Hx. apply Me in Hx'. tauto. }
    assert (I : incl (added ++ fill ++ rest) (dict_keys (type_freq_dict c))).
    { intros x Hx. apply in_app_or in Hx as [Hx|Hx].
      - apply Ma in Hx. tauto.
      - apply Me in Hx. tauto. }
    pose proof (NoDup_incl_length N I) as B.
    unfold dict_keys in B. rewrite length_map, !length_app in B.
    rewrite S, L, !length_app in Hge. unfold target_size, len in Hge.
    destruct rest as [|r rest]; [reflexivity|]. exfalso.
    simpl in B. destruct unk; simpl in Hge; lia. }
  subst rest.
  exact (all_types_taken _ inc exc _ added fill (vocab_list v) Ma Me L).
Qed.

Lemma create_vocab_default_takes_all_witness :
  let c := add_document [["b"; "a"; "b"]; ["c"; "d"]] None None Corpus_init in
  exists v,
    vocab (fst (create_vocab None ["d"; "zz"] ["c"] true c)) = Some v
    /\ forall t, In t (dict_keys (type_freq_dict c)) ->
                 ~ In t ["c"] -> In t (vocab_list v).
Proof.
  intros c.
  assert (W : dict_wf (type_freq_dict c)) by distinct_keys.
  exact (create_vocab_default_takes_all c ["d"; "zz"] ["c"] true ["zz"] W
           eq_refl).
Defined.

(** X18: the size of a built vocabulary against the requested one, for all
    include and exclude lists. The vocabulary stops at the target or takes
    every type that is not excluded; and it is larger than the target only
    when the unknown token and the include list alone exceed it:
    [vocab_size] is at most the larger of the target and the length of the
    include list plus one for the unknown token. *)
Theorem create_vocab_size_bounds :
  forall (c : Corpus) (vocab_size_arg : option Z)
         (include_list exclude_list : list token) (include_unknown : bool)
         (missing : list token),
    dict_wf (type_freq_dict c) ->
    snd (create_vocab vocab_size_arg include_list exclude_list
                      include_unknown c) = Ok missing ->
    exists v,
      vocab (fst (create_vocab vocab_size_arg include_list exclude_list
                               include_unknown c)) = Some v
      /\ Z.of_nat (vocab_size v)
         <= Z.max (target_size vocab_size_arg include_unknown c)
                  ((if include_unknown then 1 else 0) + len include_list)
      /\ (target_size vocab_size_arg include_unknown c
          <= Z.of_nat (vocab_size v)
          \/ forall t, In t (dict_keys (type_freq_dict c)) ->
                       ~ In t exclude_list -> In t (vocab_list v)).
Proof.
  intros c vs inc exc unk missing W R.
  destruct (create_vocab_shape c vs inc exc unk missing W R)
    as [v [added [fill [rest [E [L [S [Na [Ma [Me [Ne [HR [B _]]]]]]]]]]]]].
  exists v. split; [exact E|]. split.
  - assert (I : incl added inc) by (intros x Hx; apply Ma in Hx; tauto).
    pose proof (NoDup_incl_length Na I) as Ba.
    rewrite length_app in B. unfold len.
    destruct unk; simpl in B; lia.
  - destruct HR as [->|Hge]; [right | now left].
    exact (all_types_taken _ inc exc _ added fill (vocab_list v) Ma Me L).
Qed.

Lemma create_vocab_size_bounds_witness :
  let c := add_document [["b"; "a"; "b"]; ["c"; "d"]] None None Corpus_init in
  exists v,
    vocab (fst (create_vocab (Some 1) ["d"; "a"] ["c"] true c)) = Some v
    /\ Z.of_nat (vocab_size v)
       <= Z.max (target_size (Some 1) true c) (1 + len ["d"; "a"])
    /\ (target_size (Some 1) true c <= Z.of_nat (vocab_size v)
        \/ forall t, In t (dict_keys (type_freq_dict c)) ->
                     ~ In t ["c"] -> In t (vocab_list v)).
Proof.
  intros c.
  assert (W : dict_wf (type_freq_dict c)) by distinct_keys.
  exact (create_vocab_size_bounds c (Some 1) ["d"; "a"] ["c"] true [] W
           eq_refl).
Defined.

(** *** The missing words *)

Lemma dict_mem_pop_other {V} (x t : token) (d : dict V) :
  x <> t -> dict_mem x (dict_pop t d) = dict_mem x d.
Proof.
  intros N. destruct (dict_mem x d) eqn:M.
  - apply dict_mem_keys, dict_pop_keys. split; [now apply dict_mem_keys | exact N].
  - apply dict_mem_false. intros H. apply dict_pop_keys in H as [H _].
    apply dict_mem_false in M. contradiction.
Qed.

Lemma include_loop_missing (inc : list token) (st : Included) :
  NoDup inc ->
  inc_missing (fold_left include_step inc st)
  = inc_missing st
    ++ filter (fun t => negb (dict_mem t (inc_filtered st))) inc.
Proof.
  intros N. revert st. induction N as [|t inc Nt N IH]; intros st;
    cbn [fold_left filter]; [now rewrite app_nil_r|].
  rewrite IH. unfold include_step.
  destruct (dict_mem t (inc_filtered st)) eqn:M; cbn [inc_missing inc_filtered negb].
  - f_equal. apply filter_ext_in. intros x Hx.
    rewrite dict_mem_pop_other; [reflexivity|]. intros ->. contradiction.
  - now rewrite <- app_assoc.
Qed.

(** X19: the list that [create_vocab] returns. When no token is twice in
    [include_list], the missing words are the tokens of the include list
    that are no type of the corpus or are excluded, in the order of the
    include list. *)
Theorem create_vocab_missing_words :
  forall (c : Corpus) (vocab_size_arg : option Z)
         (include_list exclude_list : list token) (include_unknown : bool)
         (missing : list token),
    NoDup include_list ->
    snd (create_vocab vocab_size_arg include_list exclude_list
                      include_unknown c) = Ok missing ->
    missing
    = filter (fun t => negb (dict_mem t (type_freq_dict c))
                       || existsb (String.eqb t) exclude_list)
             include_list.
Proof.
  intros c vs inc exc unk missing N. unfold create_vocab.
  set (filtered := fold_left _ exc _).
  destruct (len filtered =? 0); [discriminate|]. cbn [snd].
  intros R. injection R as <-. rewrite include_loop_missing by exact N.
  cbn [inc_missing inc_filtered app]. apply filter_ext. intros t.
  destruct (dict_mem t filtered) eqn:M.
  - apply dict_mem_keys, pop_all_keys in M as [K X].
    apply dict_mem_keys in K. rewrite K. simpl. symmetry.
    destruct (existsb (String.eqb t) exc) eqn:Ex; [|reflexivity].
    apply existsb_exists in Ex as [x [Hx Ex]].
    apply String.eqb_eq in Ex. subst x. contradiction.
  - apply dict_mem_false in M. simpl. symmetry. apply orb_true_iff.
    destruct (dict_mem t (type_freq_dict c)) eqn:K; [right | now left].
    apply dict_mem_keys in K.
    destruct (in_dec string_dec t exc) as [X|X].
    + apply existsb_exists. exists t. split; [exact X | apply String.eqb_refl].
    + exfalso. apply M, pop_all_keys. now split.
Qed.

Lemma create_vocab_missing_words_witness :
  snd (create_vocab (Some 2) ["d"; "zz"; "c"; "b"] ["c"] true
         (add_document [["b"; "a"; "b"]; ["c"; "d"]] None None Corpus_init))
  = Ok ["zz"; "c"]
  /\ ["zz"; "c"]
     = filter (fun t => negb (dict_mem t
                 (type_freq_dict
                    (add_document [["b"; "a"; "b"]; ["c"; "d"]] None None
                                  Corpus_init)))
                        || existsb (String.eqb t) ["c"])
              ["d"; "zz"; "c"; "b"].
Proof.
  split; [reflexivity|].
  apply (create_vocab_missing_words
           (add_document [["b"; "a"; "b"]; ["c"; "d"]] None None Corpus_init)
           (Some 2) ["d"; "zz"; "c"; "b"] ["c"] true ["zz"; "c"]).
  - repeat constructor; simpl; intuition discriminate.
  - reflexivity.
Defined.

(** ** The unknown token *)

(** X20: the loop of [set_unknown_token] ends, with the first of the
    candidates [t], ["<" + t + ">"], ["<<" + t + ">>"], ... that is no type
    of the corpus: when no unknown token is set yet, the token it sets is
    [t] wrapped [k] times, it is not a key of the frequency table, every
    candidate wrapped fewer times is one, and giving the loop more turns
    than the bound used changes nothing. *)
Theorem set_unknown_token_first_free :
  forall (t : token) (c : Corpus),
    unknown_token c = None ->
    exists k,
      unknown_token (set_unknown_token t c) = Some (Nat.iter k wrap t)
      /\ ~ In (Nat.iter k wrap t) (dict_keys (type_freq_dict c))
      /\ (forall j, (j < k)%nat ->
                    In (Nat.iter j wrap t) (dict_keys (type_freq_dict c)))
      /\ forall fuel, (max_key_length (type_freq_dict c) < fuel)%nat ->
                      resolve_unknown fuel (type_freq_dict c) t
                      = Nat.iter k wrap t.
Proof.
  intros t c U.
  destruct (resolve_unknown_first_free (type_freq_dict c) t) as [k [E [F B]]].
  exists k. split; [|split; [|split]].
  - unfold set_unknown_token, unknown_token_after. rewrite U.
    cbn [unknown_token set_unknown]. now rewrite E.
  - now apply dict_mem_false.
  - intros j Hj. now apply dict_mem_keys, B.
  - intros fuel Hf.
    destruct (resolve_unknown_first fuel (type_freq_dict c) t) as [k' [E' B']].
    assert (F' : dict_mem (Nat.iter k' wrap t) (type_freq_dict c) = false).
    { rewrite <- E'. apply resolve_unknown_free. lia. }
    rewrite E'. f_equal.
    destruct (Nat.lt_trichotomy k' k) as [H|[H|H]]; [|exact H|].
    + specialize (B k' H). congruence.
    + specialize (B' k H). congruence.
Qed.

Lemma set_unknown_token_first_free_witness :
  let c := add_document [["<UNK>"; "a"; "<<UNK>>"]] None None Corpus_init in
  exists k,
    unknown_token (set_unknown_token "<UNK>" c)
    = Some (Nat.iter k wrap "<UNK>")
    /\ ~ In (Nat.iter k wrap "<UNK>") (dict_keys (type_freq_dict c))
    /\ (forall j, (j < k)%nat ->
                  In (Nat.iter j wrap "<UNK>") (dict_keys (type_freq_dict c)))
    /\ forall fuel, (max_key_length (type_freq_dict c) < fuel)%nat ->
                    resolve_unknown fuel (type_freq_dict c) "<UNK>"
                    = Nat.iter k wrap "<UNK>".
Proof.
  intros c. exact (set_unknown_token_first_free "<UNK>" c eq_refl).
Defined.

(** ** The frequency table of the corpus *)

Lemma counter_get_set (k t : token) (n : Z) (d : Counter) :
  counter_get k (dict_set t n d)
  = if String.eqb k t then n else counter_get k d.
Proof.
  unfold counter_get. rewrite dict_get_set. now destruct (String.eqb k t).
Qed.

(** [Counter(tokens)] counts the occurrences of every token. *)
Lemma Counter_of_counts (tokens : list token) (d : Counter) (t : token) :
  counter_get t (fold_left (fun d t => dict_set t (counter_get t d + 1) d)
                           tokens d)
  = counter_get t d + Z.of_nat (count_occ string_dec tokens t).
Proof.
  revert d. induction tokens as [|x tokens IH]; intros d; cbn [fold_left].
  - simpl. lia.
  - rewrite IH, counter_get_set. simpl count_occ.
    destruct (string_dec x t) as [->|N].
    + rewrite String.eqb_refl. lia.
    + destruct (String.eqb_spec t x); [congruence | lia].
Qed.

Lemma Counter_of_wf (tokens : list token) : dict_wf (Counter_of tokens).
Proof.
  unfold Counter_of.
  assert (H : forall d : Counter, dict_wf d ->
            dict_wf (fold_left (fun d t => dict_set t (counter_get t d + 1) d)
                               tokens d)).
  { induction tokens as [|x tokens IH]; intros d W; simpl; [exact W|].
    apply IH, dict_set_wf, W. }
  apply H. constructor.
Qed.

Lemma total_of_wf (t : token) (other : Counter) :
  dict_wf other -> total_of t other = counter_get t other.
Proof.
  unfold dict_wf, counter_get. induction other as [|[k n] other IH]; simpl;
    [reflexivity|].
  intros W. inversion W as [|? ? Nk W']; subst.
  destruct (String.eqb_spec t k) as [->|N].
  - assert (Z0 : total_of k other = 0).
    { clear IH W W'. induction other as [|[k' n'] other IH]; simpl;
        [reflexivity|].
      destruct (String.eqb_spec k k') as [->|N'].
      - exfalso. apply Nk. now left.
      - apply IH. intros H. apply Nk. now right. }
    rewrite Z0. lia.
  - now apply IH.
Qed.

Lemma iadd_loop_counts (other self : Counter) (t : token) :
  counter_get t
    (fold_left (fun d kv => dict_set (fst kv) (counter_get (fst kv) d + snd kv) d)
               other self)
  = counter_get t self + total_of t other.
Proof.
  revert self. induction other as [|[k n] other IH]; intros self;
    cbn [fold_left].
  - simpl. lia.
  - rewrite IH, counter_get_set. simpl.
    destruct (String.eqb_spec t k) as [->|N]; lia.
Qed.

Lemma iadd_loop_wf (other self : Counter) :
  dict_wf self ->
  dict_wf
    (fold_left (fun d kv => dict_set (fst kv) (counter_get (fst kv) d + snd kv) d)
               other self).
Proof.
  revert self. induction other as [|kv other IH]; intros self W; simpl;
    [exact W|].
  apply IH, dict_set_wf, W.
Qed.

Lemma dict_get_filter {V} (f : token * V -> bool) (d : dict V) (t : token) :
  dict_wf d ->
  dict_get t (filter f d)
  = match dict_get t d with
    | Some v => if f (t, v) then Some v else None
    | None => None
    end.
Proof.
  unfold dict_wf. induction d as [|[k v] d IH]; simpl; [reflexivity|].
  intros W. inversion W as [|? ? Nk W']; subst.
  destruct (String.eqb_spec t k) as [->|N].
  - destruct (f (k, v)) eqn:F; simpl.
    + now rewrite String.eqb_refl.
    + rewrite (IH W').
      destruct (dict_get k d) as [v'|] eqn:G; [|reflexivity].
      exfalso. apply Nk. apply dict_get_In in G.
      change k with (fst (k, v')). now apply in_map.
  - destruct (f (k, v)); simpl.
    + destruct (String.eqb_spec t k); [congruence|]. now apply IH.
    + now apply IH.
Qed.

(** [self += other] adds the counts and drops what is not positive. *)
Lemma Counter_iadd_counts (self other : Counter) (t : token) :
  dict_wf self -> dict_wf other ->
  counter_get t (Counter_iadd self other)
  = Z.max 0 (counter_get t self + counter_get t other).
Proof.
  intros Ws Wo. unfold Counter_iadd, keep_positive.
  pose proof (iadd_loop_counts other self t) as C.
  pose proof (iadd_loop_wf other self Ws) as W.
  set (d := fold_left _ other self) in *.
  rewrite (total_of_wf t other Wo) in C. rewrite <- C.
  unfold counter_get at 1. rewrite (dict_get_filter _ d t W).
  unfold counter_get. destruct (dict_get t d) as [v|]; [|lia].
  cbn [snd]. destruct (Z.ltb_spec 0 v); lia.
Qed.

Lemma Counter_iadd_positive (self other : Counter) :
  positive (Counter_iadd self other).
Proof.
  intros k n H. unfold Counter_iadd, keep_positive in H.
  apply filter_In in H as [_ H]. simpl in H. now apply Z.ltb_lt.
Qed.

Lemma reachable_positive (c : Corpus) :
  reachable c -> positive (type_freq_dict c).
Proof.
  induction 1 as [|c s n i R IH|c vs inc exc unk R IH].
  - intros k n [].
  - apply Counter_iadd_positive.
  - unfold create_vocab. destruct (len _ =? 0); destruct unk; cbn; exact IH.
Qed.

Lemma positive_counter_get (d : Counter) (t : token) :
  positive d ->
  0 <= counter_get t d
  /\ (0 < counter_get t d <-> In t (dict_keys d)).
Proof.
  intros P. unfold counter_get.
  destruct (dict_get t d) as [n|] eqn:G.
  - pose proof (P t n (dict_get_In _ _ _ G)) as H. split; [lia|].
    split; [|intros _; exact H]. intros _. apply dict_mem_keys.
    unfold dict_mem. now rewrite G.
  - split; [lia|]. split; [lia|]. intros H. apply dict_mem_keys in H.
    unfold dict_mem in H. now rewrite G in H.
Qed.

(** X21: [add_document] adds the occurrences of every token of the document
    to the frequency table of the corpus: on a corpus built by the methods,
    the count of a token afterwards is its count before plus the number of
    its occurrences in the sequences of the document, and the types
    afterwards are the types before and the tokens of the document. *)
Theorem add_document_counts :
  forall (c : Corpus) (sequence_list : list (list token))
         (document_name : option string)
         (document_info_dict : option (dict string)) (t : token),
    reachable c ->
    let c' := add_document sequence_list document_name document_info_dict c in
    counter_get t (type_freq_dict c')
    = counter_get t (type_freq_dict c)
      + Z.of_nat (count_occ string_dec (List.concat sequence_list) t)
    /\ (In t (type_list c')
        <-> In t (type_list c) \/ In t (List.concat sequence_list)).
Proof.
  intros c s n i t R c'.
  destruct (reachable_invariant c R) as [W [T _]].
  pose proof (reachable_positive c R) as P.
  destruct (positive_counter_get _ t P) as [P0 PK].
  assert (C : counter_get t (type_freq_dict c')
              = counter_get t (type_freq_dict c)
                + Z.of_nat (count_occ string_dec (List.concat s) t)).
  { unfold c', add_document. cbn [type_freq_dict document.type_freq_dict
                                  document.new].
    rewrite Counter_iadd_counts by (exact W || apply Counter_of_wf).
    unfold Counter_of. rewrite Counter_of_counts.
    change (counter_get t []) with 0. lia. }
  split; [exact C|].
  assert (R' : reachable c') by now constructor.
  destruct (reachable_invariant c' R') as [_ [T' _]].
  destruct (positive_counter_get _ t (reachable_positive c' R')) as [_ PK'].
  rewrite T, T', <- PK, <- PK', C, (count_occ_In string_dec). lia.
Qed.

Lemma add_document_counts_witness :
  let c := add_document [["b"; "a"; "b"]] None None Corpus_init in
  let c' := add_document [["b"; "c"]; ["b"]] None None c in
  counter_get "b" (type_freq_dict c')
  = counter_get "b" (type_freq_dict c)
    + Z.of_nat (count_occ string_dec (List.concat [["b"; "c"]; ["b"]]) "b")
  /\ (In "b" (type_list c')
      <-> In "b" (type_list c) \/ In "b" (List.concat [["b"; "c"]; ["b"]])).
Proof.
  intros c.
  apply (add_document_counts c [["b"; "c"]; ["b"]] None None "b").
  apply reach_add_document, reach_init.
Defined.

(** [{key: idx for idx, key in enumerate(keys)}] step by step. *)
Lemma index_dict_of_snoc (keys : list token) (k : token) :
  index_dict_of (keys ++ [k])
  = dict_set k (length keys) (index_dict_of keys).
Proof.
  unfold index_dict_of. rewrite length_app. simpl length.
  rewrite Nat.add_1_r, seq_S, combine_snoc by now rewrite length_seq.
  now rewrite fold_left_app.
Qed.

Lemma index_dict_of_lookup (keys : list token) (t : token) (i : nat) :
  NoDup keys ->
  (dict_get t (index_dict_of keys) = Some i <-> nth_error keys i = Some t).
Proof.
  revert i. induction keys as [|k keys IH] using rev_ind; intros i N.
  - split; [discriminate | now destruct i].
  - apply NoDup_remove in N as [N Nk]. rewrite app_nil_r in N, Nk.
    rewrite index_dict_of_snoc, dict_get_set.
    destruct (String.eqb_spec t k) as [->|Nt].
    + split.
      * intros H. injection H as <-.
        now rewrite nth_error_app2, Nat.sub_diag by lia.
      * intros H. destruct (Nat.lt_ge_cases i (length keys)) as [Hi|Hi].
        -- rewrite nth_error_app1 in H by exact Hi.
           apply nth_error_In in H. contradiction.
        -- f_equal.
           assert (Hl : (i < length (keys ++ [k]))%nat)
             by (apply nth_error_Some; congruence).
           rewrite length_app in Hl. simpl in Hl. lia.
    + rewrite (IH i N). split.
      * intros H. rewrite nth_error_app1; [exact H|].
        apply nth_error_Some. congruence.
      * intros H. destruct (Nat.lt_ge_cases i (length keys)) as [Hi|Hi].
        -- now rewrite nth_error_app1 in H by exact Hi.
        -- rewrite nth_error_app2 in H by exact Hi.
           destruct (i - length keys)%nat as [|[|j]]; simpl in H; congruence.
Qed.

(** X22: after [add_document] on a corpus built by the methods,
    [type_list] lists the keys of the frequency table, each once, and
    [type_index_dict] gives a type the index [i] exactly when it is the
    [i]-th entry of [type_list]. *)
Theorem add_document_type_index :
  forall (c : Corpus) (sequence_list : list (list token))
         (document_name : option string)
         (document_info_dict : option (dict string)),
    reachable c ->
    let c' := add_document sequence_list document_name document_info_dict c in
    type_list c' = dict_keys (type_freq_dict c')
    /\ NoDup (type_list c')
    /\ forall t i, dict_get t (type_index_dict c') = Some i
                   <-> nth_error (type_list c') i = Some t.
Proof.
  intros c s n i R c'.
  destruct (reachable_invariant c R) as [W _].
  assert (N : NoDup (type_list c')) by exact (Counter_iadd_wf _ _ W).
  split; [reflexivity|]. split; [exact N|].
  intros t j. exact (index_dict_of_lookup (type_list c') t j N).
Qed.

Lemma add_document_type_index_witness :
  let c := add_document [["b"; "a"; "b"]] None None Corpus_init in
  let c' := add_document [["b"; "c"]; ["b"]] None None c in
  type_list c' = dict_keys (type_freq_dict c')
  /\ NoDup (type_list c')
  /\ forall t i, dict_get t (type_index_dict c') = Some i
                 <-> nth_error (type_list c') i = Some t.
Proof.
  intros c.
  apply (add_document_type_index c [["b"; "c"]; ["b"]] None None).
  apply reach_add_document, reach_init.
Defined.

(** ** Batched pairs *)

(** X23: [create_batched_sequence_lists] without a window
    ([window_size = None]), when every token can be indexed and
    [torch.tensor] accepts rectangular batches. A [batch_size] of 0 raises
    [ValueError]. With a positive one it stores [index_list[:-1]],
    [index_list[1:]] and the index list, and returns
    [ceil((n - 1) / batch_size)] one-row x batches, as many y batches and
    no y-window batch; [sequence_length] plays no role. *)
Theorem create_batched_sequence_lists_pairs :
  forall (Tensor : Type) (torch_tensor : list (list nat) -> Result Tensor)
         (document_list : list nested) (window_direction : option string)
         (batch_size sequence_length : Z) (d : dict nat)
         (unknown : option token) (il : list nat),
    (forall b k, Forall (fun r => length r = k) b ->
                 exists t, torch_tensor b = Ok t) ->
    create_simple_index_list (flatten_corpus_lists document_list) d unknown
    = Ok il ->
    (batch_size = 0 ->
     create_batched_sequence_lists Tensor torch_tensor document_list None
       window_direction batch_size sequence_length d unknown
     = Raise (ValueError "range() arg 3 must not be zero"))
    /\ (1 <= batch_size ->
        exists xt yt,
          create_batched_sequence_lists Tensor torch_tensor document_list None
            window_direction batch_size sequence_length d unknown
          = Ok (mkIndexLists (removelast il) (tl il) il, (xt, yt, []))
          /\ len xt
             = (Z.of_nat (length il - 1) + batch_size - 1) / batch_size
          /\ length yt = length xt).
Proof.
  intros Tensor torch_tensor docs dir bs sl d unknown il HT HI.
  unfold create_batched_sequence_lists, create_index_list.
  rewrite HI. cbn [bind fst snd x_list y_list index_list].
  rewrite py_slice_but_last, py_slice_from_1.
  assert (Lr : length (removelast il) = (length il - 1)%nat).
  { rewrite removelast_firstn_len, length_firstn. lia. }
  split.
  - intros ->. reflexivity.
  - intros H.
    destruct (slice_batches_positive (removelast il) bs H)
      as [rx [Ex [_ [Lx _]]]].
    destruct (slice_batches_positive (tl il) bs H) as [ry [Ey [_ [Ly _]]]].
    rewrite Ex, Ey. cbn [bind fst snd].
    assert (One : forall rows : list (list nat),
              Forall (fun b => exists t, torch_tensor b = Ok t)
                     (map (fun r => [r]) rows)).
    { intros rows. apply Forall_map, Forall_forall. intros r _.
      apply (HT [r] (length r)). now constructor. }
    destruct (map_result_ok torch_tensor _ (One rx)) as [xt [Rx Lxt]].
    destruct (map_result_ok torch_tensor _ (One ry)) as [yt [Ry Lyt]].
    rewrite Rx, Ry. cbn [bind map_result].
    exists xt, yt. split; [reflexivity|].
    rewrite length_map in Lxt, Lyt. unfold len in *.
    rewrite Lr in Lx. rewrite length_tl in Ly.
    split; [now rewrite Lxt|]. lia.
Qed.

Lemma create_batched_sequence_lists_pairs_witness :
  exists xt yt,
    create_batched_sequence_lists (list (list nat)) (@Ok (list (list nat)))
      [Lst [Tok "a"; Tok "b"]; Lst [Tok "z"; Tok "a"; Tok "b"]] None
      None 2 7
      [("<UNK>", 0%nat); ("a", 1%nat); ("b", 2%nat)] (Some "<UNK>")
    = Ok (mkIndexLists (removelast [1; 2; 0; 1; 2]%nat)
                       (tl [1; 2; 0; 1; 2]%nat) [1; 2; 0; 1; 2]%nat,
          (xt, yt, []))
    /\ len xt = (Z.of_nat (length [1; 2; 0; 1; 2]%nat - 1) + 2 - 1) / 2
    /\ length yt = length xt.
Proof.
  assert (H : 1 <= 2) by lia.
  exact (proj2 (create_batched_sequence_lists_pairs (list (list nat))
                  (@Ok (list (list nat)))
                  [Lst [Tok "a"; Tok "b"]; Lst [Tok "z"; Tok "a"; Tok "b"]]
                  None 2 7
                  [("<UNK>", 0%nat); ("a", 1%nat); ("b", 2%nat)]
                  (Some "<UNK>") [1; 2; 0; 1; 2]%nat
                  (fun b _ _ => ex_intro _ b eq_refl) eq_refl) H).
Defined.

